(** * oneMKL cuRAND backend helper: a shallow embedding of
    [src/rng/backends/curand/curand_helper.hpp]

    The header holds two exception classes that translate native status
    codes ([curand_error], [cuda_error]), the two call-wrapping macros
    ([CUDA_CALL], [CURAND_CALL]) and eight SYCL kernels that post-process raw
    generator output (four transforms, each for [cl::sycl::buffer] and for
    USM pointers).

    Modelling choices, all read off the header:
    - a status code is the integer value of the enum ([Z]); the enumerators
      themselves are declared in <curand.h> and <cuda.h>, outside the
      repository, and are therefore parameters (records [curandStatus_t],
      [cudaError_t]);
    - [float] and [double] are IEEE-754 binary32 and binary64 values
      ([spec_float] with the operations of [SpecFloat], round to nearest
      even, one rounding per operation);
    - [std::int32_t] and [std::uint32_t] are [Z] with the wrap-around written
      out;
    - a [cl::sycl::buffer<T,1>] is a [list]; USM device memory is a finite
      map from addresses to cells and a pointer is an address;
    - a kernel is a work-item function run over the index space; an access
      outside the buffer or the allocation is a fault ([None]);
    - [throw] is the left summand of a state-and-exception monad. *)

From Stdlib Require Import ZArith String Lia.
From Stdlib Require Import Floats.SpecFloat.
From stdpp Require Import base option list strings gmap.

Local Open Scope Z_scope.

(* ===================================================================== *)
(** * Fixed-width integers *)
(* ===================================================================== *)

(** The two element types the integer kernels are instantiated at. *)
Inductive int_type := int32_t | uint32_t.

Definition two32 : Z := 2 ^ 32.
Definition two31 : Z := 2 ^ 31.

(** Value range of each type. *)
Definition in_range (T : int_type) (z : Z) : Prop :=
  match T with
  | int32_t => - two31 <= z < two31
  | uint32_t => 0 <= z < two32
  end.

(** Conversion of an arbitrary integer to unsigned 32-bit (modulo 2^32). *)
Definition to_uint32 (z : Z) : Z := z mod two32.

(** Conversion to signed 32-bit, two's complement. *)
Definition to_int32 (z : Z) : Z := (z + two31) mod two32 - two31.

(** Conversion to [T]: what a store into a [T] object and arithmetic
    carried out in [T] keep of the mathematical value. *)
Definition wrap (T : int_type) (z : Z) : Z :=
  match T with
  | int32_t => to_int32 z
  | uint32_t => to_uint32 z
  end.

(** [static_cast<int>(e)] of an enumeration value. *)
Definition static_cast_int (e : Z) : Z := to_int32 e.

(* ===================================================================== *)
(** * Native status enumerations *)
(* ===================================================================== *)

(** The enumerators of [curandStatus_t] that [curand_error_map] names.
    Their numeric values are fixed by <curand.h>, which is not part of the
    repository: they are the fields of this record. *)
Record curandStatus_t := {
  CURAND_STATUS_SUCCESS : Z;
  CURAND_STATUS_VERSION_MISMATCH : Z;
  CURAND_STATUS_NOT_INITIALIZED : Z;
  CURAND_STATUS_ALLOCATION_FAILED : Z;
  CURAND_STATUS_TYPE_ERROR : Z;
  CURAND_STATUS_OUT_OF_RANGE : Z;
  CURAND_STATUS_LENGTH_NOT_MULTIPLE : Z;
  CURAND_STATUS_DOUBLE_PRECISION_REQUIRED : Z;
  CURAND_STATUS_LAUNCH_FAILURE : Z;
  CURAND_STATUS_PREEXISTING_FAILURE : Z;
  CURAND_STATUS_INITIALIZATION_FAILED : Z;
  CURAND_STATUS_ARCH_MISMATCH : Z;
  CURAND_STATUS_INTERNAL_ERROR : Z
}.

(** The enumerators with the names the header documents for them, in the
    order of the switch in [curand_error_map]. *)
Definition curand_names (E : curandStatus_t) : list (Z * string) :=
  [ (CURAND_STATUS_SUCCESS E, "CURAND_STATUS_SUCCESS");
    (CURAND_STATUS_VERSION_MISMATCH E, "CURAND_STATUS_VERSION_MISMATCH");
    (CURAND_STATUS_NOT_INITIALIZED E, "CURAND_STATUS_NOT_INITIALIZED");
    (CURAND_STATUS_ALLOCATION_FAILED E, "CURAND_STATUS_ALLOCATION_FAILED");
    (CURAND_STATUS_TYPE_ERROR E, "CURAND_STATUS_TYPE_ERROR");
    (CURAND_STATUS_OUT_OF_RANGE E, "CURAND_STATUS_OUT_OF_RANGE");
    (CURAND_STATUS_LENGTH_NOT_MULTIPLE E,
     "CURAND_STATUS_LENGTH_NOT_MULTIPLE");
    (CURAND_STATUS_DOUBLE_PRECISION_REQUIRED E,
     "CURAND_STATUS_DOUBLE_PRECISION_REQUIRED");
    (CURAND_STATUS_LAUNCH_FAILURE E, "CURAND_STATUS_LAUNCH_FAILURE");
    (CURAND_STATUS_PREEXISTING_FAILURE E,
     "CURAND_STATUS_PREEXISTING_FAILURE");
    (CURAND_STATUS_INITIALIZATION_FAILED E,
     "CURAND_STATUS_INITIALIZATION_FAILED");
    (CURAND_STATUS_ARCH_MISMATCH E, "CURAND_STATUS_ARCH_MISMATCH");
    (CURAND_STATUS_INTERNAL_ERROR E, "CURAND_STATUS_INTERNAL_ERROR") ]%string.

(** The recognised status values: the case labels of the switch. *)
Definition curand_labels (E : curandStatus_t) : list Z :=
  (curand_names E).*1.

(** The enumerators of [cudaError_t] that [cuda_error_map] names; values
    fixed by the CUDA runtime headers. *)
Record cudaError_t := {
  cudaSuccess : Z;
  cudaErrorNotPermitted : Z;
  cudaErrorIncompatibleDriverContext : Z;
  cudaErrorInvalidDevice : Z;
  cudaErrorInvalidValue : Z;
  cudaErrorMemoryAllocation : Z;
  cudaErrorLaunchOutOfResources : Z
}.

Definition cuda_names (C : cudaError_t) : list (Z * string) :=
  [ (cudaSuccess C, "cudaSuccess");
    (cudaErrorNotPermitted C, "cudaErrorNotPermitted");
    (cudaErrorIncompatibleDriverContext C,
     "cudaErrorIncompatibleDriverContext");
    (cudaErrorInvalidDevice C, "cudaErrorInvalidDevice");
    (cudaErrorInvalidValue C, "cudaErrorInvalidValue");
    (cudaErrorMemoryAllocation C, "cudaErrorMemoryAllocation");
    (cudaErrorLaunchOutOfResources C, "cudaErrorLaunchOutOfResources")
  ]%string.

Definition cuda_labels (C : cudaError_t) : list Z := (cuda_names C).*1.

(** The fallback of both switches. *)
Definition unknown_name : string := "<unknown>".

(** The values the headers of CUDA 11 give the enumerators; used to
    evaluate the development on a concrete toolkit. *)
Definition curand_h : curandStatus_t :=
  {| CURAND_STATUS_SUCCESS := 0;
     CURAND_STATUS_VERSION_MISMATCH := 100;
     CURAND_STATUS_NOT_INITIALIZED := 101;
     CURAND_STATUS_ALLOCATION_FAILED := 102;
     CURAND_STATUS_TYPE_ERROR := 103;
     CURAND_STATUS_OUT_OF_RANGE := 104;
     CURAND_STATUS_LENGTH_NOT_MULTIPLE := 105;
     CURAND_STATUS_DOUBLE_PRECISION_REQUIRED := 106;
     CURAND_STATUS_LAUNCH_FAILURE := 201;
     CURAND_STATUS_PREEXISTING_FAILURE := 202;
     CURAND_STATUS_INITIALIZATION_FAILED := 203;
     CURAND_STATUS_ARCH_MISMATCH := 204;
     CURAND_STATUS_INTERNAL_ERROR := 999 |}.

Definition cuda_h : cudaError_t :=
  {| cudaSuccess := 0;
     cudaErrorNotPermitted := 800;
     cudaErrorIncompatibleDriverContext := 49;
     cudaErrorInvalidDevice := 101;
     cudaErrorInvalidValue := 1;
     cudaErrorMemoryAllocation := 2;
     cudaErrorLaunchOutOfResources := 701 |}.

(* ===================================================================== *)
(** * The exception classes *)
(* ===================================================================== *)

Module curand_error.

(** [curand_error_map]: the switch, one test per case label in source
    order, then the default. *)
Definition curand_error_map (E : curandStatus_t) (error : Z) : string :=
  if error =? CURAND_STATUS_SUCCESS E then "CURAND_STATUS_SUCCESS"
  else if error =? CURAND_STATUS_VERSION_MISMATCH E
    then "CURAND_STATUS_VERSION_MISMATCH"
  else if error =? CURAND_STATUS_NOT_INITIALIZED E
    then "CURAND_STATUS_NOT_INITIALIZED"
  else if error =? CURAND_STATUS_ALLOCATION_FAILED E
    then "CURAND_STATUS_ALLOCATION_FAILED"
  else if error =? CURAND_STATUS_TYPE_ERROR E
    then "CURAND_STATUS_TYPE_ERROR"
  else if error =? CURAND_STATUS_OUT_OF_RANGE E
    then "CURAND_STATUS_OUT_OF_RANGE"
  else if error =? CURAND_STATUS_LENGTH_NOT_MULTIPLE E
    then "CURAND_STATUS_LENGTH_NOT_MULTIPLE"
  else if error =? CURAND_STATUS_DOUBLE_PRECISION_REQUIRED E
    then "CURAND_STATUS_DOUBLE_PRECISION_REQUIRED"
  else if error =? CURAND_STATUS_LAUNCH_FAILURE E
    then "CURAND_STATUS_LAUNCH_FAILURE"
  else if error =? CURAND_STATUS_PREEXISTING_FAILURE E
    then "CURAND_STATUS_PREEXISTING_FAILURE"
  else if error =? CURAND_STATUS_INITIALIZATION_FAILED E
    then "CURAND_STATUS_INITIALIZATION_FAILED"
  else if error =? CURAND_STATUS_ARCH_MISMATCH E
    then "CURAND_STATUS_ARCH_MISMATCH"
  else if error =? CURAND_STATUS_INTERNAL_ERROR E
    then "CURAND_STATUS_INTERNAL_ERROR"
  else "<unknown>".

(** The object: the [std::runtime_error] base keeps the message that
    [what()] returns, the class adds [error_number]. *)
Record t := { what : string; error_number : Z }.

(** The constructor [curand_error(std::string message, curandStatus_t result)]. *)
Definition make (E : curandStatus_t) (message : string) (result : Z) : t :=
  {| what := (message ++ curand_error_map E result)%string;
     error_number := static_cast_int result |}.

Definition getErrorNumber (e : t) : Z := error_number e.

End curand_error.

Module cuda_error.

Definition cuda_error_map (C : cudaError_t) (error : Z) : string :=
  if error =? cudaSuccess C then "cudaSuccess"
  else if error =? cudaErrorNotPermitted C then "cudaErrorNotPermitted"
  else if error =? cudaErrorIncompatibleDriverContext C
    then "cudaErrorIncompatibleDriverContext"
  else if error =? cudaErrorInvalidDevice C then "cudaErrorInvalidDevice"
  else if error =? cudaErrorInvalidValue C then "cudaErrorInvalidValue"
  else if error =? cudaErrorMemoryAllocation C
    then "cudaErrorMemoryAllocation"
  else if error =? cudaErrorLaunchOutOfResources C
    then "cudaErrorLaunchOutOfResources"
  else "<unknown>".

Record t := { what : string; error_number : Z }.

(** The constructor [cuda_error(std::string message, cudaError_t error)]. *)
Definition make (C : cudaError_t) (message : string) (error : Z) : t :=
  {| what := (message ++ cuda_error_map C error)%string;
     error_number := static_cast_int error |}.

Definition getErrorNumber (e : t) : Z := error_number e.

End cuda_error.

(* ===================================================================== *)
(** * [throw] and the call macros *)
(* ===================================================================== *)

(** What a wrapped call can throw. *)
Inductive exn :=
| Exn_curand (e : curand_error.t)
| Exn_cuda (e : cuda_error.t).

(** Host code over a world [W] (generator handles, device state): a step
    either completes with a value or throws; the world is threaded in both
    cases. *)
Definition host (W A : Type) : Type := W -> (exn + A) * W.

Definition ret {W A} (a : A) : host W A := fun w => (inr a, w).

Definition throw {W A} (e : exn) : host W A := fun w => (inl e, w).

Definition bind {W A B} (m : host W A) (k : A -> host W B) : host W B :=
  fun w =>
    match m w with
    | (inl e, w') => (inl e, w')
    | (inr a, w') => k a w'
    end.

(** The monad structure, so that stdpp's [x ← m; k] reads as sequencing. *)
#[global] Instance host_ret {W} : MRet (host W) := fun A => @ret W A.
#[global] Instance host_bind {W} : MBind (host W) :=
  fun A B k m => @bind W A B m k.

(** A native entry point already applied to its arguments: it acts on the
    world and returns a status. *)
Definition native (W : Type) : Type := W -> Z * W.

(** [CUDA_CALL(func, err, ...)]: [err = func(...)], then the throw when
    [err != cudaSuccess]. [func_name] is the stringised token [#func]; the
    value of the step is the value left in [err]. *)
Definition CUDA_CALL {W} (C : cudaError_t) (func_name : string)
    (func : native W) : host W Z :=
  fun w =>
    let '(err, w') := func w in
    if negb (err =? cudaSuccess C)
    then throw (Exn_cuda (cuda_error.make C (func_name ++ " : ")%string err)) w'
    else ret err w'.

(** [CURAND_CALL(func, status, ...)]. *)
Definition CURAND_CALL {W} (E : curandStatus_t) (func_name : string)
    (func : native W) : host W Z :=
  fun w =>
    let '(status, w') := func w in
    if negb (status =? CURAND_STATUS_SUCCESS E)
    then throw (Exn_curand
                  (curand_error.make E (func_name ++ " : ")%string status)) w'
    else ret status w'.

(** Whether a step ended in a throw. *)
Definition raised {W A} (r : (exn + A) * W) : Prop :=
  match r.1 with inl _ => True | inr _ => False end.

(* ===================================================================== *)
(** * Floating-point element types *)
(* ===================================================================== *)

(** The two element types the floating-point kernels are instantiated at. *)
Inductive fp_type := float | double.

(** Precision (bits of the significand, hidden bit included) and exponent
    bound of each format. *)
Definition fp_prec (T : fp_type) : Z :=
  match T with float => 24 | double => 53 end.

Definition fp_emax (T : fp_type) : Z :=
  match T with float => 128 | double => 1024 end.

(** A value of the format: a canonical, bounded significand and exponent. *)
Definition fp_valid (T : fp_type) (x : spec_float) : bool :=
  valid_binary (fp_prec T) (fp_emax T) x.

(** The C++ operators at type [T]. *)
Definition fp_sub (T : fp_type) : spec_float -> spec_float -> spec_float :=
  SFsub (fp_prec T) (fp_emax T).

Definition fp_mul (T : fp_type) : spec_float -> spec_float -> spec_float :=
  SFmul (fp_prec T) (fp_emax T).

Definition fp_add (T : fp_type) : spec_float -> spec_float -> spec_float :=
  SFadd (fp_prec T) (fp_emax T).

(** [x < y] and [x <= y]; both are false when an operand is a NaN. *)
Definition fp_lt (x y : spec_float) : bool := SFltb x y.
Definition fp_le (x y : spec_float) : bool := SFleb x y.

(** [x > y] is [y < x]. *)
Definition fp_gt (x y : spec_float) : bool := SFltb y x.

Definition fp_is_nan (x : spec_float) : bool :=
  match x with S754_nan => true | _ => false end.

(** Neither an infinity nor a NaN. *)
Definition fp_is_finite (x : spec_float) : bool :=
  match x with S754_zero _ | S754_finite _ _ _ => true | _ => false end.

(** The constants 0 and 1, the ends of the interval the generator draws
    from. *)
Definition fp_zero : spec_float := S754_zero false.
Definition fp_one (T : fp_type) : spec_float :=
  SFone (fp_prec T) (fp_emax T).

(** Decimal literals: an integer, and the correctly rounded quotient of two
    integers (the value a literal such as [0.3f] denotes). *)
Definition fp_of_Z (T : fp_type) (z : Z) : spec_float :=
  binary_normalize (fp_prec T) (fp_emax T) z 0 false.

Definition fp_ratio (T : fp_type) (num den : Z) : spec_float :=
  SFdiv (fp_prec T) (fp_emax T) (fp_of_Z T num) (fp_of_Z T den).

(** The constant 2 and the largest value of the format below 1
    (1 - 2^-24 in binary32, 1 - 2^-53 in binary64). *)
Definition fp_two (T : fp_type) : spec_float := fp_of_Z T 2.

Definition fp_below_one (T : fp_type) : spec_float :=
  SFpred (fp_prec T) (fp_emax T) (fp_one T).

(** The largest finite value of the format,
    [std::numeric_limits<T>::max()]. *)
Definition fp_max (T : fp_type) : spec_float :=
  SFmax_float (fp_prec T) (fp_emax T).

(** A sample of [curandGenerateUniform]: a value of the format in [0, 1). *)
Definition unit_sample (T : fp_type) (x : spec_float) : Prop :=
  fp_valid T x = true /\ fp_le fp_zero x = true /\ fp_lt x (fp_one T) = true.

(** The value [acc[id] * (b - a) + a] of the range kernels. *)
Definition scale (T : fp_type) (a b x : spec_float) : spec_float :=
  fp_add T (fp_mul T x (fp_sub T b a)) a.

(** What the accurate kernels leave in the cell that held [x]: the scaled
    value, replaced by [a] when it compares below [a] and by [b] when it
    compares above [b]. *)
Definition clamp (a b y : spec_float) : spec_float :=
  if fp_lt y a then a else if fp_gt y b then b else y.

(** Conversion of the result of a comparison to an integer type. *)
Definition of_bool (c : bool) : Z := if c then 1 else 0.

(* ===================================================================== *)
(** * Values of a binary format *)
(* ===================================================================== *)

(** The arithmetic of [float] and [double] is that of [SpecFloat]. To say
    what its roundings return, a finite float is given a value: the integer
    number of units [2 ^ sf_exp0] it is worth, where [sf_exp0] lies below
    every exponent the operations on values of the format meet (the
    exponent of a product of two subnormals is [2 * emin]). *)
Section FormatValues.

Variables prec emax : Z.

Local Abbreviation emin := (emin prec emax).
Local Abbreviation fexp := (fexp prec emax).

Definition sf_exp0 : Z := 2 * emin.

(** [m * 2^e], in units. *)
Definition sf_scaled (m e : Z) : Z := m * 2 ^ (e - sf_exp0).

Definition sf_value (x : spec_float) : Z :=
  match x with
  | S754_finite s m e =>
      if s then - sf_scaled (Zpos m) e else sf_scaled (Zpos m) e
  | _ => 0
  end.

(** A zero or a canonical finite float of the format. *)
Definition sf_finite (x : spec_float) : Prop :=
  match x with
  | S754_zero _ => True
  | S754_finite _ m e => bounded prec emax m e = true
  | _ => False
  end.

Definition sf_is_inf (x : spec_float) : Prop :=
  match x with S754_infinity _ => True | _ => False end.

(** The location of a remainder [rem] out of [2^n]. *)
Definition rem_loc (rem n : Z) : location :=
  if rem =? 0 then loc_Exact else loc_Inexact (2 * rem ?= 2 ^ n).

(** Rounding [m * 2^e]: the exponent it is rounded at, the quotient and the
    remainder of the significand at that exponent, and the significand
    rounded to nearest, ties to even. *)
Definition rexp (m : positive) (e : Z) : Z :=
  fexp (Zpos (digits2_pos m) + e).

Definition rquo (m : positive) (e : Z) : Z := Zpos m / 2 ^ (rexp m e - e).
Definition rrem (m : positive) (e : Z) : Z := Zpos m mod 2 ^ (rexp m e - e).

Definition rmant (m : positive) (e : Z) : Z :=
  if 0 <? rexp m e - e
  then round_nearest_even (rquo m e) (rem_loc (rrem m e) (rexp m e - e))
  else Zpos m.

(** The float made of a rounded significand [m2 <= 2^prec] and its
    exponent. *)
Definition mk_float (s : bool) (m2 e' : Z) : spec_float :=
  if m2 =? 0 then S754_zero s
  else if m2 =? 2 ^ prec
  then (if e' + 1 <=? emax - prec
        then S754_finite s (Z.to_pos (2 ^ (prec - 1))) (e' + 1)
        else S754_infinity s)
  else (if e' <=? emax - prec
        then S754_finite s (Z.to_pos m2) e'
        else S754_infinity s).

(** [R] is a finite float closest to the value [v]. *)
Definition sf_nearest (v : Z) (R : spec_float) : Prop :=
  sf_finite R
  /\ forall f, sf_finite f -> Z.abs (sf_value R - v) <= Z.abs (sf_value f - v).

(** [R] is an infinity and [v] is beyond every finite float. *)
Definition sf_overflow (v : Z) (R : spec_float) : Prop :=
  sf_is_inf R /\ forall f, sf_finite f -> Z.abs (sf_value f) < Z.abs v.

(** What a rounding of [v] returns. *)
Definition sf_rounds (v : Z) (R : spec_float) : Prop :=
  sf_nearest v R \/ sf_overflow v R.

(** What is known of a value [v] that was rounded up to [R]: some finite
    float lies below [v], and it is within [2^(1-prec)] of [R],
    relatively. *)
Definition sf_close_below (v : Z) (R : spec_float) : Prop :=
  exists lo,
    sf_finite lo /\ sf_value lo < v
    /\ 2 ^ prec * (sf_value R - sf_value lo) < 2 * sf_value R.

End FormatValues.

(* ===================================================================== *)
(** * The integer range expression *)
(* ===================================================================== *)

(** [a + raw % (b - a)] with [a b : T] and [raw : std::uint32_t], as C++
    evaluates it: [b - a] in [T]; since the left operand of [%] is
    unsigned, the difference converts to unsigned and the remainder is the
    unsigned one (undefined for a zero divisor: [None]); [a] converts to
    unsigned for the sum, which wraps; the store converts the sum to [T].
    Overflow of the signed difference is taken as two's-complement
    wrap-around. *)
Definition range_int_expr (T : int_type) (a b raw : Z) : option Z :=
  let d := to_uint32 (wrap T (b - a)) in
  if d =? 0 then None
  else Some (wrap T (to_uint32 (to_uint32 a + raw mod d))).

(* ===================================================================== *)
(** * Device model *)
(* ===================================================================== *)

(** The index space [cl::sycl::range<1>(n)] of a [std::int64_t n]: the
    argument converts to [size_t]. *)
Definition range1 (n : Z) : list nat := seq 0 (Z.to_nat (n mod 2 ^ 64)).

(** A work-item: the kernel lambda at one id, acting on the memory it
    captured. [None] is a fault (an access outside the memory). *)
Definition work_item (S : Type) : Type := nat -> S -> option S.

(** The work-items of a schedule, one after the other. *)
Fixpoint run_items {S} (body : work_item S) (ids : list nat) (s : S)
    : option S :=
  match ids with
  | [] => Some s
  | id :: rest => s' ← body id s; run_items body rest s'
  end.

(** [cgh.parallel_for(cl::sycl::range<1>(n), body)], observed once the
    kernel has completed. *)
Definition parallel_for {S} (n : Z) (body : work_item S) (s : S)
    : option S :=
  run_items body (range1 n) s.

(** Accessor subscripts on a buffer. *)
Definition acc_read {A} (buf : list A) (id : nat) : option A := buf !! id.

Definition acc_write {A} (buf : list A) (id : nat) (v : A)
    : option (list A) :=
  if decide (id < length buf)%nat then Some (<[id := v]> buf) else None.

(** USM device memory: the allocated cells by address. A pointer is the
    address of its first element; [p[id]] is the cell [p + id]. *)
Definition usm_load {A} (m : gmap nat A) (p id : nat) : option A :=
  m !! (p + id)%nat.

Definition usm_store {A} (m : gmap nat A) (p id : nat) (v : A)
    : option (gmap nat A) :=
  if decide (is_Some (m !! (p + id)%nat))
  then Some (<[(p + id)%nat := v]> m) else None.

(** Integer cells of USM memory hold 32-bit patterns; an lvalue of type
    [T] reads a pattern as a value of [T] and stores a value as its
    pattern. [std::int32_t*] and [std::uint32_t*] may address the same
    cell. *)
Definition usm_load_int (T : int_type) (m : gmap nat Z) (p id : nat)
    : option Z :=
  wrap T <$> usm_load m p id.

Definition usm_store_int (m : gmap nat Z) (p id : nat) (v : Z)
    : option (gmap nat Z) :=
  usm_store m p id (to_uint32 v).

(* ===================================================================== *)
(** * The kernels, Buffer API *)
(* ===================================================================== *)

Module buffer_api.

(** Kernel lambda of [range_transform_fp]:
    [acc[id] = acc[id] * (b - a) + a]. *)
Definition range_transform_fp_item (T : fp_type) (a b : spec_float)
    : work_item (list spec_float) :=
  fun id acc =>
    x ← acc_read acc id;
    acc_write acc id (scale T a b x).

Definition range_transform_fp (T : fp_type) (a b : spec_float) (n : Z)
    (r : list spec_float) : option (list spec_float) :=
  parallel_for n (range_transform_fp_item T a b) r.

(** Kernel lambda of [range_transform_fp_accurate]: the store of the
    scaled value, then the two tests on the stored cell. *)
Definition range_transform_fp_accurate_item (T : fp_type)
    (a b : spec_float) : work_item (list spec_float) :=
  fun id acc =>
    x ← acc_read acc id;
    acc1 ← acc_write acc id (scale T a b x);
    y ← acc_read acc1 id;
    if fp_lt y a then acc_write acc1 id a
    else
      z ← acc_read acc1 id;
      if fp_gt z b then acc_write acc1 id b else Some acc1.

Definition range_transform_fp_accurate (T : fp_type) (a b : spec_float)
    (n : Z) (r : list spec_float) : option (list spec_float) :=
  parallel_for n (range_transform_fp_accurate_item T a b) r.

(** Kernel lambda of [range_transform_int]; the state is the pair of the
    buffers [in] (read accessor) and [out] (write accessor):
    [acc_out[id] = a + acc_in[id] % (b - a)]. *)
Definition range_transform_int_item (T : int_type) (a b : Z)
    : work_item (list Z * list Z) :=
  fun id '(acc_in, acc_out) =>
    raw ← acc_read acc_in id;
    v ← range_int_expr T a b raw;
    acc_out' ← acc_write acc_out id v;
    Some (acc_in, acc_out').

Definition range_transform_int (T : int_type) (a b : Z) (n : Z)
    (in_ : list Z) (out : list Z) : option (list Z * list Z) :=
  parallel_for n (range_transform_int_item T a b) (in_, out).

(** Kernel lambda of [sample_bernoulli_from_uniform]:
    [acc_out[id] = acc_in[id] < p]. *)
Definition sample_bernoulli_from_uniform_item (p : spec_float)
    : work_item (list spec_float * list Z) :=
  fun id '(acc_in, acc_out) =>
    x ← acc_read acc_in id;
    acc_out' ← acc_write acc_out id (of_bool (fp_lt x p));
    Some (acc_in, acc_out').

Definition sample_bernoulli_from_uniform (p : spec_float) (n : Z)
    (in_ : list spec_float) (out : list Z)
    : option (list spec_float * list Z) :=
  parallel_for n (sample_bernoulli_from_uniform_item p) (in_, out).

End buffer_api.

(* ===================================================================== *)
(** * The kernels, USM API *)
(* ===================================================================== *)

Module usm_api.

(** [r[id] = r[id] * (b - a) + a] *)
Definition range_transform_fp_item (T : fp_type) (a b : spec_float)
    (r : nat) : work_item (gmap nat spec_float) :=
  fun id m =>
    x ← usm_load m r id;
    usm_store m r id (scale T a b x).

Definition range_transform_fp (T : fp_type) (a b : spec_float) (n : Z)
    (r : nat) (m : gmap nat spec_float) : option (gmap nat spec_float) :=
  parallel_for n (range_transform_fp_item T a b r) m.

Definition range_transform_fp_accurate_item (T : fp_type)
    (a b : spec_float) (r : nat) : work_item (gmap nat spec_float) :=
  fun id m =>
    x ← usm_load m r id;
    m1 ← usm_store m r id (scale T a b x);
    y ← usm_load m1 r id;
    if fp_lt y a then usm_store m1 r id a
    else
      z ← usm_load m1 r id;
      if fp_gt z b then usm_store m1 r id b else Some m1.

Definition range_transform_fp_accurate (T : fp_type) (a b : spec_float)
    (n : Z) (r : nat) (m : gmap nat spec_float)
    : option (gmap nat spec_float) :=
  parallel_for n (range_transform_fp_accurate_item T a b r) m.

(** [out[id] = a + in[id] % (b - a)], with [in] a [std::uint32_t*] and
    [out] a [T*] into the same memory. *)
Definition range_transform_int_item (T : int_type) (a b : Z)
    (in_ out : nat) : work_item (gmap nat Z) :=
  fun id m =>
    raw ← usm_load_int uint32_t m in_ id;
    v ← range_int_expr T a b raw;
    usm_store_int m out id v.

Definition range_transform_int (T : int_type) (a b : Z) (n : Z)
    (in_ out : nat) (m : gmap nat Z) : option (gmap nat Z) :=
  parallel_for n (range_transform_int_item T a b in_ out) m.

(** [out[id] = in[id] < p], with [in] a [float*] and [out] a [T*]: the
    state is the pair of the float cells and the integer cells. *)
Definition sample_bernoulli_from_uniform_item (p : spec_float)
    (in_ out : nat) : work_item (gmap nat spec_float * gmap nat Z) :=
  fun id '(mf, mi) =>
    x ← usm_load mf in_ id;
    mi' ← usm_store_int mi out id (of_bool (fp_lt x p));
    Some (mf, mi').

Definition sample_bernoulli_from_uniform (p : spec_float) (n : Z)
    (in_ out : nat) (mf : gmap nat spec_float) (mi : gmap nat Z)
    : option (gmap nat spec_float * gmap nat Z) :=
  parallel_for n (sample_bernoulli_from_uniform_item p in_ out) (mf, mi).

End usm_api.

(* ===================================================================== *)
(** * Kernels as pointwise maps over cells *)
(* ===================================================================== *)

(** A count the callers can pass: a non-negative [std::int64_t]. *)
Definition int64_count (n : Z) : Prop := 0 <= n < 2 ^ 63.

(** The view a kernel has of the memory it captured: the cell that
    work-item [id] reads ([src]), the store into the cell it writes ([put])
    and how that cell is observed afterwards ([dst]). *)
Record cells (S A B : Type) : Type := Cells {
  src : nat -> S -> option A;
  dst : nat -> S -> option B;
  put : nat -> B -> S -> option S
}.

Arguments Cells {S A B} _ _ _.
Arguments src {S A B} _ _ _.
Arguments dst {S A B} _ _ _.
Arguments put {S A B} _ _ _ _.

(** The shape all eight kernel lambdas share: read the own cell, compute,
    write the own cell. *)
Definition pointwise {S A B} (c : cells S A B) (g : A -> option B)
    : work_item S :=
  fun id s => x ← src c id s; v ← g x; put c id v s.

(** What makes the work-items of an index set [D] independent: on values
    of the element type ([V]) a store is read back, it leaves the cells of
    the other work-items alone, it succeeds exactly on existing cells, and
    the stores of two work-items commute. *)
Record cells_ok {S A B} (D : nat -> Prop) (V : B -> Prop)
    (c : cells S A B) : Prop := {
  put_dst_same : forall i v s s',
    D i -> V v -> put c i v s = Some s' -> dst c i s' = Some v;
  put_dst_other : forall i j v s s',
    D i -> D j -> i <> j -> put c i v s = Some s' -> dst c j s' = dst c j s;
  put_src_other : forall i j v s s',
    D i -> D j -> i <> j -> put c i v s = Some s' -> src c j s' = src c j s;
  put_is_Some : forall i v s,
    D i -> is_Some (put c i v s) <-> is_Some (dst c i s);
  put_commute : forall i j v w s,
    D i -> D j -> i <> j ->
    put c i v s ≫= put c j w = put c j w s ≫= put c i v
}.

(** One buffer, updated in place (the floating-point kernels). *)
Definition buffer_cells (A : Type) : cells (list A) A A :=
  Cells (fun id buf => acc_read buf id)
        (fun id buf => acc_read buf id)
        (fun id v buf => acc_write buf id v).

(** An input and an output buffer (the integer and Bernoulli kernels). *)
Definition buffer_pair_cells (A B : Type) : cells (list A * list B) A B :=
  Cells (fun id s => acc_read s.1 id)
        (fun id s => acc_read s.2 id)
        (fun id v s => out' ← acc_write s.2 id v; Some (s.1, out')).

(** USM memory updated in place through the pointer [r]. *)
Definition usm_cells (A : Type) (r : nat) : cells (gmap nat A) A A :=
  Cells (fun id m => usm_load m r id)
        (fun id m => usm_load m r id)
        (fun id v m => usm_store m r id v).

(** USM integer memory read through [in_] and written through [out]. *)
Definition usm_int_cells (T : int_type) (in_ out : nat)
    : cells (gmap nat Z) Z Z :=
  Cells (fun id m => usm_load_int uint32_t m in_ id)
        (fun id m => usm_load_int T m out id)
        (fun id v m => usm_store_int m out id v).

(** USM float memory read through [in_], integer memory written through
    [out]. *)
Definition usm_pair_cells (T : int_type) (in_ out : nat)
    : cells (gmap nat spec_float * gmap nat Z) spec_float Z :=
  Cells (fun id s => usm_load s.1 in_ id)
        (fun id s => usm_load_int T s.2 out id)
        (fun id v s => mi' ← usm_store_int s.2 out id v; Some (s.1, mi')).

(** The integer kernel on USM memory, index set [D]: no work-item writes
    the cell that another one reads. This holds when the two ranges are
    disjoint, and also when [in] and [out] are the same pointer. *)
Definition no_cross_alias (D : nat -> Prop) (in_ out : nat) : Prop :=
  forall i j, D i -> D j -> (in_ + i)%nat = (out + j)%nat -> i = j.

(** The stronger condition that the cells read and the cells written are
    apart. *)
Definition disjoint_ranges (D : nat -> Prop) (in_ out : nat) : Prop :=
  forall i j, D i -> D j -> (in_ + i)%nat <> (out + j)%nat.

(** The index set of a count [n]. *)
Definition below (n : Z) (i : nat) : Prop := Z.of_nat i < n.

(** The element functions of the four transforms. *)
Definition fp_elem (T : fp_type) (a b x : spec_float) : option spec_float :=
  Some (scale T a b x).

Definition fp_accurate_elem (T : fp_type) (a b x : spec_float)
    : option spec_float :=
  Some (clamp a b (scale T a b x)).

Definition bernoulli_elem (p x : spec_float) : option Z :=
  Some (of_bool (fp_lt x p)).

(* ===================================================================== *)
(** * Auxiliary notions of the statements *)
(* ===================================================================== *)

(** The number of raw 32-bit values [v - a], [v - a + (b - a)],
    [v - a + 2 * (b - a)], ... *)
Definition raw_count (a b v : Z) : Z := (two32 - 1 - (v - a)) / (b - a) + 1.

(** The place of a float that is not a NaN in the order of the
    comparisons: its class and sign first, then the exponent, then the
    significand. *)
Definition sf_rank (x : spec_float) : Z * Z * Z :=
  match x with
  | S754_infinity true => (-2, 0, 0)
  | S754_finite true m e => (-1, - e, - Zpos m)
  | S754_zero _ | S754_nan => (0, 0, 0)
  | S754_finite false m e => (1, e, Zpos m)
  | S754_infinity false => (2, 0, 0)
  end.

(** Lexicographic comparison of triples. *)
Definition lex3 (p q : Z * Z * Z) : comparison :=
  match p.1.1 ?= q.1.1 with
  | Eq => match p.1.2 ?= q.1.2 with
          | Eq => p.2 ?= q.2
          | c => c
          end
  | c => c
  end.

(* ===================================================================== *)
(** * Properties: fixed-width integers *)
(* ===================================================================== *)

Section Integers.

Lemma two32_eq : two32 = 4294967296.
Proof. reflexivity. Qed.

Lemma two31_eq : two31 = 2147483648.
Proof. reflexivity. Qed.

Lemma to_uint32_range z : 0 <= to_uint32 z < two32.
Proof. unfold to_uint32. apply Z.mod_pos_bound. rewrite two32_eq. lia. Qed.

Lemma to_uint32_small z : 0 <= z < two32 -> to_uint32 z = z.
Proof. intros H. unfold to_uint32. now apply Z.mod_small. Qed.

Lemma to_int32_small z : - two31 <= z < two31 -> to_int32 z = z.
Proof.
  intros H. unfold to_int32. rewrite Z.mod_small; [lia|].
  rewrite two32_eq, two31_eq in *. lia.
Qed.

(** Conversions to either type only depend on the residue modulo 2^32. *)
Lemma to_int32_congr x y : x mod two32 = y mod two32 -> to_int32 x = to_int32 y.
Proof.
  intros H. unfold to_int32.
  rewrite <- (Zplus_mod_idemp_l x), <- (Zplus_mod_idemp_l y), H. reflexivity.
Qed.

Lemma wrap_congr T x y : x mod two32 = y mod two32 -> wrap T x = wrap T y.
Proof. destruct T; simpl; [apply to_int32_congr | exact id]. Qed.

Lemma to_uint32_mod z : to_uint32 z mod two32 = z mod two32.
Proof. unfold to_uint32. apply Z.mod_mod. rewrite two32_eq. lia. Qed.

Lemma to_int32_mod z : to_int32 z mod two32 = z mod two32.
Proof.
  unfold to_int32.
  rewrite Zminus_mod_idemp_l. f_equal. lia.
Qed.

Lemma wrap_mod T z : wrap T z mod two32 = z mod two32.
Proof. destruct T; [apply to_int32_mod | apply to_uint32_mod]. Qed.

Lemma wrap_small T z : in_range T z -> wrap T z = z.
Proof. destruct T; [apply to_int32_small | apply to_uint32_small]. Qed.

Lemma wrap_in_range T z : in_range T (wrap T z).
Proof.
  destruct T; simpl; [|apply to_uint32_range].
  unfold to_int32.
  pose proof (Z.mod_pos_bound (z + two31) two32) as H.
  rewrite two32_eq, two31_eq in *. lia.
Qed.

(** Reading back as [T] a pattern stored from a value of [T]. *)
Lemma wrap_to_uint32 T z : wrap T (to_uint32 z) = wrap T z.
Proof. apply wrap_congr, to_uint32_mod. Qed.

Lemma wrap_idemp T z : wrap T (wrap T z) = wrap T z.
Proof. apply wrap_small, wrap_in_range. Qed.

Lemma of_bool_range T c : in_range T (of_bool c).
Proof. destruct T, c; simpl; rewrite ?two32_eq, ?two31_eq; lia. Qed.

(** The C++ evaluation of the range expression agrees with the
    mathematical one whenever the bounds are ordered. *)
Lemma range_int_expr_spec T a b raw :
  in_range T a -> in_range T b -> a < b ->
  range_int_expr T a b raw = Some (a + raw mod (b - a)).
Proof.
  intros Ha Hb Hab. unfold range_int_expr.
  assert (Hd : to_uint32 (wrap T (b - a)) = b - a).
  { unfold to_uint32 at 1. rewrite wrap_mod. apply Z.mod_small.
    destruct T; simpl in Ha, Hb; rewrite two32_eq, ?two31_eq in *; lia. }
  rewrite Hd.
  destruct (Z.eqb_spec (b - a) 0) as [E|_]; [lia|].
  f_equal.
  pose proof (Z.mod_pos_bound raw (b - a) ltac:(lia)) as Hm.
  rewrite wrap_to_uint32.
  rewrite (wrap_congr T _ (a + raw mod (b - a))).
  - apply wrap_small.
    destruct T; simpl in *; lia.
  - unfold to_uint32. rewrite Zplus_mod_idemp_l. reflexivity.
Qed.

Lemma range_int_expr_bounds a b raw :
  a < b -> a <= a + raw mod (b - a) < b.
Proof.
  intros Hab. pose proof (Z.mod_pos_bound raw (b - a) ltac:(lia)). lia.
Qed.

(** Whatever the bounds, a value the expression yields is a value of [T]. *)
Lemma range_int_expr_in_range T a b raw v :
  range_int_expr T a b raw = Some v -> in_range T v.
Proof.
  unfold range_int_expr. destruct (_ =? 0); [discriminate|].
  intros [= <-]. apply wrap_in_range.
Qed.

End Integers.

(* ===================================================================== *)
(** * Properties: status names and exception objects *)
(* ===================================================================== *)

(** Splits a [NoDup] hypothesis over an explicit list into the pairwise
    disequalities of its elements. *)
Ltac split_nodup H :=
  repeat (apply NoDup_cons in H; let N := fresh "N" in destruct H as [N H]);
  repeat match goal with
         | N : _ ∉ _ :: _ |- _ =>
             apply not_elem_of_cons in N;
             let D := fresh "D" in destruct N as [D N]
         end.

(** Settles a decidable closed proposition by evaluation. *)
Ltac by_decide := apply (bool_decide_unpack _); vm_compute; exact I.

(** Decides the tests of a switch once the labels are known distinct. *)
Ltac run_switch :=
  repeat match goal with
         | |- context [?x =? ?y] =>
             destruct (Z.eqb_spec x y); try congruence; try reflexivity
         end.

Section StatusNames.

Import curand_error cuda_error.
Local Open Scope string_scope.

Variable E : curandStatus_t.
Variable C : cudaError_t.

(** A C++ switch has pairwise distinct case labels. *)
Hypothesis curand_distinct : NoDup (curand_labels E).
Hypothesis cuda_distinct : NoDup (cuda_labels C).

Lemma curand_error_map_labels :
  curand_error_map E (CURAND_STATUS_SUCCESS E) = "CURAND_STATUS_SUCCESS"
  /\ curand_error_map E (CURAND_STATUS_VERSION_MISMATCH E)
     = "CURAND_STATUS_VERSION_MISMATCH"
  /\ curand_error_map E (CURAND_STATUS_NOT_INITIALIZED E)
     = "CURAND_STATUS_NOT_INITIALIZED"
  /\ curand_error_map E (CURAND_STATUS_ALLOCATION_FAILED E)
     = "CURAND_STATUS_ALLOCATION_FAILED"
  /\ curand_error_map E (CURAND_STATUS_TYPE_ERROR E)
     = "CURAND_STATUS_TYPE_ERROR"
  /\ curand_error_map E (CURAND_STATUS_OUT_OF_RANGE E)
     = "CURAND_STATUS_OUT_OF_RANGE"
  /\ curand_error_map E (CURAND_STATUS_LENGTH_NOT_MULTIPLE E)
     = "CURAND_STATUS_LENGTH_NOT_MULTIPLE"
  /\ curand_error_map E (CURAND_STATUS_DOUBLE_PRECISION_REQUIRED E)
     = "CURAND_STATUS_DOUBLE_PRECISION_REQUIRED"
  /\ curand_error_map E (CURAND_STATUS_LAUNCH_FAILURE E)
     = "CURAND_STATUS_LAUNCH_FAILURE"
  /\ curand_error_map E (CURAND_STATUS_PREEXISTING_FAILURE E)
     = "CURAND_STATUS_PREEXISTING_FAILURE"
  /\ curand_error_map E (CURAND_STATUS_INITIALIZATION_FAILED E)
     = "CURAND_STATUS_INITIALIZATION_FAILED"
  /\ curand_error_map E (CURAND_STATUS_ARCH_MISMATCH E)
     = "CURAND_STATUS_ARCH_MISMATCH"
  /\ curand_error_map E (CURAND_STATUS_INTERNAL_ERROR E)
     = "CURAND_STATUS_INTERNAL_ERROR".
Proof.
  pose proof curand_distinct as H. cbn in H.
  split_nodup H.
  repeat split; unfold curand_error_map; run_switch.
Qed.

Lemma curand_error_map_default e :
  e ∉ curand_labels E -> curand_error_map E e = "<unknown>".
Proof.
  cbn. intros H.
  repeat (apply not_elem_of_cons in H; let D := fresh "D" in destruct H as [D H]).
  unfold curand_error_map; run_switch.
Qed.

Lemma cuda_error_map_labels :
  cuda_error_map C (cudaSuccess C) = "cudaSuccess"
  /\ cuda_error_map C (cudaErrorNotPermitted C) = "cudaErrorNotPermitted"
  /\ cuda_error_map C (cudaErrorIncompatibleDriverContext C)
     = "cudaErrorIncompatibleDriverContext"
  /\ cuda_error_map C (cudaErrorInvalidDevice C) = "cudaErrorInvalidDevice"
  /\ cuda_error_map C (cudaErrorInvalidValue C) = "cudaErrorInvalidValue"
  /\ cuda_error_map C (cudaErrorMemoryAllocation C)
     = "cudaErrorMemoryAllocation"
  /\ cuda_error_map C (cudaErrorLaunchOutOfResources C)
     = "cudaErrorLaunchOutOfResources".
Proof.
  pose proof cuda_distinct as H. cbn in H.
  split_nodup H.
  repeat split; unfold cuda_error_map; run_switch.
Qed.

Lemma cuda_error_map_default e :
  e ∉ cuda_labels C -> cuda_error_map C e = "<unknown>".
Proof.
  cbn. intros H.
  repeat (apply not_elem_of_cons in H; let D := fresh "D" in destruct H as [D H]).
  unfold cuda_error_map; run_switch.
Qed.

End StatusNames.

(** Whatever the status, the mapped name is not the empty string. *)
Lemma curand_error_map_nonempty E e :
  curand_error.curand_error_map E e <> ""%string.
Proof. unfold curand_error.curand_error_map. run_switch; discriminate. Qed.

Lemma cuda_error_map_nonempty C e :
  cuda_error.cuda_error_map C e <> ""%string.
Proof. unfold cuda_error.cuda_error_map. run_switch; discriminate. Qed.

Lemma curand_h_distinct : NoDup (curand_labels curand_h).
Proof. by_decide. Defined.

Lemma cuda_h_distinct : NoDup (cuda_labels cuda_h).
Proof. by_decide. Defined.

(** C5. For every recognised status code of the cuRAND enumeration and of
    the CUDA runtime enumeration (the case labels, pairwise distinct as in
    any switch), [curand_error_map] and [cuda_error_map] return the name
    documented for that code; for every other status value they return the
    fallback "<unknown>", which is not the empty string. *)
Theorem error_maps_recognized_and_fallback
    (E : curandStatus_t) (C : cudaError_t) :
  NoDup (curand_labels E) -> NoDup (cuda_labels C) ->
  (forall c name, (c, name) ∈ curand_names E ->
     curand_error.curand_error_map E c = name)
  /\ (forall e, e ∉ curand_labels E ->
        curand_error.curand_error_map E e = unknown_name)
  /\ (forall c name, (c, name) ∈ cuda_names C ->
        cuda_error.cuda_error_map C c = name)
  /\ (forall e, e ∉ cuda_labels C ->
        cuda_error.cuda_error_map C e = unknown_name)
  /\ unknown_name <> ""%string.
Proof.
  intros HE HC.
  pose proof (curand_error_map_labels E HE) as LE.
  pose proof (cuda_error_map_labels C HC) as LC.
  repeat split.
  - intros c name H. unfold curand_names in H.
    repeat (apply elem_of_cons in H as [[= -> ->]|H]; [tauto|]).
    now apply elem_of_nil in H.
  - apply curand_error_map_default.
  - intros c name H. unfold cuda_names in H.
    repeat (apply elem_of_cons in H as [[= -> ->]|H]; [tauto|]).
    now apply elem_of_nil in H.
  - apply cuda_error_map_default.
  - discriminate.
Qed.

Lemma error_maps_recognized_and_fallback_witness :
  NoDup (curand_labels curand_h) /\ NoDup (cuda_labels cuda_h)
  /\ curand_error.curand_error_map curand_h 204
     = "CURAND_STATUS_ARCH_MISMATCH"%string
  /\ curand_error.curand_error_map curand_h 77 = unknown_name
  /\ cuda_error.cuda_error_map cuda_h 2 = "cudaErrorMemoryAllocation"%string
  /\ cuda_error.cuda_error_map cuda_h 3 = unknown_name.
Proof.
  pose proof (error_maps_recognized_and_fallback curand_h cuda_h
                curand_h_distinct cuda_h_distinct) as (H1 & H2 & H3 & H4 & _).
  split; [exact curand_h_distinct|]. split; [exact cuda_h_distinct|].
  split; [apply H1; by_decide|].
  split; [apply H2; by_decide|].
  split; [apply H3; by_decide|].
  apply H4; by_decide.
Defined.

(** C6. For every status value and every operation-name prefix, the
    constructed [curand_error] / [cuda_error] carries the message "prefix
    followed by the mapped status name", and [getErrorNumber] returns the
    status cast to [int] -- the status itself whenever it is an [int]
    value. *)
Theorem error_objects_carry_message_and_number
    (E : curandStatus_t) (C : cudaError_t) (message : string) (status : Z) :
  curand_error.what (curand_error.make E message status)
    = (message ++ curand_error.curand_error_map E status)%string
  /\ curand_error.getErrorNumber (curand_error.make E message status)
     = static_cast_int status
  /\ cuda_error.what (cuda_error.make C message status)
     = (message ++ cuda_error.cuda_error_map C status)%string
  /\ cuda_error.getErrorNumber (cuda_error.make C message status)
     = static_cast_int status
  /\ (in_range int32_t status ->
      curand_error.getErrorNumber (curand_error.make E message status) = status
      /\ cuda_error.getErrorNumber (cuda_error.make C message status) = status).
Proof.
  repeat split; try reflexivity;
    cbn; unfold static_cast_int; now apply to_int32_small.
Qed.

Lemma error_objects_carry_message_and_number_witness :
  curand_error.what (curand_error.make curand_h "curandGenerate : " 201)
    = "curandGenerate : CURAND_STATUS_LAUNCH_FAILURE"%string
  /\ curand_error.getErrorNumber
       (curand_error.make curand_h "curandGenerate : " 201) = 201
  /\ cuda_error.what (cuda_error.make cuda_h "cudaMalloc : " 2)
     = "cudaMalloc : cudaErrorMemoryAllocation"%string
  /\ cuda_error.getErrorNumber (cuda_error.make cuda_h "cudaMalloc : " 2) = 2.
Proof.
  pose proof (error_objects_carry_message_and_number
                curand_h cuda_h "curandGenerate : " 201) as (H1 & _ & _ & _ & H5).
  pose proof (error_objects_carry_message_and_number
                curand_h cuda_h "cudaMalloc : " 2) as (_ & _ & H3 & _ & H6).
  split; [exact H1|].
  split; [apply H5; unfold in_range; rewrite two31_eq; lia|].
  split; [exact H3|]. apply H6; unfold in_range; rewrite two31_eq; lia.
Defined.

(* ===================================================================== *)
(** * Properties: the call macros *)
(* ===================================================================== *)

Section CallMacros.

Context {W : Type}.
Variable E : curandStatus_t.
Variable C : cudaError_t.

Lemma CUDA_CALL_success func_name (func : native W) w :
  (func w).1 = cudaSuccess C ->
  CUDA_CALL C func_name func w = (inr (cudaSuccess C), (func w).2).
Proof.
  unfold CUDA_CALL. destruct (func w) as [err w']. simpl. intros ->.
  now rewrite Z.eqb_refl.
Qed.

Lemma CUDA_CALL_failure func_name (func : native W) w :
  (func w).1 <> cudaSuccess C ->
  CUDA_CALL C func_name func w
  = (inl (Exn_cuda (cuda_error.make C (func_name ++ " : ")%string (func w).1)),
     (func w).2).
Proof.
  unfold CUDA_CALL. destruct (func w) as [err w']. simpl. intros H.
  destruct (Z.eqb_spec err (cudaSuccess C)); [contradiction|reflexivity].
Qed.

Lemma CURAND_CALL_success func_name (func : native W) w :
  (func w).1 = CURAND_STATUS_SUCCESS E ->
  CURAND_CALL E func_name func w = (inr (CURAND_STATUS_SUCCESS E), (func w).2).
Proof.
  unfold CURAND_CALL. destruct (func w) as [err w']. simpl. intros ->.
  now rewrite Z.eqb_refl.
Qed.

Lemma CURAND_CALL_failure func_name (func : native W) w :
  (func w).1 <> CURAND_STATUS_SUCCESS E ->
  CURAND_CALL E func_name func w
  = (inl (Exn_curand
            (curand_error.make E (func_name ++ " : ")%string (func w).1)),
     (func w).2).
Proof.
  unfold CURAND_CALL. destruct (func w) as [err w']. simpl. intros H.
  destruct (Z.eqb_spec err (CURAND_STATUS_SUCCESS E));
    [contradiction|reflexivity].
Qed.

(** A throw skips whatever follows it. *)
Lemma bind_throw {A B} (m : host W A) (k : A -> host W B) w e w' :
  m w = (inl e, w') -> (m ≫= k) w = (inl e, w').
Proof. unfold mbind, host_bind, bind. now intros ->. Qed.

Lemma bind_value {A B} (m : host W A) (k : A -> host W B) w a w' :
  m w = (inr a, w') -> (m ≫= k) w = k a w'.
Proof. unfold mbind, host_bind, bind. now intros ->. Qed.

End CallMacros.

(** C7. A call wrapped by [CUDA_CALL] or [CURAND_CALL] raises if and only
    if the status the native function returned is not the success status.
    On a non-success status the step is the throw of the matching error
    object, and whatever follows the macro is skipped; on the success
    status nothing is raised and the continuation runs on the state the
    native call left. *)
Theorem call_macros_raise_iff_not_success {W B : Type}
    (E : curandStatus_t) (C : cudaError_t) (func_name : string)
    (func : native W) (k : Z -> host W B) (w : W) :
  (raised (CUDA_CALL C func_name func w) <-> (func w).1 <> cudaSuccess C)
  /\ ((func w).1 <> cudaSuccess C ->
      (CUDA_CALL C func_name func ≫= k) w
      = (inl (Exn_cuda
                (cuda_error.make C (func_name ++ " : ")%string (func w).1)),
         (func w).2))
  /\ ((func w).1 = cudaSuccess C ->
      (CUDA_CALL C func_name func ≫= k) w = k (cudaSuccess C) (func w).2)
  /\ (raised (CURAND_CALL E func_name func w)
      <-> (func w).1 <> CURAND_STATUS_SUCCESS E)
  /\ ((func w).1 <> CURAND_STATUS_SUCCESS E ->
      (CURAND_CALL E func_name func ≫= k) w
      = (inl (Exn_curand
                (curand_error.make E (func_name ++ " : ")%string (func w).1)),
         (func w).2))
  /\ ((func w).1 = CURAND_STATUS_SUCCESS E ->
      (CURAND_CALL E func_name func ≫= k) w
      = k (CURAND_STATUS_SUCCESS E) (func w).2).
Proof.
  split; [|split; [|split; [|split; [|split]]]].
  - destruct (Z.eq_dec (func w).1 (cudaSuccess C)) as [e|n].
    + rewrite (CUDA_CALL_success C _ _ _ e). unfold raised. simpl. tauto.
    + rewrite (CUDA_CALL_failure C _ _ _ n). unfold raised. simpl. tauto.
  - intros n. apply bind_throw. now apply CUDA_CALL_failure.
  - intros e. apply bind_value. now apply CUDA_CALL_success.
  - destruct (Z.eq_dec (func w).1 (CURAND_STATUS_SUCCESS E)) as [e|n].
    + rewrite (CURAND_CALL_success E _ _ _ e). unfold raised. simpl. tauto.
    + rewrite (CURAND_CALL_failure E _ _ _ n). unfold raised. simpl. tauto.
  - intros n. apply bind_throw. now apply CURAND_CALL_failure.
  - intros e. apply bind_value. now apply CURAND_CALL_success.
Qed.

(** A host world for the examples: the number of native calls made. *)
Lemma call_macros_raise_iff_not_success_witness :
  (CUDA_CALL cuda_h "cudaMalloc" (fun calls : nat => (2, S calls))
     ≫= fun _ => CURAND_CALL curand_h "curandGenerate"
                    (fun calls => (0, S calls))) 0%nat
  = (inl (Exn_cuda (cuda_error.make cuda_h "cudaMalloc : " 2)), 1%nat)
  /\ (CUDA_CALL cuda_h "cudaMalloc" (fun calls : nat => (0, S calls))
        ≫= fun _ => CURAND_CALL curand_h "curandGenerate"
                       (fun calls => (0, S calls))) 0%nat
     = (inr 0, 2%nat).
Proof.
  split.
  - apply (call_macros_raise_iff_not_success curand_h cuda_h "cudaMalloc"
             (fun calls : nat => (2, S calls))
             (fun _ => CURAND_CALL curand_h "curandGenerate"
                         (fun calls => (0, S calls))) 0%nat).
    simpl. discriminate.
  - pose proof (call_macros_raise_iff_not_success curand_h cuda_h "cudaMalloc"
             (fun calls : nat => (0, S calls))
             (fun _ => CURAND_CALL curand_h "curandGenerate"
                         (fun calls => (0, S calls))) 0%nat)
      as (_ & _ & H & _).
    rewrite H by reflexivity. reflexivity.
Defined.

(* ===================================================================== *)
(** * Properties: running the work-items *)
(* ===================================================================== *)

Section RunItems.

Context {S : Type}.

Lemma run_items_cons (body : work_item S) id rest s :
  run_items body (id :: rest) s = body id s ≫= run_items body rest.
Proof. reflexivity. Qed.

Lemma run_items_ext (body1 body2 : work_item S) ids s :
  (forall id s, id ∈ ids -> body1 id s = body2 id s) ->
  run_items body1 ids s = run_items body2 ids s.
Proof.
  revert s. induction ids as [|id rest IH]; intros s H; [reflexivity|].
  simpl. rewrite (H id s) by apply list_elem_of_here.
  destruct (body2 id s) as [s'|]; simpl; [|reflexivity].
  apply IH. intros i t Hi. apply H. now apply list_elem_of_further.
Qed.

(** What every work-item of the schedule preserves, the kernel preserves. *)
Lemma run_items_preserves (P : S -> Prop) (body : work_item S) ids :
  (forall id s s', id ∈ ids -> P s -> body id s = Some s' -> P s') ->
  forall s s', P s -> run_items body ids s = Some s' -> P s'.
Proof.
  induction ids as [|id rest IH]; intros Hstep s s' HP Hrun; simpl in Hrun.
  - now inversion Hrun; subst.
  - destruct (body id s) as [s1|] eqn:E1; simpl in Hrun; [|discriminate].
    apply (IH (fun i t t' Hi => Hstep i t t' (list_elem_of_further _ _ _ Hi))
              s1 s'); [|exact Hrun].
    exact (Hstep id s s1 (list_elem_of_here _ _) HP E1).
Qed.

End RunItems.

Lemma range1_count n : int64_count n -> range1 n = seq 0 (Z.to_nat n).
Proof.
  intros [H0 H1]. unfold range1. rewrite Z.mod_small; [reflexivity|].
  split; [exact H0|]. eapply Z.lt_trans; [exact H1|]. reflexivity.
Qed.

Lemma elem_of_range1 n i : int64_count n -> i ∈ range1 n <-> Z.of_nat i < n.
Proof.
  intros Hn. rewrite (range1_count n Hn), elem_of_seq.
  destruct Hn. lia.
Qed.

Lemma NoDup_range1 n : NoDup (range1 n).
Proof. apply NoDup_seq. Qed.

Section Pointwise.

Context {S A B : Type}.
Variable D : nat -> Prop.
Variable V : B -> Prop.
Variable c : cells S A B.
Hypothesis c_ok : cells_ok D V c.
Variable g : A -> option B.
Hypothesis g_val : forall x v, g x = Some v -> V v.

Lemma pointwise_step id s x v :
  src c id s = Some x -> g x = Some v -> pointwise c g id s = put c id v s.
Proof. unfold pointwise. intros -> . simpl. now intros ->. Qed.

Lemma pointwise_no_src id s : src c id s = None -> pointwise c g id s = None.
Proof. unfold pointwise. now intros ->. Qed.

Lemma pointwise_no_val id s x :
  src c id s = Some x -> g x = None -> pointwise c g id s = None.
Proof. unfold pointwise. intros ->. simpl. now intros ->. Qed.

(** The kernel as a whole: every scheduled work-item leaves [g] of its
    input in its output cell, and the cells of the other indices are as
    they were. *)
Lemma run_pointwise ids s :
  NoDup ids ->
  (forall i, i ∈ ids -> D i) ->
  (forall i, i ∈ ids -> is_Some (dst c i s) /\ is_Some (src c i s ≫= g)) ->
  exists s',
    run_items (pointwise c g) ids s = Some s'
    /\ (forall i, i ∈ ids -> dst c i s' = src c i s ≫= g)
    /\ (forall j, D j -> j ∉ ids ->
          dst c j s' = dst c j s /\ src c j s' = src c j s).
Proof.
  revert s. induction ids as [|id rest IH]; intros s Hnd HD Hok.
  - exists s. split; [reflexivity|]. split; [|tauto].
    intros i Hi. now apply elem_of_nil in Hi.
  - apply NoDup_cons in Hnd as [Hid Hnd].
    assert (Did : D id) by apply HD, list_elem_of_here.
    destruct (Hok id (list_elem_of_here _ _)) as [Hdst Hsrc].
    destruct (src c id s) as [x|] eqn:Ex; [|now destruct Hsrc].
    simpl in Hsrc. destruct (g x) as [v|] eqn:Ev; [|now destruct Hsrc].
    destruct (proj2 (put_is_Some D V c c_ok id v s Did) Hdst) as [s1 E1].
    assert (Hne : forall i, i ∈ rest -> id <> i) by (intros i Hi ->; tauto).
    destruct (IH s1 Hnd) as (s' & Hrun & Hin & Hout).
    { intros i Hi. apply HD. now apply list_elem_of_further. }
    { intros i Hi.
      rewrite (put_dst_other D V c c_ok id i v s s1),
              (put_src_other D V c c_ok id i v s s1);
        auto using list_elem_of_further. }
    exists s'. split; [|split].
    + rewrite run_items_cons, (pointwise_step id s x v Ex Ev), E1.
      exact Hrun.
    + intros i Hi. apply elem_of_cons in Hi as [->|Hi].
      * destruct (Hout id Did Hid) as [-> _]. rewrite Ex. simpl. rewrite Ev.
        apply (put_dst_same D V c c_ok id v s s1); eauto.
      * rewrite (Hin i Hi).
        rewrite (put_src_other D V c c_ok id i v s s1);
          auto using list_elem_of_further.
    + intros j Dj Hj. apply not_elem_of_cons in Hj as [Hji Hj].
      destruct (Hout j Dj Hj) as [-> ->].
      split; [apply (put_dst_other D V c c_ok id j v s s1)
             | apply (put_src_other D V c c_ok id j v s s1)]; auto.
Qed.

End Pointwise.

Section Simulation.

Context {S1 S2 A B : Type}.
Variable D : nat -> Prop.
Variable V : B -> Prop.
Variable c1 : cells S1 A B.
Variable c2 : cells S2 A B.
Hypothesis c1_ok : cells_ok D V c1.
Hypothesis c2_ok : cells_ok D V c2.
Variable g : A -> option B.
Hypothesis g_val : forall x v, g x = Some v -> V v.

(** Two memories that show the same cells to the same kernel: both runs
    fault, or both complete and show the same output cells. *)
Lemma run_pointwise_sim ids :
  NoDup ids ->
  (forall i, i ∈ ids -> D i) ->
  forall s1 s2,
    (forall i, i ∈ ids -> src c1 i s1 = src c2 i s2) ->
    (forall i, D i -> dst c1 i s1 = dst c2 i s2) ->
    option_Forall2 (fun s1' s2' => forall i, D i -> dst c1 i s1' = dst c2 i s2')
      (run_items (pointwise c1 g) ids s1) (run_items (pointwise c2 g) ids s2).
Proof.
  induction ids as [|id rest IH]; intros Hnd HD s1 s2 Hsrc Hdst.
  - simpl. now constructor.
  - apply NoDup_cons in Hnd as [Hid Hnd].
    assert (Did : D id) by apply HD, list_elem_of_here.
    assert (Hne : forall i, i ∈ rest -> id <> i) by (intros i Hi ->; tauto).
    rewrite !run_items_cons.
    pose proof (Hsrc id (list_elem_of_here _ _)) as Hid12.
    destruct (src c1 id s1) as [x|] eqn:Ex.
    2:{ rewrite (pointwise_no_src c1 g id s1 Ex),
                (pointwise_no_src c2 g id s2 (eq_sym Hid12)). constructor. }
    destruct (g x) as [v|] eqn:Ev.
    2:{ rewrite (pointwise_no_val c1 g id s1 x Ex Ev),
                (pointwise_no_val c2 g id s2 x (eq_sym Hid12) Ev).
        constructor. }
    rewrite (pointwise_step c1 g id s1 x v Ex Ev),
            (pointwise_step c2 g id s2 x v (eq_sym Hid12) Ev).
    pose proof (put_is_Some D V c1 c1_ok id v s1 Did) as P1.
    pose proof (put_is_Some D V c2 c2_ok id v s2 Did) as P2.
    rewrite (Hdst id Did) in P1.
    destruct (put c1 id v s1) as [t1|] eqn:E1, (put c2 id v s2) as [t2|] eqn:E2;
      simpl.
    + apply IH; auto using list_elem_of_further.
      * intros i Hi.
        rewrite (put_src_other D V c1 c1_ok id i v s1 t1),
                (put_src_other D V c2 c2_ok id i v s2 t2);
          auto using list_elem_of_further.
      * intros i Di. destruct (decide (id = i)) as [<-|Hi].
        -- rewrite (put_dst_same D V c1 c1_ok id v s1 t1),
                   (put_dst_same D V c2 c2_ok id v s2 t2); eauto.
        -- rewrite (put_dst_other D V c1 c1_ok id i v s1 t1),
                   (put_dst_other D V c2 c2_ok id i v s2 t2); auto.
    + exfalso. assert (H : is_Some (@None S2)) by (apply P2, P1; eauto).
      now destruct H.
    + exfalso. assert (H : is_Some (@None S1)) by (apply P1, P2; eauto).
      now destruct H.
    + constructor.
Qed.

End Simulation.

(** ** Completion of a kernel *)

Section PointwiseCompletes.

Context {S A B : Type}.
Variable D : nat -> Prop.
Variable V : B -> Prop.
Variable c : cells S A B.
Hypothesis c_ok : cells_ok D V c.
Variable g : A -> option B.

(** A work-item whose cell is missing, or whose element function is
    undefined on its input, faults; the work-items before it do not change
    that. *)
Lemma run_pointwise_fault ids s i :
  NoDup ids -> (forall j, j ∈ ids -> D j) -> i ∈ ids ->
  ~ (is_Some (dst c i s) /\ is_Some (src c i s ≫= g)) ->
  run_items (pointwise c g) ids s = None.
Proof.
  revert s. induction ids as [|id rest IH]; intros s Hnd HD Hi Hbad.
  - now apply elem_of_nil in Hi.
  - apply NoDup_cons in Hnd as [Hid Hnd]. rewrite run_items_cons.
    assert (Did : D id) by apply HD, list_elem_of_here.
    destruct (pointwise c g id s) as [s1|] eqn:E1; [|reflexivity]. simpl.
    unfold pointwise in E1.
    destruct (src c id s) as [x|] eqn:Ex; [|discriminate]. simpl in E1.
    destruct (g x) as [v|] eqn:Ev; [|discriminate]. simpl in E1.
    apply elem_of_cons in Hi as [->|Hi].
    + exfalso. apply Hbad. split.
      * apply (put_is_Some D V c c_ok id v s Did). eauto.
      * rewrite Ex. simpl. rewrite Ev. eauto.
    + assert (Hne : id <> i) by (intros ->; contradiction).
      assert (Di : D i) by now apply HD, list_elem_of_further.
      apply IH; [exact Hnd| |exact Hi|].
      * intros j Hj. now apply HD, list_elem_of_further.
      * rewrite (put_dst_other D V c c_ok id i v s s1 Did Di Hne E1),
                (put_src_other D V c c_ok id i v s s1 Did Di Hne E1).
        exact Hbad.
Qed.

Hypothesis g_val : forall x v, g x = Some v -> V v.

(** A kernel completes exactly when every work-item finds its cells and
    its element function is defined on its input. *)
Lemma run_pointwise_is_Some ids s :
  NoDup ids -> (forall j, j ∈ ids -> D j) ->
  is_Some (run_items (pointwise c g) ids s)
  <-> forall i, i ∈ ids ->
        is_Some (dst c i s) /\ is_Some (src c i s ≫= g).
Proof.
  intros Hnd HD. split.
  - intros [s' Hrun] i Hi.
    destruct (dst c i s) as [d|] eqn:Ed;
      [destruct (src c i s ≫= g) as [v|] eqn:Ev; [eauto|]|];
      rewrite (run_pointwise_fault ids s i Hnd HD Hi) in Hrun;
      try discriminate; rewrite ?Ed, ?Ev; intros [[? ?] [? ?]]; discriminate.
  - intros Hok.
    destruct (run_pointwise D V c c_ok g g_val ids s Hnd HD Hok)
      as (s' & Hrun & _). eauto.
Qed.

End PointwiseCompletes.

Section Agreement.

Context {S1 S2 A B : Type}.
Variable D : nat -> Prop.
Variable V : B -> Prop.
Variable c1 : cells S1 A B.
Variable c2 : cells S2 A B.
Hypothesis c1_ok : cells_ok D V c1.
Hypothesis c2_ok : cells_ok D V c2.
Variable g : A -> option B.
Hypothesis g_val : forall x v, g x = Some v -> V v.


End Agreement.

(* ===================================================================== *)
(** * Properties: buffers and USM memory as cells *)
(* ===================================================================== *)

Lemma acc_write_Some {A} (buf : list A) id v buf' :
  acc_write buf id v = Some buf'
  <-> (id < length buf)%nat /\ buf' = <[id := v]> buf.
Proof.
  unfold acc_write. destruct (decide (id < length buf)%nat); split.
  - intros [= <-]. tauto.
  - now intros [_ ->].
  - discriminate.
  - intros [? _]. contradiction.
Qed.

Lemma acc_write_is_Some {A} (buf : list A) id v :
  is_Some (acc_write buf id v) <-> is_Some (buf !! id).
Proof.
  rewrite lookup_lt_is_Some. unfold acc_write.
  destruct (decide (id < length buf)%nat); split; eauto; intros H;
    [now destruct H | contradiction].
Qed.

Lemma usm_store_Some {A} (m : gmap nat A) p id v m' :
  usm_store m p id v = Some m'
  <-> is_Some (m !! (p + id)%nat) /\ m' = <[(p + id)%nat := v]> m.
Proof.
  unfold usm_store. destruct (decide (is_Some (m !! (p + id)%nat))); split.
  - intros [= <-]. tauto.
  - now intros [_ ->].
  - discriminate.
  - intros [? _]. contradiction.
Qed.

Lemma usm_store_is_Some {A} (m : gmap nat A) p id v :
  is_Some (usm_store m p id v) <-> is_Some (m !! (p + id)%nat).
Proof.
  unfold usm_store.
  destruct (decide (is_Some (m !! (p + id)%nat))); split; eauto; intros H;
    [now destruct H | contradiction].
Qed.

(** Stores into two different cells commute, faults included. *)
Lemma acc_write_commute {A} (buf : list A) i j v w :
  i <> j ->
  acc_write buf i v ≫= (fun b => acc_write b j w)
  = acc_write buf j w ≫= (fun b => acc_write b i v).
Proof.
  intros Hij. unfold acc_write.
  destruct (decide (i < length buf)%nat), (decide (j < length buf)%nat);
    simpl; rewrite ?length_insert, ?decide_True, ?decide_False by assumption;
    try reflexivity.
  now rewrite list_insert_insert_ne.
Qed.

Lemma usm_store_commute {A} (m : gmap nat A) p i j v w :
  (p + i)%nat <> (p + j)%nat ->
  usm_store m p i v ≫= (fun t => usm_store t p j w)
  = usm_store m p j w ≫= (fun t => usm_store t p i v).
Proof.
  intros Hij. unfold usm_store.
  destruct (decide (is_Some (m !! (p + i)%nat))) as [Hi|Hi],
           (decide (is_Some (m !! (p + j)%nat))) as [Hj|Hj]; simpl;
    rewrite ?lookup_insert_ne by (try assumption; now apply not_eq_sym);
    rewrite ?decide_True, ?decide_False by assumption; try reflexivity.
  now rewrite insert_insert_ne.
Qed.

Section CellsInstances.

Variable D : nat -> Prop.

Lemma buffer_cells_ok A V : cells_ok D V (buffer_cells A).
Proof.
  split; simpl; unfold acc_read.
  - intros i v s s' _ _ [Hi ->]%acc_write_Some.
    now apply list_lookup_insert_eq.
  - intros i j v s s' _ _ Hij [_ ->]%acc_write_Some.
    now apply list_lookup_insert_ne.
  - intros i j v s s' _ _ Hij [_ ->]%acc_write_Some.
    now apply list_lookup_insert_ne.
  - intros i v s _. apply acc_write_is_Some.
  - intros i j v w s _ _ Hij. apply acc_write_commute, Hij.
Qed.

Lemma buffer_pair_cells_ok A B V : cells_ok D V (buffer_pair_cells A B).
Proof.
  split; simpl; unfold acc_read.
  - intros i v [s_in s_out] s' _ _ H. simpl in H.
    destruct (acc_write s_out i v) as [out'|] eqn:E; [|discriminate].
    injection H as <-. apply acc_write_Some in E as [Hi ->]. simpl.
    now apply list_lookup_insert_eq.
  - intros i j v [s_in s_out] s' _ _ Hij H. simpl in H.
    destruct (acc_write s_out i v) as [out'|] eqn:E; [|discriminate].
    injection H as <-. apply acc_write_Some in E as [Hi ->]. simpl.
    now apply list_lookup_insert_ne.
  - intros i j v [s_in s_out] s' _ _ Hij H. simpl in H.
    destruct (acc_write s_out i v) as [out'|] eqn:E; [|discriminate].
    now injection H as <-.
  - intros i v [s_in s_out] _. simpl.
    rewrite <- acc_write_is_Some with (v := v).
    destruct (acc_write s_out i v); simpl; split; intros [? H];
      try discriminate; eauto.
  - intros i j v w [s_in s_out] _ _ Hij. simpl.
    pose proof (acc_write_commute s_out i j v w Hij) as H.
    destruct (acc_write s_out i v) as [o1|], (acc_write s_out j w) as [o2|];
      simpl in *; try reflexivity.
    + destruct (acc_write o1 j w), (acc_write o2 i v); simpl;
        congruence.
    + now destruct (acc_write o1 j w).
    + now destruct (acc_write o2 i v).
Qed.

Lemma usm_cells_ok A V r : cells_ok D V (usm_cells A r).
Proof.
  split; simpl; unfold usm_load.
  - intros i v s s' _ _ [Hi ->]%usm_store_Some. apply lookup_insert_eq.
  - intros i j v s s' _ _ Hij [_ ->]%usm_store_Some.
    apply lookup_insert_ne. lia.
  - intros i j v s s' _ _ Hij [_ ->]%usm_store_Some.
    apply lookup_insert_ne. lia.
  - intros i v s _. apply usm_store_is_Some.
  - intros i j v w s _ _ Hij. apply usm_store_commute. lia.
Qed.

Lemma usm_int_cells_ok T in_ out :
  no_cross_alias D in_ out ->
  cells_ok D (in_range T) (usm_int_cells T in_ out).
Proof.
  intros Hal.
  split; simpl; unfold usm_load_int, usm_store_int, usm_load.
  - intros i v s s' _ Hv [Hi ->]%usm_store_Some.
    rewrite lookup_insert_eq. simpl.
    now rewrite wrap_to_uint32, wrap_small.
  - intros i j v s s' _ _ Hij [_ ->]%usm_store_Some.
    rewrite lookup_insert_ne by lia. reflexivity.
  - intros i j v s s' Di Dj Hij [_ ->]%usm_store_Some.
    rewrite lookup_insert_ne; [reflexivity|].
    intros Heq. apply Hij. symmetry. now apply (Hal j i).
  - intros i v s _. rewrite usm_store_is_Some, fmap_is_Some. reflexivity.
  - intros i j v w s _ _ Hij. apply usm_store_commute. lia.
Qed.

Lemma usm_pair_cells_ok T in_ out :
  cells_ok D (in_range T) (usm_pair_cells T in_ out).
Proof.
  split; simpl; unfold usm_load_int, usm_store_int, usm_load.
  - intros i v [mf mi] s' _ Hv H. simpl in H.
    destruct (usm_store mi out i (to_uint32 v)) as [mi'|] eqn:E;
      [|discriminate].
    injection H as <-. apply usm_store_Some in E as [Hi ->]. simpl.
    rewrite lookup_insert_eq. simpl.
    now rewrite wrap_to_uint32, wrap_small.
  - intros i j v [mf mi] s' _ _ Hij H. simpl in H.
    destruct (usm_store mi out i (to_uint32 v)) as [mi'|] eqn:E;
      [|discriminate].
    injection H as <-. apply usm_store_Some in E as [Hi ->]. simpl.
    rewrite lookup_insert_ne by lia. reflexivity.
  - intros i j v [mf mi] s' _ _ Hij H. simpl in H.
    destruct (usm_store mi out i (to_uint32 v)) as [mi'|] eqn:E;
      [|discriminate].
    now injection H as <-.
  - intros i v [mf mi] _. simpl.
    rewrite fmap_is_Some, <- usm_store_is_Some with (v := to_uint32 v).
    destruct (usm_store mi out i (to_uint32 v)); simpl; split; intros [? H];
      try discriminate; eauto.
  - intros i j v w [mf mi] _ _ Hij. simpl.
    pose proof (usm_store_commute mi out i j (to_uint32 v) (to_uint32 w)
                  ltac:(lia)) as H.
    destruct (usm_store mi out i (to_uint32 v)) as [o1|],
             (usm_store mi out j (to_uint32 w)) as [o2|];
      simpl in *; try reflexivity.
    + destruct (usm_store o1 out j (to_uint32 w)),
               (usm_store o2 out i (to_uint32 v)); simpl; congruence.
    + now destruct (usm_store o1 out j (to_uint32 w)).
    + now destruct (usm_store o2 out i (to_uint32 v)).
Qed.

End CellsInstances.

(* ===================================================================== *)
(** * Properties: the kernel lambdas are pointwise *)
(* ===================================================================== *)

Lemma clamp_cases a b y :
  clamp a b y = a /\ fp_lt y a = true
  \/ clamp a b y = b /\ fp_lt y a = false /\ fp_gt y b = true
  \/ clamp a b y = y /\ fp_lt y a = false /\ fp_gt y b = false.
Proof.
  unfold clamp. destruct (fp_lt y a); [tauto|]. destruct (fp_gt y b); tauto.
Qed.

Lemma acc_write_lt {A} (buf : list A) id v :
  (id < length buf)%nat -> acc_write buf id v = Some (<[id := v]> buf).
Proof. intros H. unfold acc_write. now rewrite decide_True. Qed.

Lemma usm_store_alloc {A} (m : gmap nat A) p id v :
  is_Some (m !! (p + id)%nat) ->
  usm_store m p id v = Some (<[(p + id)%nat := v]> m).
Proof. intros H. unfold usm_store. now rewrite decide_True. Qed.

Lemma buf_range_transform_fp_item_pointwise T a b id acc :
  buffer_api.range_transform_fp_item T a b id acc
  = pointwise (buffer_cells _) (fp_elem T a b) id acc.
Proof.
  unfold buffer_api.range_transform_fp_item, pointwise. simpl.
  now destruct (acc_read acc id).
Qed.

(** The store followed by the two tests on the stored cell amounts to one
    store of the clamped value. *)
Lemma buf_range_transform_fp_accurate_item_pointwise T a b id acc :
  buffer_api.range_transform_fp_accurate_item T a b id acc
  = pointwise (buffer_cells _) (fp_accurate_elem T a b) id acc.
Proof.
  unfold buffer_api.range_transform_fp_accurate_item, pointwise.
  cbn [src dst put buffer_cells fp_accurate_elem].
  unfold acc_read. destruct (acc !! id) as [x|] eqn:Ex; [|reflexivity].
  apply lookup_lt_Some in Ex as Hlt.
  cbn [mbind option_bind]. rewrite !acc_write_lt by exact Hlt.
  cbn [mbind option_bind].
  rewrite list_lookup_insert_eq by exact Hlt. cbn [mbind option_bind].
  rewrite !acc_write_lt by (rewrite length_insert; exact Hlt).
  unfold fp_accurate_elem. cbn [mbind option_bind].
  rewrite acc_write_lt by exact Hlt. unfold clamp. destruct (fp_lt (scale T a b x) a).
  - now rewrite list_insert_insert_eq.
  - destruct (fp_gt (scale T a b x) b); [|reflexivity].
    now rewrite list_insert_insert_eq.
Qed.

Lemma buf_range_transform_int_item_pointwise T a b id s :
  buffer_api.range_transform_int_item T a b id s
  = pointwise (buffer_pair_cells _ _) (range_int_expr T a b) id s.
Proof. now destruct s. Qed.

Lemma buf_sample_bernoulli_item_pointwise p id s :
  buffer_api.sample_bernoulli_from_uniform_item p id s
  = pointwise (buffer_pair_cells _ _) (bernoulli_elem p) id s.
Proof.
  destruct s as [acc_in acc_out].
  unfold buffer_api.sample_bernoulli_from_uniform_item, pointwise. simpl.
  now destruct (acc_read acc_in id).
Qed.

Lemma usm_range_transform_fp_item_pointwise T a b r id m :
  usm_api.range_transform_fp_item T a b r id m
  = pointwise (usm_cells _ r) (fp_elem T a b) id m.
Proof.
  unfold usm_api.range_transform_fp_item, pointwise. simpl.
  now destruct (usm_load m r id).
Qed.

Lemma usm_range_transform_fp_accurate_item_pointwise T a b r id m :
  usm_api.range_transform_fp_accurate_item T a b r id m
  = pointwise (usm_cells _ r) (fp_accurate_elem T a b) id m.
Proof.
  unfold usm_api.range_transform_fp_accurate_item, pointwise.
  cbn [src dst put usm_cells fp_accurate_elem].
  unfold usm_load.
  destruct (m !! (r + id)%nat) as [x|] eqn:Ex; [|reflexivity].
  assert (Hal : is_Some (m !! (r + id)%nat)) by (rewrite Ex; eauto).
  cbn [mbind option_bind]. rewrite !usm_store_alloc by exact Hal.
  cbn [mbind option_bind].
  rewrite lookup_insert_eq. cbn [mbind option_bind].
  rewrite !usm_store_alloc by (rewrite lookup_insert_eq; eauto).
  unfold fp_accurate_elem. cbn [mbind option_bind].
  rewrite usm_store_alloc by exact Hal. unfold clamp. destruct (fp_lt (scale T a b x) a).
  - now rewrite insert_insert_eq.
  - destruct (fp_gt (scale T a b x) b); [|reflexivity].
    now rewrite insert_insert_eq.
Qed.

Lemma usm_range_transform_int_item_pointwise T a b in_ out id m :
  usm_api.range_transform_int_item T a b in_ out id m
  = pointwise (usm_int_cells T in_ out) (range_int_expr T a b) id m.
Proof. reflexivity. Qed.

Lemma usm_sample_bernoulli_item_pointwise T p in_ out id s :
  usm_api.sample_bernoulli_from_uniform_item p in_ out id s
  = pointwise (usm_pair_cells T in_ out) (bernoulli_elem p) id s.
Proof.
  destruct s as [mf mi].
  unfold usm_api.sample_bernoulli_from_uniform_item, pointwise. simpl.
  now destruct (usm_load mf in_ id).
Qed.

(* ===================================================================== *)
(** * Properties: what each memory discipline computes *)
(* ===================================================================== *)

Lemma parallel_for_ext {S} (body1 body2 : work_item S) n s :
  (forall id s, body1 id s = body2 id s) ->
  parallel_for n body1 s = parallel_for n body2 s.
Proof. intros H. apply run_items_ext. intros id t _. apply H. Qed.

(** A kernel that updates one buffer in place. *)
Lemma buffer_in_place_run {A} (g : A -> option A) body n (r : list A) :
  (forall id s, body id s = pointwise (buffer_cells A) g id s) ->
  int64_count n -> n <= Z.of_nat (length r) ->
  (forall i x, below n i -> r !! i = Some x -> is_Some (g x)) ->
  exists r',
    parallel_for n body r = Some r'
    /\ length r' = length r
    /\ (forall i x, below n i -> r !! i = Some x -> r' !! i = g x)
    /\ (forall i, ~ below n i -> r' !! i = r !! i).
Proof.
  intros Hbody Hn Hlen Hg.
  destruct (run_pointwise (fun _ => True) (fun _ => True) (buffer_cells A)
              (buffer_cells_ok _ A _) g (fun _ _ _ => I) (range1 n) r
              (NoDup_range1 n))
    as (r' & Hrun & Hin & Hout); [done| |].
  { intros i Hi%(elem_of_range1 n i Hn). simpl. unfold acc_read.
    destruct (lookup_lt_is_Some_2 r i) as [x Hx]; [unfold below in Hi; lia|].
    rewrite Hx. split; [eauto|]. simpl. now apply (Hg i). }
  exists r'. rewrite (parallel_for_ext body _ n r Hbody). split; [exact Hrun|].
  split; [|split].
  - apply (run_items_preserves (fun s => length s = length r)
             (pointwise (buffer_cells A) g) (range1 n)) with (s := r);
      [|reflexivity|exact Hrun].
    intros id s s' _ Hs Hstep. unfold pointwise in Hstep. simpl in Hstep.
    destruct (acc_read s id); simpl in Hstep; [|discriminate].
    destruct (g a); simpl in Hstep; [|discriminate].
    apply acc_write_Some in Hstep as [_ ->]. now rewrite length_insert.
  - intros i x Hi Hx. specialize (Hin i (proj2 (elem_of_range1 n i Hn) Hi)).
    simpl in Hin. unfold acc_read in Hin. now rewrite Hin, Hx.
  - intros i Hi. apply (Hout i I). now rewrite (elem_of_range1 n i Hn).
Qed.

(** A kernel that reads one buffer and writes another. *)
Lemma buffer_pair_run {A B} (g : A -> option B) body n
    (in_ : list A) (out : list B) :
  (forall id s, body id s = pointwise (buffer_pair_cells A B) g id s) ->
  int64_count n ->
  n <= Z.of_nat (length in_) -> n <= Z.of_nat (length out) ->
  (forall i x, below n i -> in_ !! i = Some x -> is_Some (g x)) ->
  exists out',
    parallel_for n body (in_, out) = Some (in_, out')
    /\ length out' = length out
    /\ (forall i x, below n i -> in_ !! i = Some x -> out' !! i = g x)
    /\ (forall i, ~ below n i -> out' !! i = out !! i).
Proof.
  intros Hbody Hn Hlin Hlout Hg.
  destruct (run_pointwise (fun _ => True) (fun _ => True)
              (buffer_pair_cells A B) (buffer_pair_cells_ok _ A B _) g
              (fun _ _ _ => I) (range1 n) (in_, out) (NoDup_range1 n))
    as ([in' out'] & Hrun & Hin & Hout); [done| |].
  { intros i Hi%(elem_of_range1 n i Hn). simpl. unfold acc_read.
    destruct (lookup_lt_is_Some_2 in_ i) as [x Hx]; [unfold below in Hi; lia|].
    rewrite Hx. split; [|simpl; now apply (Hg i)].
    apply lookup_lt_is_Some_2. unfold below in Hi. lia. }
  assert (Hpres : forall id s s', pointwise (buffer_pair_cells A B) g id s
                    = Some s' -> s'.1 = s.1 /\ length s'.2 = length s.2).
  { intros id [s1 s2] s' Hstep. unfold pointwise in Hstep. simpl in Hstep.
    destruct (acc_read s1 id); simpl in Hstep; [|discriminate].
    destruct (g a); simpl in Hstep; [|discriminate].
    destruct (acc_write s2 id b) eqn:E; simpl in Hstep; [|discriminate].
    injection Hstep as <-. apply acc_write_Some in E as [_ ->]. simpl.
    now rewrite length_insert. }
  pose proof (run_items_preserves
                (fun s => s.1 = in_ /\ length s.2 = length out)
                (pointwise (buffer_pair_cells A B) g) (range1 n)) as Hinv.
  destruct (Hinv (fun id s s' _ Hs Hstep =>
                    let '(conj P1 P2) := Hpres id s s' Hstep in
                    let '(conj Q1 Q2) := Hs in
                    conj (eq_trans P1 Q1) (eq_trans P2 Q2))
                 (in_, out) (in', out') (conj eq_refl eq_refl) Hrun)
    as [Ein Elen].
  simpl in Ein, Elen. subst in'.
  exists out'. rewrite (parallel_for_ext body _ n _ Hbody).
  split; [exact Hrun|]. split; [exact Elen|]. split.
  - intros i x Hi Hx. specialize (Hin i (proj2 (elem_of_range1 n i Hn) Hi)).
    simpl in Hin. unfold acc_read in Hin. now rewrite Hin, Hx.
  - intros i Hi. apply (Hout i I). now rewrite (elem_of_range1 n i Hn).
Qed.

(** A kernel that updates USM memory in place through one pointer. *)
Lemma usm_in_place_run {A} (g : A -> option A) body n r (m : gmap nat A) :
  (forall id s, body id s = pointwise (usm_cells A r) g id s) ->
  int64_count n ->
  (forall i, below n i ->
     exists x, m !! (r + i)%nat = Some x /\ is_Some (g x)) ->
  exists m',
    parallel_for n body m = Some m'
    /\ (forall i x, below n i -> m !! (r + i)%nat = Some x ->
          m' !! (r + i)%nat = g x)
    /\ (forall k, (forall i, below n i -> k <> (r + i)%nat) ->
          m' !! k = m !! k).
Proof.
  intros Hbody Hn Hg.
  destruct (run_pointwise (fun _ => True) (fun _ => True) (usm_cells A r)
              (usm_cells_ok _ A _ r) g (fun _ _ _ => I) (range1 n) m
              (NoDup_range1 n))
    as (m' & Hrun & Hin & Hout); [done| |].
  { intros i Hi%(elem_of_range1 n i Hn). simpl. unfold usm_load.
    destruct (Hg i Hi) as (x & -> & Hx). split; [eauto|exact Hx]. }
  exists m'. rewrite (parallel_for_ext body _ n m Hbody). split; [exact Hrun|].
  split.
  - intros i x Hi Hx. specialize (Hin i (proj2 (elem_of_range1 n i Hn) Hi)).
    simpl in Hin. unfold usm_load in Hin. now rewrite Hin, Hx.
  - apply (run_items_preserves
             (fun s => forall k, (forall i, below n i -> k <> (r + i)%nat) ->
                                 s !! k = m !! k)
             (pointwise (usm_cells A r) g) (range1 n)) with (s := m);
      [|done|exact Hrun].
    intros id s s' Hid%(elem_of_range1 n id Hn) Hs Hstep k Hk.
    unfold pointwise in Hstep. simpl in Hstep.
    destruct (usm_load s r id); simpl in Hstep; [|discriminate].
    destruct (g a); simpl in Hstep; [|discriminate].
    apply usm_store_Some in Hstep as [_ ->].
    rewrite lookup_insert_ne; [now apply Hs|].
    intros E. now apply (Hk id).
Qed.

(** The integer kernel on USM memory: it reads through [in_] and writes
    through [out]. *)
Lemma usm_int_run T (g : Z -> option Z) body n in_ out (m : gmap nat Z) :
  (forall id s, body id s = pointwise (usm_int_cells T in_ out) g id s) ->
  (forall x v, g x = Some v -> in_range T v) ->
  int64_count n ->
  no_cross_alias (below n) in_ out ->
  (forall i, below n i ->
     is_Some (m !! (out + i)%nat)
     /\ exists x, usm_load_int uint32_t m in_ i = Some x /\ is_Some (g x)) ->
  exists m',
    parallel_for n body m = Some m'
    /\ (forall i x, below n i -> usm_load_int uint32_t m in_ i = Some x ->
          usm_load_int T m' out i = g x)
    /\ (forall k, (forall i, below n i -> k <> (out + i)%nat) ->
          m' !! k = m !! k).
Proof.
  intros Hbody Hval Hn Hal Hg.
  destruct (run_pointwise (below n) (in_range T) (usm_int_cells T in_ out)
              (usm_int_cells_ok _ T in_ out Hal) g Hval (range1 n) m
              (NoDup_range1 n))
    as (m' & Hrun & Hin & Hout).
  { intros i Hi. now apply (elem_of_range1 n i Hn). }
  { intros i Hi%(elem_of_range1 n i Hn). simpl.
    destruct (Hg i Hi) as (Ho & x & -> & Hx). split; [|exact Hx].
    unfold usm_load_int, usm_load. now apply fmap_is_Some. }
  exists m'. rewrite (parallel_for_ext body _ n m Hbody). split; [exact Hrun|].
  split.
  - intros i x Hi Hx. specialize (Hin i (proj2 (elem_of_range1 n i Hn) Hi)).
    simpl in Hin. now rewrite Hin, Hx.
  - apply (run_items_preserves
             (fun s => forall k, (forall i, below n i -> k <> (out + i)%nat) ->
                                 s !! k = m !! k)
             (pointwise (usm_int_cells T in_ out) g) (range1 n)) with (s := m);
      [|done|exact Hrun].
    intros id s s' Hid%(elem_of_range1 n id Hn) Hs Hstep k Hk.
    unfold pointwise in Hstep. simpl in Hstep.
    destruct (usm_load_int uint32_t s in_ id); simpl in Hstep; [|discriminate].
    destruct (g z); simpl in Hstep; [|discriminate].
    apply usm_store_Some in Hstep as [_ ->].
    rewrite lookup_insert_ne; [now apply Hs|].
    intros E. now apply (Hk id).
Qed.

(** The Bernoulli kernel on USM memory: float cells read, integer cells
    written. *)
Lemma usm_pair_run T (g : spec_float -> option Z) body n in_ out
    (mf : gmap nat spec_float) (mi : gmap nat Z) :
  (forall id s, body id s = pointwise (usm_pair_cells T in_ out) g id s) ->
  (forall x v, g x = Some v -> in_range T v) ->
  int64_count n ->
  (forall i, below n i ->
     is_Some (mi !! (out + i)%nat)
     /\ exists x, mf !! (in_ + i)%nat = Some x /\ is_Some (g x)) ->
  exists mi',
    parallel_for n body (mf, mi) = Some (mf, mi')
    /\ (forall i x, below n i -> mf !! (in_ + i)%nat = Some x ->
          usm_load_int T mi' out i = g x)
    /\ (forall k, (forall i, below n i -> k <> (out + i)%nat) ->
          mi' !! k = mi !! k).
Proof.
  intros Hbody Hval Hn Hg.
  destruct (run_pointwise (fun _ => True) (in_range T)
              (usm_pair_cells T in_ out) (usm_pair_cells_ok _ T in_ out) g
              Hval (range1 n) (mf, mi) (NoDup_range1 n))
    as ([mf' mi'] & Hrun & Hin & Hout); [done| |].
  { intros i Hi%(elem_of_range1 n i Hn). simpl.
    destruct (Hg i Hi) as (Ho & x & Hx & Hgx). split.
    - unfold usm_load_int, usm_load. now apply fmap_is_Some.
    - unfold usm_load. now rewrite Hx. }
  pose proof (run_items_preserves
                (fun s => s.1 = mf
                          /\ forall k, (forall i, below n i -> k <> (out + i)%nat)
                                       -> s.2 !! k = mi !! k)
                (pointwise (usm_pair_cells T in_ out) g) (range1 n)) as Hinv.
  destruct (Hinv) with (s := (mf, mi)) (s' := (mf', mi')) as [Ef Efr];
    [|done|exact Hrun|].
  { intros id [s1 s2] s' Hid%(elem_of_range1 n id Hn) [Hs1 Hs2] Hstep.
    unfold pointwise in Hstep. simpl in *.
    destruct (usm_load s1 in_ id); simpl in Hstep; [|discriminate].
    destruct (g s); simpl in Hstep; [|discriminate].
    unfold usm_store_int in Hstep.
    destruct (usm_store s2 out id (to_uint32 z)) eqn:E; simpl in Hstep;
      [|discriminate].
    injection Hstep as <-. apply usm_store_Some in E as [_ ->]. simpl.
    split; [exact Hs1|]. intros k Hk.
    rewrite lookup_insert_ne; [now apply Hs2|].
    intros E. now apply (Hk id). }
  simpl in Ef, Efr. subst mf'.
  exists mi'. rewrite (parallel_for_ext body _ n _ Hbody).
  split; [exact Hrun|]. split; [|exact Efr].
  intros i x Hi Hx. specialize (Hin i (proj2 (elem_of_range1 n i Hn) Hi)).
  simpl in Hin. unfold usm_load in Hin. now rewrite Hin, Hx.
Qed.

(* ===================================================================== *)
(** * The integer range transform *)
(* ===================================================================== *)

Lemma range_int_expr_val T a b x v :
  range_int_expr T a b x = Some v -> in_range T v.
Proof. apply range_int_expr_in_range. Qed.

(** C2. For bounds [a < b] of type [T] (either [std::int32_t] or
    [std::uint32_t]) and a count [n] within the buffers,
    [range_transform_int] completes, leaves [a + raw % (b - a)] in output
    element [i] for the raw input [raw] at [i], and that value lies in
    [a, b); this holds for the buffer variant and, on allocated cells whose
    input and output work-items do not cross, for the USM variant. Raw
    inputs 5, 17, 33 with [a = 10], [b = 20] give 15, 17, 13. *)
Theorem range_transform_int_in_range (T : int_type) (a b n : Z) :
  in_range T a -> in_range T b -> a < b -> int64_count n ->
  (forall in_ out : list Z,
     n <= Z.of_nat (length in_) -> n <= Z.of_nat (length out) ->
     exists out',
       buffer_api.range_transform_int T a b n in_ out = Some (in_, out')
       /\ forall i raw, below n i -> in_ !! i = Some raw ->
            out' !! i = Some (a + raw mod (b - a))
            /\ a <= a + raw mod (b - a) < b)
  /\ (forall (in_ out : nat) (m : gmap nat Z),
        no_cross_alias (below n) in_ out ->
        (forall i, below n i ->
           is_Some (m !! (in_ + i)%nat) /\ is_Some (m !! (out + i)%nat)) ->
        exists m',
          usm_api.range_transform_int T a b n in_ out m = Some m'
          /\ forall i raw, below n i ->
               usm_load_int uint32_t m in_ i = Some raw ->
               usm_load_int T m' out i = Some (a + raw mod (b - a))
               /\ a <= a + raw mod (b - a) < b)
  /\ buffer_api.range_transform_int T 10 20 3 [5; 17; 33] [0; 0; 0]
     = Some ([5; 17; 33], [15; 17; 13]).
Proof.
  intros Ha Hb Hab Hn. split; [|split].
  - intros in_ out Hlin Hlout.
    destruct (buffer_pair_run (range_int_expr T a b)
                (buffer_api.range_transform_int_item T a b) n in_ out)
      as (out' & Hrun & _ & Hin & _);
      [apply buf_range_transform_int_item_pointwise|assumption..| |].
    { intros i x _ _. rewrite range_int_expr_spec by assumption. eauto. }
    exists out'. split; [exact Hrun|]. intros i raw Hi Hraw.
    rewrite (Hin i raw Hi Hraw), range_int_expr_spec by assumption.
    split; [reflexivity|]. now apply range_int_expr_bounds.
  - intros in_ out m Hal Hcells.
    destruct (usm_int_run T (range_int_expr T a b)
                (usm_api.range_transform_int_item T a b in_ out) n in_ out m)
      as (m' & Hrun & Hin & _);
      [apply usm_range_transform_int_item_pointwise|apply range_int_expr_val
      |assumption..| |].
    { intros i Hi. destruct (Hcells i Hi) as [[c Hc] Ho]. split; [exact Ho|].
      exists (to_uint32 c). unfold usm_load_int, usm_load. rewrite Hc.
      split; [reflexivity|].
      rewrite range_int_expr_spec by assumption. eauto. }
    exists m'. split; [exact Hrun|]. intros i raw Hi Hraw.
    rewrite (Hin i raw Hi Hraw), range_int_expr_spec by assumption.
    split; [reflexivity|]. now apply range_int_expr_bounds.
  - destruct T; reflexivity.
Qed.

Lemma range_transform_int_in_range_witness :
  exists out',
    buffer_api.range_transform_int int32_t (-7) 3 2 [4294967295; 12] [0; 0]
    = Some ([4294967295; 12], out')
    /\ forall i raw, below 2 i -> [4294967295; 12] !! i = Some raw ->
         out' !! i = Some (-7 + raw mod (3 - -7))
         /\ -7 <= -7 + raw mod (3 - -7) < 3.
Proof.
  assert (Ha : in_range int32_t (-7)) by (vm_compute; intuition discriminate).
  assert (Hb : in_range int32_t 3) by (vm_compute; intuition discriminate).
  assert (Hn : int64_count 2) by (vm_compute; intuition discriminate).
  exact (proj1 (range_transform_int_in_range int32_t (-7) 3 2
                  Ha Hb eq_refl Hn)
           [4294967295; 12] [0; 0]
           ltac:(vm_compute; discriminate) ltac:(vm_compute; discriminate)).
Defined.

(* ===================================================================== *)
(** * The Bernoulli transform *)
(* ===================================================================== *)

Lemma bernoulli_elem_val T p x v : bernoulli_elem p x = Some v -> in_range T v.
Proof. intros [= <-]. apply of_bool_range. Qed.

Lemma of_bool_indicator c : (of_bool c = 1 <-> c = true) /\ (of_bool c = 0 \/ of_bool c = 1).
Proof. destruct c; simpl; intuition discriminate. Qed.

(** C4. Whatever the probability [p] (so in particular for [p] in [0,1])
    and whatever the samples, for a count [n] within the buffers
    [sample_bernoulli_from_uniform] completes and output element [i] is 1
    if and only if input element [i] compares strictly below [p]; every
    output element written is 0 or 1. Buffer and USM variants, the latter
    for both output element types. *)
Theorem sample_bernoulli_from_uniform_is_indicator (p : spec_float) (n : Z) :
  int64_count n ->
  (forall (in_ : list spec_float) (out : list Z),
     n <= Z.of_nat (length in_) -> n <= Z.of_nat (length out) ->
     exists out',
       buffer_api.sample_bernoulli_from_uniform p n in_ out
       = Some (in_, out')
       /\ forall i x, below n i -> in_ !! i = Some x ->
            exists o, out' !! i = Some o
                      /\ (o = 1 <-> fp_lt x p = true) /\ (o = 0 \/ o = 1))
  /\ (forall (T : int_type) (in_ out : nat)
             (mf : gmap nat spec_float) (mi : gmap nat Z),
        (forall i, below n i ->
           is_Some (mf !! (in_ + i)%nat) /\ is_Some (mi !! (out + i)%nat)) ->
        exists mi',
          usm_api.sample_bernoulli_from_uniform p n in_ out mf mi
          = Some (mf, mi')
          /\ forall i x, below n i -> mf !! (in_ + i)%nat = Some x ->
               exists o, usm_load_int T mi' out i = Some o
                         /\ (o = 1 <-> fp_lt x p = true) /\ (o = 0 \/ o = 1)).
Proof.
  intros Hn. split.
  - intros in_ out Hlin Hlout.
    destruct (buffer_pair_run (bernoulli_elem p)
                (buffer_api.sample_bernoulli_from_uniform_item p) n in_ out)
      as (out' & Hrun & _ & Hin & _);
      [apply buf_sample_bernoulli_item_pointwise|assumption..| |].
    { intros i x _ _. unfold bernoulli_elem. eauto. }
    exists out'. split; [exact Hrun|]. intros i x Hi Hx.
    exists (of_bool (fp_lt x p)). split; [exact (Hin i x Hi Hx)|].
    apply of_bool_indicator.
  - intros T in_ out mf mi Hcells.
    destruct (usm_pair_run T (bernoulli_elem p)
                (usm_api.sample_bernoulli_from_uniform_item p in_ out)
                n in_ out mf mi)
      as (mi' & Hrun & Hin & _);
      [apply usm_sample_bernoulli_item_pointwise|apply bernoulli_elem_val
      |assumption| |].
    { intros i Hi. destruct (Hcells i Hi) as [[x Hx] Ho]. split; [exact Ho|].
      exists x. split; [exact Hx|]. unfold bernoulli_elem. eauto. }
    exists mi'. split; [exact Hrun|]. intros i x Hi Hx.
    exists (of_bool (fp_lt x p)). split; [exact (Hin i x Hi Hx)|].
    apply of_bool_indicator.
Qed.

(** The scenario of the specification, in binary32: [p = 0.3f] and the
    samples [0.1f], [0.5f], [0.29f]. *)
Lemma sample_bernoulli_from_uniform_is_indicator_witness :
  exists out',
    buffer_api.sample_bernoulli_from_uniform (fp_ratio float 3 10) 3
      [fp_ratio float 1 10; fp_ratio float 1 2; fp_ratio float 29 100]
      [7; 7; 7]
    = Some ([fp_ratio float 1 10; fp_ratio float 1 2; fp_ratio float 29 100],
            out')
    /\ forall i x, below 3 i ->
         [fp_ratio float 1 10; fp_ratio float 1 2; fp_ratio float 29 100] !! i
         = Some x ->
         exists o, out' !! i = Some o
                   /\ (o = 1 <-> fp_lt x (fp_ratio float 3 10) = true)
                   /\ (o = 0 \/ o = 1).
Proof.
  assert (Hn : int64_count 3) by (vm_compute; intuition discriminate).
  exact (proj1 (sample_bernoulli_from_uniform_is_indicator
                  (fp_ratio float 3 10) 3 Hn)
           [fp_ratio float 1 10; fp_ratio float 1 2; fp_ratio float 29 100]
           [7; 7; 7]
           ltac:(vm_compute; discriminate) ltac:(vm_compute; discriminate)).
Defined.

(** The outputs of that scenario are 1, 0, 1. *)
Lemma sample_bernoulli_scenario :
  buffer_api.sample_bernoulli_from_uniform (fp_ratio float 3 10) 3
    [fp_ratio float 1 10; fp_ratio float 1 2; fp_ratio float 29 100]
    [7; 7; 7]
  = Some ([fp_ratio float 1 10; fp_ratio float 1 2; fp_ratio float 29 100],
          [1; 0; 1]).
Proof. vm_compute. reflexivity. Qed.

(* ===================================================================== *)
(** * Floating-point comparison *)
(* ===================================================================== *)

Lemma SFcompare_swap x y :
  SFcompare y x = CompOpp <$> SFcompare x y.
Proof.
  destruct x as [sx|sx| |sx mx ex], y as [sy|sy| |sy my ey]; simpl;
    try reflexivity;
    try (destruct sx; reflexivity); try (destruct sy; reflexivity);
    try (destruct sx, sy; reflexivity).
  pose proof (Pos.compare_cont_antisym mx my Eq) as H. simpl in H.
  destruct sx, sy; simpl; try reflexivity;
    rewrite (Z.compare_antisym ex ey);
    destruct (ex ?= ey); simpl; try reflexivity;
    rewrite <- H; now destruct (Pos.compare_cont Eq mx my).
Qed.

Lemma SFcompare_refl x : fp_is_nan x = false -> SFcompare x x = Some Eq.
Proof.
  destruct x as [sx|sx| |sx mx ex]; simpl; try reflexivity; try discriminate;
    intros _.
  - now destruct sx.
  - rewrite Z.compare_refl.
    change (Pos.compare_cont Eq mx mx) with (mx ?= mx)%positive.
    rewrite Pos.compare_refl. now destruct sx.
Qed.

Lemma SFcompare_nan_l x y : fp_is_nan x = true -> SFcompare x y = None.
Proof. destruct x; try discriminate. reflexivity. Qed.

Lemma SFcompare_nan_r x y : fp_is_nan y = true -> SFcompare x y = None.
Proof. destruct y; try discriminate. now destruct x. Qed.

Lemma SFcompare_defined x y :
  fp_is_nan x = false -> fp_is_nan y = false -> is_Some (SFcompare x y).
Proof. destruct x, y; simpl; try discriminate; eauto. Qed.

(** An ordered pair has no NaN. *)
Lemma fp_lt_not_nan x y :
  fp_lt x y = true -> fp_is_nan x = false /\ fp_is_nan y = false.
Proof.
  unfold fp_lt, SFltb.
  destruct (fp_is_nan x) eqn:Ex; [now rewrite SFcompare_nan_l|].
  destruct (fp_is_nan y) eqn:Ey; [now rewrite SFcompare_nan_r|]. tauto.
Qed.

Lemma fp_le_refl x : fp_is_nan x = false -> fp_le x x = true.
Proof. intros H. unfold fp_le, SFleb. now rewrite SFcompare_refl. Qed.

Lemma fp_lt_le x y : fp_lt x y = true -> fp_le x y = true.
Proof.
  unfold fp_lt, fp_le, SFltb, SFleb.
  now destruct (SFcompare x y) as [[]|].
Qed.

Lemma fp_lt_irrefl x : fp_lt x x = false.
Proof.
  unfold fp_lt, SFltb. destruct (fp_is_nan x) eqn:E.
  - now rewrite SFcompare_nan_l.
  - now rewrite SFcompare_refl.
Qed.

(** Totality on non-NaN values: what is not below is at least. *)
Lemma fp_not_lt_le x y :
  fp_is_nan x = false -> fp_is_nan y = false ->
  fp_lt x y = false -> fp_le y x = true.
Proof.
  intros Hx Hy. unfold fp_lt, fp_le, SFltb, SFleb.
  rewrite (SFcompare_swap x y).
  destruct (SFcompare_defined x y Hx Hy) as [c ->]. simpl.
  now destruct c.
Qed.

Lemma clamp_nan a b y : fp_is_nan y = true -> clamp a b y = y.
Proof.
  intros H. unfold clamp, fp_lt, fp_gt, SFltb.
  now rewrite SFcompare_nan_l, SFcompare_nan_r.
Qed.

(** The clamp puts every value that is not a NaN into the closed interval
    of ordered bounds. *)
Lemma clamp_closed a b y :
  fp_lt a b = true -> fp_is_nan y = false ->
  fp_le a (clamp a b y) = true /\ fp_le (clamp a b y) b = true.
Proof.
  intros Hab Hy. destruct (fp_lt_not_nan a b Hab) as [Ha Hb].
  destruct (clamp_cases a b y) as [[-> _]|[[-> _]|[-> [H1 H2]]]].
  - split; [now apply fp_le_refl | now apply fp_lt_le].
  - split; [now apply fp_lt_le | now apply fp_le_refl].
  - split; now apply fp_not_lt_le.
Qed.

(* ===================================================================== *)
(** * Rounding in a binary format *)
(* ===================================================================== *)

(** What [SFadd], [SFsub] and [SFmul] return on finite operands, for any
    format with [1 < prec < emax]: a finite float nearest to the exact
    result, or an infinity when the exact result is beyond every finite
    float. From this, the bounds of the scaled sample. *)
Section Rounding.

Variables prec emax : Z.
Hypothesis prec_gt_1 : 1 < prec.
Hypothesis prec_lt_emax : prec < emax.

Local Abbreviation emin := (emin prec emax).
Local Abbreviation fexp := (fexp prec emax).
Local Abbreviation sf_exp0 := (sf_exp0 prec emax).
Local Abbreviation sf_scaled := (sf_scaled prec emax).
Local Abbreviation sf_value := (sf_value prec emax).
Local Abbreviation sf_finite := (sf_finite prec emax).
Local Abbreviation rexp := (rexp prec emax).
Local Abbreviation rquo := (rquo prec emax).
Local Abbreviation rrem := (rrem prec emax).
Local Abbreviation rmant := (rmant prec emax).
Local Abbreviation mk_float := (mk_float prec emax).
Local Abbreviation sf_nearest := (sf_nearest prec emax).
Local Abbreviation sf_overflow := (sf_overflow prec emax).
Local Abbreviation sf_rounds := (sf_rounds prec emax).
Local Abbreviation sf_close_below := (sf_close_below prec emax).

Lemma emin_neg : emin <= -2.
Proof. unfold SpecFloat.emin. lia. Qed.

Lemma fexp_ge_emin x : emin <= fexp x.
Proof. unfold SpecFloat.fexp. lia. Qed.

(** ** Number of digits *)

Lemma digits2_pos_size m : digits2_pos m = Pos.size m.
Proof. induction m; simpl; now rewrite ?IHm. Qed.

Lemma digits_bounds m :
  2 ^ (Zpos (digits2_pos m) - 1) <= Zpos m < 2 ^ Zpos (digits2_pos m).
Proof.
  rewrite digits2_pos_size.
  pose proof (Pos.size_gt m) as Hgt. pose proof (Pos.size_le m) as Hle.
  apply Pos2Z.pos_lt_pos in Hgt. apply Pos2Z.pos_le_pos in Hle.
  rewrite Pos2Z.inj_pow in Hgt, Hle.
  change (Z.pos m~0) with (2 * Z.pos m) in Hle.
  change (2 * 1) with 2 in Hle.
  split; [|exact Hgt].
  assert (H : 2 ^ Z.pos (Pos.size m) = 2 * 2 ^ (Z.pos (Pos.size m) - 1)).
  { rewrite <- Z.pow_succ_r by lia. f_equal. lia. }
  lia.
Qed.

Lemma digits_pos m : 0 < Zpos (digits2_pos m).
Proof. lia. Qed.

Lemma digits_unique m d :
  2 ^ (d - 1) <= Zpos m < 2 ^ d -> Zpos (digits2_pos m) = d.
Proof.
  intros [H1 H2]. pose proof (digits_bounds m) as [B1 B2].
  set (dm := Zpos (digits2_pos m)) in *.
  assert (0 < d).
  { destruct (Z_lt_le_dec 0 d); [assumption|].
    assert (2 ^ d <= 1).
    { destruct (Z.eq_dec d 0) as [->|]; [simpl; lia|].
      rewrite Z.pow_neg_r by lia. lia. }
    lia. }
  assert (0 < dm) by (unfold dm; lia).
  destruct (Z.lt_trichotomy dm d) as [Hlt|[Heq|Hgt]]; [|assumption|].
  - assert (2 ^ dm <= 2 ^ (d - 1)) by (apply Z.pow_le_mono_r; lia). lia.
  - assert (2 ^ d <= 2 ^ (dm - 1)) by (apply Z.pow_le_mono_r; lia). lia.
Qed.

(** ** Canonical floats *)

Lemma bounded_spec m e :
  bounded prec emax m e = true <->
  fexp (Zpos (digits2_pos m) + e) = e /\ e <= emax - prec.
Proof.
  unfold bounded, canonical_mantissa.
  rewrite andb_true_iff, Z.eqb_eq, Z.leb_le. reflexivity.
Qed.

Lemma bounded_facts m e :
  bounded prec emax m e = true ->
  emin <= e <= emax - prec /\ Zpos (digits2_pos m) <= prec
  /\ (emin < e -> Zpos (digits2_pos m) = prec).
Proof.
  rewrite bounded_spec. unfold SpecFloat.fexp. lia.
Qed.

Lemma pow2_pos x : 0 <= x -> 0 < 2 ^ x.
Proof. intros. apply Z.pow_pos_nonneg; lia. Qed.

Lemma pow2_split a b : 0 <= a -> 0 <= b -> 2 ^ (a + b) = 2 ^ a * 2 ^ b.
Proof. intros. now apply Z.pow_add_r. Qed.

Lemma pow2_succ x : 0 <= x -> 2 ^ (x + 1) = 2 * 2 ^ x.
Proof.
  intros. rewrite pow2_split by lia. change (2 ^ 1) with 2. lia.
Qed.

Lemma sf_scaled_pos m e : 0 < m -> sf_exp0 <= e -> 0 < sf_scaled m e.
Proof.
  intros Hm He. unfold sf_scaled. apply Z.mul_pos_pos; [assumption|].
  apply pow2_pos. lia.
Qed.

Lemma sf_scaled_lt_pow m e d :
  0 <= d -> sf_exp0 <= e -> m < 2 ^ d ->
  sf_scaled m e < 2 ^ (d + (e - sf_exp0)).
Proof.
  intros Hd He Hm. unfold sf_scaled. rewrite pow2_split by lia.
  apply Z.mul_lt_mono_pos_r; [apply pow2_pos; lia|assumption].
Qed.

Lemma sf_scaled_ge_pow m e d :
  0 <= d -> sf_exp0 <= e -> 2 ^ d <= m ->
  2 ^ (d + (e - sf_exp0)) <= sf_scaled m e.
Proof.
  intros Hd He Hm. unfold sf_scaled. rewrite pow2_split by lia.
  apply Z.mul_le_mono_nonneg_r; [apply Z.lt_le_incl, pow2_pos; lia|assumption].
Qed.

Lemma bounded_exp_ge m e : bounded prec emax m e = true -> sf_exp0 <= e.
Proof. intros H%bounded_facts. pose proof emin_neg. unfold sf_exp0. lia. Qed.

(** On bounded floats the exponent decides the order first. *)
Lemma bounded_lt_exp m1 e1 m2 e2 :
  bounded prec emax m1 e1 = true -> bounded prec emax m2 e2 = true ->
  e1 < e2 -> sf_scaled (Zpos m1) e1 < sf_scaled (Zpos m2) e2.
Proof.
  intros B1 B2 Hlt.
  pose proof (bounded_exp_ge _ _ B1). pose proof (bounded_exp_ge _ _ B2).
  apply bounded_facts in B1 as (He1 & Hd1 & _).
  apply bounded_facts in B2 as (He2 & _ & Hd2).
  specialize (Hd2 ltac:(lia)).
  pose proof (digits_bounds m1) as [_ U1].
  pose proof (digits_bounds m2) as [L2 _].
  rewrite Hd2 in L2.
  assert (Zpos m1 < 2 ^ prec).
  { eapply Z.lt_le_trans; [exact U1|]. apply Z.pow_le_mono_r; lia. }
  eapply Z.lt_le_trans; [apply (sf_scaled_lt_pow _ _ prec); try lia|].
  eapply Z.le_trans; [|apply (sf_scaled_ge_pow _ _ (prec - 1)); try lia].
  apply Z.pow_le_mono_r; lia.
Qed.

Lemma sf_scaled_compare_same_exp m1 m2 e :
  sf_exp0 <= e -> (sf_scaled m1 e ?= sf_scaled m2 e) = (m1 ?= m2).
Proof.
  intros He. unfold sf_scaled. symmetry. apply Zmult_compare_compat_r.
  apply Z.lt_gt, pow2_pos. lia.
Qed.

Lemma sf_scaled_compare m1 e1 m2 e2 :
  bounded prec emax m1 e1 = true -> bounded prec emax m2 e2 = true ->
  (sf_scaled (Zpos m1) e1 ?= sf_scaled (Zpos m2) e2)
  = match e1 ?= e2 with
    | Lt => Lt
    | Gt => Gt
    | Eq => Pos.compare_cont Eq m1 m2
    end.
Proof.
  intros B1 B2. destruct (Z.compare_spec e1 e2) as [->|Hlt|Hgt].
  - rewrite sf_scaled_compare_same_exp by (eapply bounded_exp_ge; eassumption).
    reflexivity.
  - apply Z.compare_lt_iff. now apply bounded_lt_exp.
  - apply Z.compare_gt_iff. now apply bounded_lt_exp.
Qed.

Lemma sf_scaled_bounded_pos m e :
  bounded prec emax m e = true -> 0 < sf_scaled (Zpos m) e.
Proof.
  intros B. apply sf_scaled_pos; [lia|]. eapply bounded_exp_ge; eassumption.
Qed.

(** The comparison of the format is the comparison of the values. *)
Theorem SFcompare_value x y :
  sf_finite x -> sf_finite y -> SFcompare x y = Some (sf_value x ?= sf_value y).
Proof.
  destruct x as [sx|sx| |sx mx ex], y as [sy|sy| |sy my ey];
    unfold sf_finite, SFcompare, sf_value; try contradiction; intros Fx Fy.
  - reflexivity.
  - pose proof (sf_scaled_bounded_pos _ _ Fy). destruct sy; f_equal; symmetry.
    + apply Z.compare_gt_iff. lia.
    + apply Z.compare_lt_iff. lia.
  - pose proof (sf_scaled_bounded_pos _ _ Fx). destruct sx; f_equal; symmetry.
    + apply Z.compare_lt_iff. lia.
    + apply Z.compare_gt_iff. lia.
  - pose proof (sf_scaled_bounded_pos _ _ Fx).
    pose proof (sf_scaled_bounded_pos _ _ Fy).
    destruct sx, sy; f_equal.
    + rewrite Z.compare_opp,
        (Z.compare_antisym (sf_scaled (Zpos mx) ex) (sf_scaled (Zpos my) ey)),
        (sf_scaled_compare _ _ _ _ Fx Fy).
      now destruct (ex ?= ey).
    + symmetry. apply Z.compare_lt_iff. lia.
    + symmetry. apply Z.compare_gt_iff. lia.
    + now rewrite (sf_scaled_compare _ _ _ _ Fx Fy).
Qed.

(** ** Right shifts *)

Lemma iter_pos_nat {A} (f : A -> A) n x :
  SpecFloat.iter_pos f n x = Nat.iter (Pos.to_nat n) f x.
Proof.
  revert x. induction n as [n IH|n IH|]; intros x.
  - rewrite Pos2Nat.inj_xI. cbn [SpecFloat.iter_pos]. rewrite !IH.
    replace (S (2 * Pos.to_nat n))%nat
      with (Pos.to_nat n + (Pos.to_nat n + 1))%nat by lia.
    rewrite !Nat.iter_add. simpl. reflexivity.
  - rewrite Pos2Nat.inj_xO. cbn [SpecFloat.iter_pos]. rewrite !IH.
    replace (2 * Pos.to_nat n)%nat
      with (Pos.to_nat n + Pos.to_nat n)%nat by lia.
    now rewrite Nat.iter_add.
  - reflexivity.
Qed.

Lemma shr_1_spec m r s :
  0 <= m ->
  shr_1 (Build_shr_record m r s)
  = Build_shr_record (m / 2) (Z.odd m) (r || s).
Proof.
  intros Hm. destruct m as [|p|p]; [reflexivity| |lia].
  destruct p as [p|p|]; simpl shr_1; f_equal.
  - change (Z.pos p~1) with (2 * Z.pos p + 1).
    rewrite Z.mul_comm, Z.div_add_l by lia. now rewrite Z.div_small by lia.
  - change (Z.pos p~0) with (2 * Z.pos p).
    now rewrite Z.mul_comm, Z.div_mul by lia.
Qed.

Lemma div_mod_2P m P :
  0 < P ->
  m / (2 * P) = (m / P) / 2
  /\ m mod (2 * P) = P * ((m / P) mod 2) + m mod P.
Proof.
  intros HP. split.
  - rewrite Z.div_div by lia. f_equal. lia.
  - rewrite (Z.mul_comm 2 P), Z.rem_mul_r by lia. lia.
Qed.

(** [n] right shifts divide the significand by [2^n]; the round bit and
    the sticky bit tell where the remainder lies. *)
Lemma shr_iter_spec m n :
  0 <= m ->
  let rec := Nat.iter n shr_1 (Build_shr_record m false false) in
  let P := 2 ^ Z.of_nat n in
  shr_m rec = m / P
  /\ (shr_r rec = true <-> P <= 2 * (m mod P))
  /\ (shr_s rec = true <-> (2 * (m mod P)) mod P <> 0).
Proof.
  intros Hm. induction n as [|n IH].
  - simpl. change (2 ^ Z.of_nat 0) with 1.
    rewrite Z.div_1_r, !Z.mod_1_r.
    repeat split; try discriminate; try lia.
  - cbv zeta in *. rewrite Nat.iter_succ.
    destruct (Nat.iter n shr_1 (Build_shr_record m false false))
      as [mn rn sn]. simpl in IH. destruct IH as (Em & Er & Es).
    assert (HP : 0 < 2 ^ Z.of_nat n) by (apply pow2_pos; lia).
    rewrite Nat2Z.inj_succ, Z.pow_succ_r by lia.
    set (P := 2 ^ Z.of_nat n) in *.
    assert (Hmn : 0 <= mn) by (subst mn; apply Z.div_pos; lia).
    rewrite (shr_1_spec mn rn sn Hmn). simpl.
    destruct (div_mod_2P m P HP) as [Ed Emod].
    pose proof (Z.mod_pos_bound m P HP) as Hrem.
    pose proof (Zmod_odd mn) as Hodd.
    rewrite Ed, Emod, <- Em.
    split; [reflexivity|]. rewrite Hodd. split.
    + destruct (Z.odd mn); split; intros; try discriminate;
        try reflexivity; nia.
    + rewrite orb_true_iff, Er, Es.
      assert (Hm2 : forall b, (b = 0 \/ b = 1) ->
                ((2 * (P * b + m mod P)) mod (2 * P) <> 0 <-> m mod P <> 0)).
      { intros b [-> | ->].
        - rewrite Z.mul_0_r, Z.add_0_l.
          rewrite Z.mul_mod_distr_l by lia.
          rewrite (Z.mod_small (m mod P) P) by lia. lia.
        - replace (2 * (P * 1 + m mod P)) with (2 * (m mod P) + 1 * (2 * P))
            by lia.
          rewrite Z.mod_add by lia.
          rewrite Z.mul_mod_distr_l by lia.
          rewrite (Z.mod_small (m mod P) P) by lia. lia. }
      rewrite (Hm2 (if Z.odd mn then 1 else 0))
        by (destruct (Z.odd mn); auto).
      destruct (Z_lt_le_dec (2 * (m mod P)) P) as [Hlt|Hge].
      * rewrite (Z.mod_small (2 * (m mod P)) P) by lia. lia.
      * split; [intros _|auto]. lia.
Qed.

Lemma loc_of_shr_iter m n :
  0 <= m -> (0 < n)%nat ->
  let rec := Nat.iter n shr_1 (Build_shr_record m false false) in
  shr_m rec = m / 2 ^ Z.of_nat n
  /\ loc_of_shr_record rec = rem_loc (m mod 2 ^ Z.of_nat n) (Z.of_nat n).
Proof.
  intros Hm Hn. destruct (shr_iter_spec m n Hm) as (Em & Er & Es).
  cbv zeta in *.
  destruct (Nat.iter n shr_1 (Build_shr_record m false false)) as [mn rn sn].
  simpl in *. split; [exact Em|].
  assert (HP : 0 < 2 ^ Z.of_nat n) by (apply pow2_pos; lia).
  set (P := 2 ^ Z.of_nat n) in *.
  pose proof (Z.mod_pos_bound m P HP) as Hrem.
  set (rem := m mod P) in *.
  unfold rem_loc.
  assert (Hmod : (2 * rem) mod P
                 = if 2 * rem <? P then 2 * rem else 2 * rem - P).
  { destruct (Z.ltb_spec (2 * rem) P).
    - apply Z.mod_small. lia.
    - replace (2 * rem) with ((2 * rem - P) + 1 * P) at 1 by lia.
      rewrite Z.mod_add by lia. apply Z.mod_small. lia. }
  rewrite Hmod in Es.
  assert (Hr : if rn then P <= 2 * rem else ~ P <= 2 * rem).
  { destruct rn; [now apply Er|]. intros X. apply Er in X. discriminate. }
  assert (Hs : if sn then (if 2 * rem <? P then 2 * rem else 2 * rem - P) <> 0
               else (if 2 * rem <? P then 2 * rem else 2 * rem - P) = 0).
  { destruct sn; [now apply Es|].
    destruct (Z.eq_dec (if 2 * rem <? P then 2 * rem else 2 * rem - P) 0)
      as [|X]; [assumption|]. apply Es in X. discriminate. }
  clear Er Es. change (2 ^ Z.of_nat n) with P. revert Hs.
  destruct (Z.ltb_spec (2 * rem) P) as [L|G]; intros Hs;
    destruct (Z.eqb_spec rem 0) as [Z0|N0];
    destruct (Z.compare_spec (2 * rem) P) as [C|C|C];
    destruct rn, sn; simpl; try reflexivity; lia.
Qed.

Lemma shr_exact_spec m e k :
  0 <= m ->
  (k <= 0 ->
   shr (Build_shr_record m false false) e k
   = (Build_shr_record m false false, e))
  /\ (0 < k ->
      exists rec,
        shr (Build_shr_record m false false) e k = (rec, e + k)
        /\ shr_m rec = m / 2 ^ k
        /\ loc_of_shr_record rec = rem_loc (m mod 2 ^ k) k).
Proof.
  intros Hm. split; intros Hk.
  - destruct k; try reflexivity. lia.
  - destruct k as [|p|p]; try lia. unfold shr. rewrite iter_pos_nat.
    destruct (loc_of_shr_iter m (Pos.to_nat p) Hm (Pos2Nat.is_pos p))
      as [E1 E2].
    rewrite positive_nat_Z in E1, E2. eauto.
Qed.

Lemma Zdigits2_pos m : Zdigits2 (Zpos m) = Zpos (digits2_pos m).
Proof. reflexivity. Qed.

Lemma Zdigits2_unique m d :
  0 < m -> 2 ^ (d - 1) <= m < 2 ^ d -> Zdigits2 m = d.
Proof.
  intros Hm H. destruct m as [|p|p]; try lia.
  rewrite Zdigits2_pos. now apply digits_unique.
Qed.

Lemma Zdigits2_bounds m :
  0 < m -> 2 ^ (Zdigits2 m - 1) <= m < 2 ^ Zdigits2 m.
Proof.
  intros Hm. destruct m as [|p|p]; try lia. apply digits_bounds.
Qed.

Lemma Zdigits2_gt_0 m : 0 < m -> 0 < Zdigits2 m.
Proof. intros Hm. destruct m as [|p|p]; try lia. simpl. lia. Qed.

(** Rounding to nearest, ties to even, keeps the quotient or adds one to
    it, according to the side of the middle the remainder lies on. *)
Lemma rne_spec m1 rem k :
  0 < k -> 0 <= rem < 2 ^ k ->
  let m2 := round_nearest_even m1 (rem_loc rem k) in
  (m2 = m1 \/ m2 = m1 + 1)
  /\ (m2 = m1 -> 2 * rem <= 2 ^ k)
  /\ (m2 = m1 + 1 -> 2 ^ k <= 2 * rem)
  /\ (rem = 0 -> m2 = m1).
Proof.
  intros Hk Hrem. unfold rem_loc, round_nearest_even.
  destruct (Z.eqb_spec rem 0) as [->|N].
  - repeat split; auto; intros; lia.
  - destruct (Z.compare_spec (2 * rem) (2 ^ k)) as [E|L|G].
    + destruct (Z.even m1); repeat split; auto; intros; lia.
    + repeat split; auto; intros; lia.
    + repeat split; auto; intros; lia.
Qed.

(** ** The rounded mantissa and exponent *)

Lemma rexp_ge_emin m e : emin <= rexp m e.
Proof. apply fexp_ge_emin. Qed.

Lemma rquo_bounds m e :
  e <= rexp m e ->
  0 <= rquo m e < 2 ^ prec
  /\ (emin < rexp m e -> 2 ^ (prec - 1) <= rquo m e).
Proof.
  intros Hk. unfold rquo.
  pose proof (digits_bounds m) as [L U].
  set (d := Zpos (digits2_pos m)) in *.
  assert (Hd : 0 < d) by (unfold d; lia).
  set (k := rexp m e - e).
  assert (Hk0 : 0 <= k) by (unfold k; lia).
  assert (HP : 0 < 2 ^ k) by now apply pow2_pos.
  assert (Hdk : d - k <= prec).
  { unfold k, rexp, SpecFloat.fexp. fold d. lia. }
  split; [split|].
  - apply Z.div_pos; lia.
  - apply Z.div_lt_upper_bound; [assumption|].
    destruct (Z_lt_le_dec (d - k) 0) as [Hneg|Hnn].
    + assert (2 ^ d <= 2 ^ k) by (apply Z.pow_le_mono_r; lia).
      assert (0 < 2 ^ prec) by (apply pow2_pos; lia). nia.
    + assert (2 ^ d = 2 ^ k * 2 ^ (d - k)).
      { rewrite <- pow2_split by lia. f_equal. lia. }
      assert (2 ^ (d - k) <= 2 ^ prec) by (apply Z.pow_le_mono_r; lia).
      nia.
  - intros He. apply Z.div_le_lower_bound; [assumption|].
    assert (Ek : k = d - prec).
    { unfold k. unfold rexp, SpecFloat.fexp in *. fold d in He |- *. lia. }
    assert (2 ^ (d - 1) = 2 ^ k * 2 ^ (prec - 1)).
    { rewrite <- pow2_split by lia. f_equal. lia. }
    lia.
Qed.

Lemma rrem_bounds m e :
  e <= rexp m e -> 0 <= rrem m e < 2 ^ (rexp m e - e).
Proof.
  intros Hk. unfold rrem. apply Z.mod_pos_bound, pow2_pos. lia.
Qed.

Lemma rquo_rrem m e :
  e <= rexp m e ->
  Zpos m = rquo m e * 2 ^ (rexp m e - e) + rrem m e.
Proof.
  intros Hk. unfold rquo, rrem.
  rewrite Z.mul_comm. apply Z.div_mod.
  pose proof (pow2_pos (rexp m e - e)). lia.
Qed.

Lemma rmant_cases m e :
  e <= rexp m e ->
  (rmant m e = rquo m e \/ rmant m e = rquo m e + 1)
  /\ (rmant m e = rquo m e -> 2 * rrem m e <= 2 ^ (rexp m e - e))
  /\ (rmant m e = rquo m e + 1 -> 2 ^ (rexp m e - e) <= 2 * rrem m e)
  /\ (rrem m e = 0 -> rmant m e = rquo m e).
Proof.
  intros Hk. unfold rmant.
  destruct (Z.ltb_spec 0 (rexp m e - e)) as [Hpos|Hnp].
  - apply rne_spec; [assumption|now apply rrem_bounds].
  - assert (E : rexp m e - e = 0) by lia.
    unfold rquo, rrem. rewrite E. change (2 ^ 0) with 1.
    rewrite Z.div_1_r, Z.mod_1_r. repeat split; auto; intros; lia.
Qed.

Lemma rmant_bounds m e :
  e <= rexp m e ->
  0 <= rmant m e <= 2 ^ prec
  /\ (emin < rexp m e -> 2 ^ (prec - 1) <= rmant m e).
Proof.
  intros Hk. destruct (rquo_bounds m e Hk) as [B1 B2].
  destruct (rmant_cases m e Hk) as ([E|E] & _); rewrite E; split; try lia;
    intros H; specialize (B2 H); lia.
Qed.

(** The two passes of [binary_round_aux]: the first shifts to the rounded
    exponent and rounds the significand, the second renormalises a
    significand that reached [2^prec]. *)
Lemma first_pass m e :
  e <= rexp m e ->
  exists rec,
    shr_fexp prec emax (Zpos m) e loc_Exact = (rec, rexp m e)
    /\ round_nearest_even (shr_m rec) (loc_of_shr_record rec) = rmant m e.
Proof.
  intros Hk. unfold shr_fexp. rewrite Zdigits2_pos. fold (rexp m e).
  cbn [shr_record_of_loc].
  destruct (shr_exact_spec (Zpos m) e (rexp m e - e) ltac:(lia)) as [S0 S1].
  unfold rmant. destruct (Z.ltb_spec 0 (rexp m e - e)) as [Hpos|Hnp].
  - destruct (S1 Hpos) as (rec & E & Em & El). exists rec.
    rewrite E, Em, El. split; [f_equal; lia|reflexivity].
  - rewrite (S0 Hnp). eexists. split; [f_equal; lia|reflexivity].
Qed.

Lemma second_pass m2 e' :
  emin <= e' -> 0 <= m2 <= 2 ^ prec -> (emin < e' -> 2 ^ (prec - 1) <= m2) ->
  exists rec e'',
    shr_fexp prec emax m2 e' loc_Exact = (rec, e'')
    /\ ((m2 = 2 ^ prec /\ shr_m rec = 2 ^ (prec - 1) /\ e'' = e' + 1)
        \/ (m2 < 2 ^ prec /\ shr_m rec = m2 /\ e'' = e')).
Proof.
  intros He [H0 Hle] Hn. unfold shr_fexp. cbn [shr_record_of_loc].
  assert (Hp : 0 < 2 ^ prec) by (apply pow2_pos; lia).
  destruct (Z.eq_dec m2 (2 ^ prec)) as [E|N].
  - assert (Hd : Zdigits2 m2 = prec + 1).
    { apply Zdigits2_unique; [lia|]. rewrite E.
      replace (prec + 1 - 1) with prec by lia.
      rewrite pow2_succ by lia. lia. }
    rewrite Hd.
    assert (Hk : fexp (prec + 1 + e') - e' = 1)
      by (unfold SpecFloat.fexp; lia).
    rewrite Hk.
    destruct (shr_exact_spec m2 e' 1 H0) as [_ S1].
    destruct (S1 ltac:(lia)) as (rec & Es & Em & _).
    exists rec, (e' + 1). split; [exact Es|]. left.
    split; [exact E|]. split; [|reflexivity].
    rewrite Em, E. change (2 ^ 1) with 2.
    replace prec with ((prec - 1) + 1) at 1 by lia.
    rewrite pow2_succ by lia. rewrite Z.mul_comm, Z.div_mul by lia.
    reflexivity.
  - assert (Hk : fexp (Zdigits2 m2 + e') - e' <= 0).
    { destruct (Z.eq_dec m2 0) as [->|Nz].
      - simpl. unfold SpecFloat.fexp. lia.
      - pose proof (Zdigits2_bounds m2 ltac:(lia)) as [L U].
        assert (Zdigits2 m2 <= prec).
        { destruct (Z_lt_le_dec prec (Zdigits2 m2)); [|assumption].
          assert (2 ^ prec <= 2 ^ (Zdigits2 m2 - 1))
            by (apply Z.pow_le_mono_r; lia). lia. }
        unfold SpecFloat.fexp. lia. }
    destruct (shr_exact_spec m2 e' (fexp (Zdigits2 m2 + e') - e') H0)
      as [S0 _].
    rewrite (S0 Hk). eexists _, _. split; [reflexivity|]. right.
    split; [lia|]. split; reflexivity.
Qed.

(** [binary_round_aux] in closed form. *)
Theorem binary_round_aux_eq s m e :
  e <= rexp m e ->
  binary_round_aux prec emax s (Zpos m) e loc_Exact
  = mk_float s (rmant m e) (rexp m e).
Proof.
  intros Hk. unfold binary_round_aux.
  destruct (first_pass m e Hk) as (rec & -> & ->).
  destruct (rmant_bounds m e Hk) as [B1 B2].
  destruct (second_pass (rmant m e) (rexp m e) (rexp_ge_emin m e) B1 B2)
    as (rec2 & e'' & -> & [(E & Em & ->)|(L & Em & ->)]); rewrite Em.
  - unfold mk_float. rewrite E.
    assert (Hp : 0 < 2 ^ prec) by (apply pow2_pos; lia).
    assert (Hp1 : 0 < 2 ^ (prec - 1)) by (apply pow2_pos; lia).
    destruct (Z.eqb_spec (2 ^ prec) 0); [lia|]. rewrite Z.eqb_refl.
    destruct (2 ^ (prec - 1)) as [|q|q] eqn:Eq; try lia. reflexivity.
  - unfold mk_float.
    destruct (Z.eqb_spec (rmant m e) 0) as [->|Nz]; [reflexivity|].
    destruct (Z.eqb_spec (rmant m e) (2 ^ prec)); [lia|].
    destruct (rmant m e) as [|q|q]; try lia. reflexivity.
Qed.

(** ** What the rounded float is worth *)

Lemma Z_to_pos_id z : 0 < z -> Zpos (Z.to_pos z) = z.
Proof. intros. now apply Z2Pos.id. Qed.

Lemma bounded_intro m e :
  emin <= e <= emax - prec -> 0 < m < 2 ^ prec ->
  (emin < e -> 2 ^ (prec - 1) <= m) ->
  bounded prec emax (Z.to_pos m) e = true.
Proof.
  intros He Hm Hn. apply bounded_spec. split; [|lia].
  pose proof (digits_bounds (Z.to_pos m)) as [L U].
  rewrite Z_to_pos_id in L, U by lia.
  set (d := Zpos (digits2_pos (Z.to_pos m))) in *.
  assert (Hd0 : 0 < d) by (unfold d; lia).
  assert (Hd : d <= prec).
  { destruct (Z_lt_le_dec prec d); [|assumption].
    assert (2 ^ prec <= 2 ^ (d - 1)) by (apply Z.pow_le_mono_r; lia). lia. }
  unfold SpecFloat.fexp.
  destruct (Z.eq_dec e emin) as [->|Ne]; [lia|].
  specialize (Hn ltac:(lia)).
  assert (prec <= d).
  { destruct (Z_lt_le_dec d prec); [|assumption].
    assert (2 ^ d <= 2 ^ (prec - 1)) by (apply Z.pow_le_mono_r; lia). lia. }
  lia.
Qed.

(** [mk_float] is worth its significand at its exponent, unless that is
    beyond the largest finite float. *)
Lemma mk_float_spec s m2 e' :
  emin <= e' -> 0 <= m2 <= 2 ^ prec -> (emin < e' -> 2 ^ (prec - 1) <= m2) ->
  let R := mk_float s m2 e' in
  (sf_finite R
   /\ sf_value R = (if s then - (m2 * 2 ^ (e' - sf_exp0))
                   else m2 * 2 ^ (e' - sf_exp0)))
  \/ (R = S754_infinity s /\ 2 ^ (emax - sf_exp0) <= m2 * 2 ^ (e' - sf_exp0)).
Proof.
  intros He [H0 Hle] Hn. pose proof emin_neg as Hemin.
  assert (Hp : 0 < 2 ^ prec) by (apply pow2_pos; lia).
  assert (Hp1 : 0 < 2 ^ (prec - 1)) by (apply pow2_pos; lia).
  assert (Hpp : 2 ^ prec = 2 * 2 ^ (prec - 1)).
  { rewrite <- pow2_succ by lia. f_equal. lia. }
  assert (HE : 0 <= e' - sf_exp0) by (unfold sf_exp0; lia).
  unfold mk_float.
  destruct (Z.eqb_spec m2 0) as [->|Nz].
  - left. split; [exact I|]. simpl. now destruct s.
  - destruct (Z.eqb_spec m2 (2 ^ prec)) as [->|Np].
    + destruct (Z.leb_spec (e' + 1) (emax - prec)) as [Hb|Ho].
      * left. split.
        -- simpl. apply bounded_intro; lia.
        -- unfold sf_value, sf_scaled. rewrite Z_to_pos_id by lia.
           replace (e' + 1 - sf_exp0) with ((e' - sf_exp0) + 1) by lia.
           rewrite pow2_succ by lia. rewrite Hpp.
           destruct s; ring.
      * right. split; [reflexivity|].
        rewrite <- pow2_split by lia. apply Z.pow_le_mono_r; lia.
    + destruct (Z.leb_spec e' (emax - prec)) as [Hb|Ho].
      * left. split.
        -- simpl. apply bounded_intro; lia.
        -- unfold sf_value, sf_scaled. rewrite Z_to_pos_id by lia. reflexivity.
      * right. split; [reflexivity|].
        specialize (Hn ltac:(lia)).
        eapply Z.le_trans;
          [|apply Z.mul_le_mono_nonneg_r; [apply Z.lt_le_incl, pow2_pos; lia
                                          |exact Hn]].
        rewrite <- pow2_split by lia. apply Z.pow_le_mono_r; lia.
Qed.

Lemma sf_value_lt_max f :
  sf_finite f -> sf_value f < 2 ^ (emax - sf_exp0).
Proof.
  pose proof emin_neg as Hemin.
  assert (0 < 2 ^ (emax - sf_exp0)) by (apply pow2_pos; unfold sf_exp0; lia).
  destruct f as [s|s| |s m e]; simpl; try lia; try contradiction.
  intros B. pose proof (sf_scaled_bounded_pos _ _ B).
  destruct s; [lia|].
  apply bounded_facts in B as (He & Hd & _).
  pose proof (digits_bounds m) as [_ U].
  assert (Zpos m < 2 ^ prec).
  { eapply Z.lt_le_trans; [exact U|]. apply Z.pow_le_mono_r; lia. }
  eapply Z.lt_le_trans; [apply (sf_scaled_lt_pow _ _ prec); try lia|].
  - unfold sf_exp0. lia.
  - apply Z.pow_le_mono_r; unfold sf_exp0; lia.
Qed.

(** No float lies strictly between two consecutive multiples of the unit
    of a binade. *)
Lemma sf_gap f m1 e' :
  sf_finite f -> emin <= e' -> 0 <= m1 -> (emin < e' -> 2 ^ (prec - 1) <= m1) ->
  sf_value f <= m1 * 2 ^ (e' - sf_exp0)
  \/ (m1 + 1) * 2 ^ (e' - sf_exp0) <= sf_value f.
Proof.
  intros F He H0 Hn. pose proof emin_neg as Hemin.
  assert (HE : 0 <= e' - sf_exp0) by (unfold sf_exp0; lia).
  assert (Hg : 0 < 2 ^ (e' - sf_exp0)) by now apply pow2_pos.
  destruct f as [s|s| |s m e]; simpl in *; try contradiction;
    try (left; nia).
  pose proof (sf_scaled_bounded_pos _ _ F).
  destruct s; [left; nia|].
  apply bounded_facts in F as (Hef & Hd & _).
  destruct (Z_lt_le_dec e e') as [Hlt|Hge].
  - left. specialize (Hn ltac:(lia)).
    pose proof (digits_bounds m) as [_ U].
    assert (Zpos m < 2 ^ prec).
    { eapply Z.lt_le_trans; [exact U|]. apply Z.pow_le_mono_r; lia. }
    apply Z.lt_le_incl.
    eapply Z.lt_le_trans; [apply (sf_scaled_lt_pow _ _ prec); try lia|].
    + unfold sf_exp0; lia.
    + eapply Z.le_trans;
        [|apply Z.mul_le_mono_nonneg_r; [lia|exact Hn]].
      rewrite <- pow2_split by lia. apply Z.pow_le_mono_r; lia.
  - assert (Ee : sf_scaled (Zpos m) e
                 = (Zpos m * 2 ^ (e - e')) * 2 ^ (e' - sf_exp0)).
    { unfold sf_scaled. rewrite <- Z.mul_assoc, <- pow2_split by lia.
      do 2 f_equal. lia. }
    rewrite Ee.
    destruct (Z_le_gt_dec (Zpos m * 2 ^ (e - e')) m1).
    + left. nia.
    + right. nia.
Qed.

(** ** Rounding to nearest *)

Lemma sf_finite_opp f : sf_finite f -> sf_finite (SFopp f).
Proof. now destruct f. Qed.

Lemma sf_value_opp f : sf_value (SFopp f) = - sf_value f.
Proof. destruct f as [| | |[] m e]; simpl; lia. Qed.

Lemma SFopp_involutive f : SFopp (SFopp f) = f.
Proof. destruct f; simpl; now rewrite ?negb_involutive. Qed.

Lemma sf_nearest_opp v R : sf_nearest v R -> sf_nearest (- v) (SFopp R).
Proof.
  intros [F N]. split; [now apply sf_finite_opp|]. intros f Ff.
  specialize (N (SFopp f) (sf_finite_opp f Ff)). rewrite sf_value_opp in *. lia.
Qed.

Lemma sf_overflow_opp v R :
  sf_overflow v R -> sf_overflow (- v) (SFopp R).
Proof.
  intros [I N]. split; [now destruct R|]. intros f Ff.
  specialize (N f Ff). lia.
Qed.

Lemma sf_rounds_opp v R : sf_rounds v R -> sf_rounds (- v) (SFopp R).
Proof.
  intros [H|H]; [left; now apply sf_nearest_opp|].
  right; now apply sf_overflow_opp.
Qed.

Lemma mk_float_opp s m2 e' :
  mk_float (negb s) m2 e' = SFopp (mk_float s m2 e').
Proof.
  unfold mk_float.
  destruct (m2 =? 0); [reflexivity|].
  destruct (m2 =? 2 ^ prec);
    [destruct (e' + 1 <=? emax - prec)|destruct (e' <=? emax - prec)];
    reflexivity.
Qed.

(** The value in terms of quotient and remainder. *)
Lemma sf_scaled_split m e :
  sf_exp0 <= e -> e <= rexp m e ->
  let g := 2 ^ (rexp m e - sf_exp0) in
  let u := 2 ^ (e - sf_exp0) in
  0 < g /\ 0 < u /\ g = 2 ^ (rexp m e - e) * u
  /\ sf_scaled (Zpos m) e = rquo m e * g + rrem m e * u.
Proof.
  intros He Hk. cbv zeta.
  assert (0 < 2 ^ (rexp m e - sf_exp0)) by (apply pow2_pos; lia).
  assert (0 < 2 ^ (e - sf_exp0)) by (apply pow2_pos; lia).
  assert (G : 2 ^ (rexp m e - sf_exp0)
              = 2 ^ (rexp m e - e) * 2 ^ (e - sf_exp0)).
  { rewrite <- pow2_split by lia. f_equal. lia. }
  repeat split; try assumption.
  unfold sf_scaled. rewrite (rquo_rrem m e Hk) at 1. rewrite G. ring.
Qed.

(** The rounding of a positive [m * 2^e] is a nearest float, or an
    infinity on overflow; a result above the value has a float close
    below the value. *)
Theorem round_pos m e :
  sf_exp0 <= e -> e <= rexp m e ->
  let R := binary_round_aux prec emax false (Zpos m) e loc_Exact in
  let v := sf_scaled (Zpos m) e in
  sf_rounds v R
  /\ (emin <= e -> sf_finite R -> v < sf_value R ->
      sf_close_below v R).
Proof.
  intros He Hk. cbv zeta. rewrite (binary_round_aux_eq false m e Hk).
  destruct (sf_scaled_split m e He Hk) as (Hg & Hu & Eg & Ev).
  destruct (rquo_bounds m e Hk) as [[Q0 Q1] Q2].
  destruct (rmant_bounds m e Hk) as [B1 B2].
  destruct (rmant_cases m e Hk) as (Hc & Hdown & Hup & Hex).
  pose proof (rrem_bounds m e Hk) as Hrem.
  pose proof (rexp_ge_emin m e) as Hre.
  set (g := 2 ^ (rexp m e - sf_exp0)) in *.
  set (u := 2 ^ (e - sf_exp0)) in *.
  set (k2 := 2 ^ (rexp m e - e)) in *.
  set (v := sf_scaled (Zpos m) e) in *.
  assert (Hlo : rquo m e * g <= v) by nia.
  assert (Hhi : v < (rquo m e + 1) * g) by nia.
  assert (Hgap : forall f, sf_finite f ->
            sf_value f <= rquo m e * g \/ (rquo m e + 1) * g <= sf_value f).
  { intros f Ff. now apply sf_gap. }
  assert (Hnear : (rmant m e = rquo m e /\ 2 * (v - rquo m e * g) <= g)
                  \/ (rmant m e = rquo m e + 1
                      /\ 2 * ((rquo m e + 1) * g - v) <= g
                      /\ rquo m e * g < v)).
  { destruct Hc as [E|E]; [left|right]; (split; [exact E|]).
    - specialize (Hdown E). nia.
    - specialize (Hup E). split; [nia|].
      assert (0 < rrem m e) by (pose proof (pow2_pos (rexp m e - e)); nia).
      nia. }
  destruct (mk_float_spec false (rmant m e) (rexp m e) Hre B1 B2)
    as [[F EV]|[EI Hbig]]; [fold g in EV|fold g in Hbig].
  - split.
    + left. split; [exact F|]. intros f Ff. rewrite EV.
      destruct (Hgap f Ff) as [G1|G1];
        destruct Hnear as [[E N]|[E [N N']]]; rewrite E; lia.
    + intros Hemin _ Hlt. unfold sf_close_below. rewrite EV in Hlt |- *.
      destruct Hnear as [[E N]|[E [N N']]]; rewrite E in *; [lia|].
      (* rounded up: the remainder is not zero, so there was a shift *)
      assert (Hsh : e < rexp m e).
      { destruct (Z.eq_dec e (rexp m e)) as [Ee|]; [|lia].
        exfalso. unfold k2 in *. rewrite <- Ee, Z.sub_diag in Hrem.
        change (2 ^ 0) with 1 in Hrem.
        assert (rrem m e = 0) by lia. specialize (Hex H). lia. }
      specialize (Q2 ltac:(lia)).
      destruct (mk_float_spec false (rquo m e) (rexp m e) Hre
                  ltac:(lia) ltac:(intros; assumption))
        as [[Fl EVl]|[EIl Hbigl]]; [fold g in EVl|fold g in Hbigl].
      * exists (mk_float false (rquo m e) (rexp m e)).
        split; [exact Fl|]. rewrite EVl. split; [exact N'|].
        assert (Hpp : 2 ^ prec = 2 * 2 ^ (prec - 1)).
        { rewrite <- pow2_succ by lia. f_equal. lia. }
        rewrite Hpp. nia.
      * exfalso. pose proof (sf_value_lt_max _ F) as Hm. rewrite EV in Hm.
        fold g in Hm. nia.
  - split.
    + right. split; [rewrite EI; exact I|].
      assert (Hpos : forall f, sf_finite f -> sf_value f < v).
      { intros f Ff. pose proof (sf_value_lt_max f Ff) as Hm.
        destruct (Hgap f Ff) as [G1|G1];
          destruct Hnear as [[E N]|[E [N N']]]; rewrite E in Hbig; lia. }
      intros f Ff. pose proof (Hpos f Ff).
      pose proof (Hpos _ (sf_finite_opp f Ff)) as H2.
      rewrite sf_value_opp in H2. lia.
    + intros _ F. rewrite EI in F. contradiction.
Qed.

Theorem round_signed (s : bool) m e :
  sf_exp0 <= e -> e <= rexp m e ->
  sf_rounds (if s then - sf_scaled (Zpos m) e else sf_scaled (Zpos m) e)
      (binary_round_aux prec emax s (Zpos m) e loc_Exact).
Proof.
  intros He Hk. destruct (round_pos m e He Hk) as [H _].
  destruct s; [|exact H].
  rewrite (binary_round_aux_eq true m e Hk).
  change true with (negb false). rewrite mk_float_opp.
  rewrite <- (binary_round_aux_eq false m e Hk). now apply sf_rounds_opp.
Qed.

(** ** Alignment *)

Lemma iter_xO_spec m d :
  Zpos (Pos.iter xO m d) = Zpos m * 2 ^ Zpos d
  /\ digits2_pos (Pos.iter xO m d) = (digits2_pos m + d)%positive.
Proof.
  induction d as [|d [IH1 IH2]] using Pos.peano_ind.
  - simpl. split; [change (2 ^ 1) with 2; lia|]. lia.
  - rewrite Pos.iter_succ. split.
    + change (Z.pos (Pos.iter xO m d)~0) with (2 * Z.pos (Pos.iter xO m d)).
      rewrite IH1, Pos2Z.inj_succ, Z.pow_succ_r by lia. ring.
    + simpl. rewrite IH2. lia.
Qed.

Lemma shl_align_spec m e e' :
  let '(mz, ez) := shl_align m e e' in
  ez = Z.min e e'
  /\ Zpos mz = Zpos m * 2 ^ (e - ez)
  /\ Zpos (digits2_pos mz) + ez = Zpos (digits2_pos m) + e.
Proof.
  unfold shl_align. destruct (e' - e) as [|d|d] eqn:E.
  - rewrite Z.min_l by lia. rewrite Z.sub_diag. change (2 ^ 0) with 1.
    split; [reflexivity|]. split; lia.
  - rewrite Z.min_l by lia. rewrite Z.sub_diag. change (2 ^ 0) with 1.
    split; [reflexivity|]. split; lia.
  - destruct (iter_xO_spec m d) as [I1 I2].
    rewrite Z.min_r by lia. split; [reflexivity|].
    replace (e - e') with (Zpos d) by lia. split; [exact I1|].
    rewrite I2. lia.
Qed.

Lemma sf_scaled_shift m e ez :
  sf_exp0 <= ez -> ez <= e -> sf_scaled (m * 2 ^ (e - ez)) ez = sf_scaled m e.
Proof.
  intros H1 H2. unfold sf_scaled. rewrite <- Z.mul_assoc, <- pow2_split by lia.
  do 2 f_equal. lia.
Qed.

Theorem binary_round_spec (s : bool) m e :
  sf_exp0 <= e ->
  let R := binary_round prec emax s m e in
  let v := sf_scaled (Zpos m) e in
  sf_rounds (if s then - v else v) R
  /\ (s = false -> emin <= e -> sf_finite R -> v < sf_value R ->
      sf_close_below v R).
Proof.
  intros He. cbv zeta. unfold binary_round.
  pose proof (shl_align_spec m e (fexp (Zpos (digits2_pos m) + e))) as Hs.
  destruct (shl_align m e (fexp (Zpos (digits2_pos m) + e))) as [mz ez].
  destruct Hs as (Ez & Em & Ed).
  pose proof (fexp_ge_emin (Zpos (digits2_pos m) + e)) as Hf.
  pose proof emin_neg as Hemin.
  assert (He0 : sf_exp0 <= ez) by (unfold sf_exp0 in *; lia).
  assert (Hk : ez <= rexp mz ez) by (unfold rexp; rewrite Ed; lia).
  assert (Ev : sf_scaled (Zpos mz) ez = sf_scaled (Zpos m) e).
  { rewrite Em. apply sf_scaled_shift; lia. }
  rewrite <- Ev. split.
  - now apply round_signed.
  - intros -> Hmin. apply (round_pos mz ez He0 Hk). lia.
Qed.

Theorem binary_normalize_spec m e sz :
  sf_exp0 <= e ->
  let R := binary_normalize prec emax m e sz in
  sf_rounds (sf_scaled m e) R
  /\ (0 < m -> emin <= e -> sf_finite R -> sf_scaled m e < sf_value R ->
      sf_close_below (sf_scaled m e) R).
Proof.
  intros He. cbv zeta. destruct m as [|p|p]; simpl binary_normalize.
  - split; [|lia]. left. split; [exact I|]. intros f _.
    unfold sf_scaled. simpl sf_value. lia.
  - destruct (binary_round_spec false p e He) as [H1 H2].
    split; [exact H1|]. intros _. now apply H2.
  - destruct (binary_round_spec true p e He) as [H1 _].
    split; [|lia]. unfold sf_scaled in *.
    replace (Z.neg p * 2 ^ (e - sf_exp0)) with (- (Z.pos p * 2 ^ (e - sf_exp0)))
      by (change (Z.neg p) with (- Z.pos p); ring).
    exact H1.
Qed.

(** ** Operations *)

Lemma sf_nearest_exact f : sf_finite f -> sf_nearest (sf_value f) f.
Proof.
  intros F. split; [exact F|]. intros g _.
  rewrite Z.sub_diag. simpl Z.abs. apply Z.abs_nonneg.
Qed.

Lemma sf_nearest_zero (s : bool) v : v = 0 -> sf_nearest v (S754_zero s).
Proof. intros ->. exact (sf_nearest_exact (S754_zero s) I). Qed.

(** A finite result is a nearest float. *)
Lemma sf_finite_not_overflow v R :
  sf_finite R -> sf_rounds v R -> sf_nearest v R.
Proof.
  intros F [H|[H _]]; [exact H|]. destruct R; simpl in *; contradiction.
Qed.

(** Rounding to nearest is monotone: it does not cross a float. *)
Lemma sf_nearest_ge v R f :
  sf_nearest v R -> sf_finite f -> sf_value f <= v ->
  sf_value f <= sf_value R.
Proof. intros [_ H] F Hf. specialize (H f F). lia. Qed.

Lemma sf_nearest_le v R f :
  sf_nearest v R -> sf_finite f -> v <= sf_value f ->
  sf_value R <= sf_value f.
Proof. intros [_ H] F Hf. specialize (H f F). lia. Qed.

Lemma sf_scaled_opp m e : sf_scaled (- m) e = - sf_scaled m e.
Proof. unfold sf_scaled. ring. Qed.

Lemma sf_scaled_add m1 m2 e :
  sf_scaled (m1 + m2) e = sf_scaled m1 e + sf_scaled m2 e.
Proof. unfold sf_scaled. ring. Qed.

Lemma shl_align_value s m e ez :
  sf_exp0 <= ez -> ez <= e ->
  sf_scaled (cond_Zopp s (Zpos (fst (shl_align m e ez)))) ez
  = sf_value (S754_finite s m e).
Proof.
  intros H1 H2. pose proof (shl_align_spec m e ez) as Hs.
  destruct (shl_align m e ez) as [mz ez']. destruct Hs as (Ez & Em & _).
  rewrite Z.min_r in Ez by lia. subst ez'. cbn [fst]. rewrite Em.
  unfold cond_Zopp. simpl sf_value. destruct s.
  - rewrite sf_scaled_opp. f_equal. now apply sf_scaled_shift.
  - now apply sf_scaled_shift.
Qed.

(** The sum of two finite floats is their exact sum, rounded. *)
Theorem SFadd_spec x y :
  sf_finite x -> sf_finite y ->
  let R := SFadd prec emax x y in
  let v := sf_value x + sf_value y in
  sf_rounds v R
  /\ (0 < v -> sf_finite R -> v < sf_value R ->
      sf_close_below v R).
Proof.
  intros Fx Fy. cbv zeta.
  destruct x as [sx|sx| |sx mx ex]; try contradiction;
    destruct y as [sy|sy| |sy my ey]; try contradiction.
  - split; [|simpl; lia]. left.
    destruct sx, sy; simpl SFadd; apply sf_nearest_zero; reflexivity.
  - simpl SFadd. simpl (sf_value (S754_zero _)). rewrite Z.add_0_l.
    split; [|lia]. left. now apply sf_nearest_exact.
  - simpl SFadd. simpl (sf_value (S754_zero _)). rewrite Z.add_0_r.
    split; [|lia]. left. now apply sf_nearest_exact.
  - simpl in Fx, Fy.
    destruct (bounded_facts _ _ Fx) as ([Hx _] & _).
    destruct (bounded_facts _ _ Fy) as ([Hy _] & _).
    pose proof emin_neg as Hemin.
    assert (Hz : emin <= Z.min ex ey) by lia.
    assert (Hz0 : sf_exp0 <= Z.min ex ey) by (unfold sf_exp0; lia).
    unfold SFadd.
    set (ez := Z.min ex ey) in *.
    set (M := cond_Zopp sx (Z.pos (fst (shl_align mx ex ez)))
              + cond_Zopp sy (Z.pos (fst (shl_align my ey ez)))).
    assert (EV : sf_scaled M ez
                 = sf_value (S754_finite sx mx ex)
                   + sf_value (S754_finite sy my ey)).
    { unfold M.
      rewrite sf_scaled_add, !shl_align_value by (unfold ez in *; lia).
      reflexivity. }
    destruct (binary_normalize_spec M ez false Hz0) as [H1 H2].
    rewrite <- EV. split; [exact H1|]. intros Hpos. apply H2; [|exact Hz].
    unfold sf_scaled in Hpos.
    pose proof (pow2_pos (ez - sf_exp0) ltac:(lia)). nia.
Qed.

Lemma SFsub_eq x y :
  SFsub prec emax x y = SFadd prec emax x (SFopp y).
Proof.
  destruct x as [sx|sx| |sx mx ex], y as [sy|sy| |sy my ey];
    try reflexivity;
    destruct sx, sy; reflexivity.
Qed.

(** The difference of two finite floats is their exact difference,
    rounded. *)
Theorem SFsub_spec x y :
  sf_finite x -> sf_finite y ->
  let R := SFsub prec emax x y in
  let v := sf_value x - sf_value y in
  sf_rounds v R
  /\ (0 < v -> sf_finite R -> v < sf_value R ->
      sf_close_below v R).
Proof.
  intros Fx Fy. cbv zeta. rewrite SFsub_eq.
  replace (sf_value x - sf_value y) with (sf_value x + sf_value (SFopp y))
    by (rewrite sf_value_opp; lia).
  apply SFadd_spec; [exact Fx|now apply sf_finite_opp].
Qed.

Lemma digits_mul_ge m1 m2 :
  Zpos (digits2_pos m1) + Zpos (digits2_pos m2) - 1
  <= Zpos (digits2_pos (m1 * m2)).
Proof.
  pose proof (digits_bounds m1) as [L1 _].
  pose proof (digits_bounds m2) as [L2 _].
  pose proof (digits_bounds (m1 * m2)) as [_ U].
  pose proof (digits_pos m1). pose proof (digits_pos m2).
  pose proof (digits_pos (m1 * m2)).
  assert (L : 2 ^ ((Zpos (digits2_pos m1) - 1) + (Zpos (digits2_pos m2) - 1))
              <= Zpos (m1 * m2)).
  { rewrite pow2_split by lia. rewrite Pos2Z.inj_mul.
    apply Z.mul_le_mono_nonneg; try lia;
      apply Z.lt_le_incl, pow2_pos; lia. }
  assert (Hlt : Zpos (digits2_pos m1) - 1 + (Zpos (digits2_pos m2) - 1)
                < Zpos (digits2_pos (m1 * m2))).
  { apply (Z.pow_lt_mono_r_iff 2); lia. }
  lia.
Qed.

(** The exact product of two canonical floats has at least as many digits
    as rounding keeps, or lies at the bottom of the exponent range: the
    rounding only shifts right. *)
Lemma mul_exp_ok mx ex my ey :
  bounded prec emax mx ex = true -> bounded prec emax my ey = true ->
  ex + ey <= rexp (mx * my) (ex + ey).
Proof.
  intros Bx By.
  destruct (bounded_facts _ _ Bx) as ([Hx _] & Dx & Nx).
  destruct (bounded_facts _ _ By) as ([Hy _] & Dy & Ny).
  pose proof emin_neg as Hemin.
  pose proof (digits_mul_ge mx my) as Hd.
  pose proof (digits_pos mx). pose proof (digits_pos my).
  unfold rexp, SpecFloat.fexp.
  destruct (Z.eq_dec ex emin) as [Ex|Ex];
    destruct (Z.eq_dec ey emin) as [Ey|Ey]; lia.
Qed.

(** The product of two finite floats is their exact product, rounded;
    the product of two values counts units of [2^sf_exp0] twice, so the
    exact product [P] is given by [P * 2^(-sf_exp0)]. *)
Theorem SFmul_spec x y :
  sf_finite x -> sf_finite y ->
  exists P,
    P * 2 ^ (- sf_exp0) = sf_value x * sf_value y
    /\ sf_rounds P (SFmul prec emax x y).
Proof.
  intros Fx Fy.
  destruct x as [sx|sx| |sx mx ex]; try contradiction;
    destruct y as [sy|sy| |sy my ey]; try contradiction;
    try (exists 0; split;
         [simpl sf_value; ring|left; now apply sf_nearest_zero]).
  simpl in Fx, Fy.
  pose proof (mul_exp_ok _ _ _ _ Fx Fy) as Hk.
  pose proof (bounded_exp_ge _ _ Fx) as Hx.
  pose proof (bounded_exp_ge _ _ Fy) as Hy.
  destruct (bounded_facts _ _ Fx) as ([Hx' _] & _).
  destruct (bounded_facts _ _ Fy) as ([Hy' _] & _).
  pose proof emin_neg as Hemin.
  assert (He : sf_exp0 <= ex + ey) by (unfold sf_exp0; lia).
  exists (if xorb sx sy then - sf_scaled (Zpos (mx * my)) (ex + ey)
          else sf_scaled (Zpos (mx * my)) (ex + ey)).
  split.
  - assert (E : sf_scaled (Zpos (mx * my)) (ex + ey) * 2 ^ (- sf_exp0)
                = sf_scaled (Zpos mx) ex * sf_scaled (Zpos my) ey).
    { unfold sf_scaled. rewrite Pos2Z.inj_mul.
      replace (Z.pos mx * 2 ^ (ex - sf_exp0) * (Z.pos my * 2 ^ (ey - sf_exp0)))
        with (Z.pos mx * Z.pos my * (2 ^ (ex - sf_exp0) * 2 ^ (ey - sf_exp0)))
        by ring.
      rewrite <- pow2_split by lia.
      rewrite <- Z.mul_assoc, <- pow2_split by (unfold sf_exp0 in *; lia).
      do 2 f_equal. lia. }
    simpl sf_value. destruct sx, sy; simpl xorb; cbv iota; lia.
  - unfold SFmul. now apply round_signed.
Qed.

(** ** The constant one and the values below it *)

Lemma prec_le_neg_emin : emin <= - prec.
Proof. unfold SpecFloat.emin. lia. Qed.

Lemma sf_unit_split :
  2 ^ (- sf_exp0) = 2 ^ prec * 2 ^ (- prec - sf_exp0).
Proof.
  pose proof prec_le_neg_emin. rewrite <- pow2_split by (unfold sf_exp0; lia).
  f_equal. lia.
Qed.

(** The largest float below 1 is [1 - 2^(-prec)]. *)
Lemma sf_value_below_one x :
  sf_finite x -> sf_value x < 2 ^ (- sf_exp0) ->
  2 ^ prec * sf_value x <= (2 ^ prec - 1) * 2 ^ (- sf_exp0).
Proof.
  intros F H. pose proof prec_le_neg_emin as Hp.
  assert (Hpp : 2 ^ (prec - 1) <= 2 ^ prec - 1).
  { replace prec with ((prec - 1) + 1) at 2 by lia.
    rewrite pow2_succ by lia. pose proof (pow2_pos (prec - 1)). lia. }
  destruct (sf_gap x (2 ^ prec - 1) (- prec) F Hp ltac:(lia) (fun _ => Hpp))
    as [G|G].
  - rewrite sf_unit_split. pose proof (pow2_pos prec). nia.
  - replace (2 ^ prec - 1 + 1) with (2 ^ prec) in G by lia.
    rewrite <- sf_unit_split in G. lia.
Qed.

Lemma sf_value_one :
  sf_finite (SFone prec emax)
  /\ sf_value (SFone prec emax) = 2 ^ (- sf_exp0).
Proof.
  pose proof emin_neg as Hemin. pose proof prec_le_neg_emin as Hp.
  assert (He : sf_exp0 <= 0) by (unfold sf_exp0; lia).
  destruct (binary_round_spec false 1 0 He) as [H _].
  change (binary_round prec emax false 1 0) with (SFone prec emax) in H.
  cbv iota in H.
  assert (Ev : sf_scaled 1 0 = 2 ^ (- sf_exp0))
    by (unfold sf_scaled; rewrite Z.mul_1_l; f_equal).
  rewrite Ev in H.
  set (o := S754_finite false (Z.to_pos (2 ^ (prec - 1))) (1 - prec)).
  assert (Hpp : 0 < 2 ^ (prec - 1) < 2 ^ prec).
  { split; [apply pow2_pos; lia|]. apply Z.pow_lt_mono_r; lia. }
  assert (Fo : sf_finite o).
  { apply bounded_intro; [lia|exact Hpp|lia]. }
  assert (Vo : sf_value o = 2 ^ (- sf_exp0)).
  { simpl sf_value. unfold sf_scaled. rewrite Z_to_pos_id by lia.
    rewrite <- pow2_split by (unfold sf_exp0; lia). f_equal. lia. }
  destruct H as [[F N]|[_ O]].
  - split; [exact F|]. specialize (N o Fo). rewrite Vo in N. lia.
  - specialize (O o Fo). rewrite Vo in O. lia.
Qed.

(** ** The scaled sample stays between the bounds *)

(** Write [D] for the exact [b - a], [d] for its rounding, [t] for the
    rounding of [x * d]. Then [0 <= t <= D]: when [d] was rounded down
    this is monotonicity; when [d] was rounded up, [x <= 1 - 2^(-prec)]
    puts [x * d] closer to the float close below [D] than to [d], so [t]
    cannot be [d], the first float above [D]. Hence [t + a] lies between
    [a] and [b], and so does its rounding. *)
Theorem scale_between_values a b x :
  sf_finite a -> sf_finite b -> sf_finite x ->
  sf_value a < sf_value b -> 0 <= sf_value x -> sf_value x < 2 ^ (- sf_exp0) ->
  sf_finite (SFsub prec emax b a) ->
  let r := SFadd prec emax (SFmul prec emax x (SFsub prec emax b a)) a in
  sf_finite r /\ sf_value a <= sf_value r <= sf_value b.
Proof.
  intros Fa Fb Fx Hab Hx0 Hx1 Fd. cbv zeta.
  destruct (SFsub_spec b a Fb Fa) as [Rd Ud].
  set (d := SFsub prec emax b a) in *.
  pose proof (sf_finite_not_overflow _ _ Fd Rd) as Nd.
  assert (Hd0 : 0 <= sf_value d).
  { apply (sf_nearest_ge _ _ (S754_zero false) Nd I). simpl sf_value. lia. }
  destruct (SFmul_spec x d Fx Fd) as (P & EP & Rt).
  set (t := SFmul prec emax x d) in *.
  assert (Hu : 0 < 2 ^ (- sf_exp0)).
  { apply pow2_pos. pose proof emin_neg. unfold sf_exp0. lia. }
  set (u := 2 ^ (- sf_exp0)) in *.
  assert (HP0 : 0 <= P) by nia.
  assert (HPd : P <= sf_value d) by nia.
  assert (Nt : sf_nearest P t).
  { destruct Rt as [N|[_ O]]; [exact N|]. specialize (O d Fd). lia. }
  pose proof (proj1 Nt) as Ft.
  assert (Ht0 : 0 <= sf_value t).
  { apply (sf_nearest_ge _ _ (S754_zero false) Nt I). simpl sf_value. lia. }
  pose proof (sf_nearest_le _ _ d Nt Fd HPd) as Htd.
  assert (HtD : sf_value t <= sf_value b - sf_value a).
  { destruct (Z_le_gt_dec (sf_value d) (sf_value b - sf_value a))
      as [|Hup]; [lia|].
    destruct (Z_le_gt_dec (sf_value t) (sf_value b - sf_value a))
      as [|Hbig]; [assumption|].
    exfalso.
    destruct (Ud ltac:(lia) Fd ltac:(lia)) as (lo & Flo & Hlo & Hgap).
    assert (Hdt : sf_value d <= sf_value t)
      by (apply (sf_nearest_le _ _ t Nd Ft); lia).
    destruct Nt as [_ Nt]. specialize (Nt lo Flo).
    pose proof (sf_value_below_one x Fx Hx1) as Hb. fold u in Hb.
    pose proof (pow2_pos prec ltac:(lia)) as Hpp.
    assert (HPp : 2 ^ prec * P <= (2 ^ prec - 1) * sf_value d).
    { apply (Z.mul_le_mono_pos_r _ _ u Hu).
      replace (2 ^ prec * P * u) with (2 ^ prec * sf_value x * sf_value d)
        by (rewrite <- !Z.mul_assoc; f_equal; symmetry; exact EP).
      replace ((2 ^ prec - 1) * sf_value d * u)
        with ((2 ^ prec - 1) * u * sf_value d) by ring.
      apply Z.mul_le_mono_nonneg_r; assumption. }
    assert (Hsum : sf_value d + sf_value lo <= 2 * P) by lia.
    nia. }
  destruct (SFadd_spec t a Ft Fa) as [Rr _].
  set (r := SFadd prec emax t a) in *.
  assert (Nr : sf_nearest (sf_value t + sf_value a) r).
  { destruct Rr as [N|[_ O]]; [exact N|].
    pose proof (O a Fa). pose proof (O b Fb). lia. }
  split; [exact (proj1 Nr)|]. split.
  - apply (sf_nearest_ge _ _ a Nr Fa). lia.
  - apply (sf_nearest_le _ _ b Nr Fb). lia.
Qed.

(** ** In terms of the comparisons *)

Lemma SFltb_value x y :
  sf_finite x -> sf_finite y -> SFltb x y = true <-> sf_value x < sf_value y.
Proof.
  intros Fx Fy. unfold SFltb. rewrite (SFcompare_value x y Fx Fy).
  rewrite <- Z.compare_lt_iff.
  destruct (sf_value x ?= sf_value y); split; congruence.
Qed.

Lemma SFleb_value x y :
  sf_finite x -> sf_finite y -> SFleb x y = true <-> sf_value x <= sf_value y.
Proof.
  intros Fx Fy. unfold SFleb. rewrite (SFcompare_value x y Fx Fy).
  rewrite <- Z.compare_le_iff.
  destruct (sf_value x ?= sf_value y); split; congruence.
Qed.

Lemma SFsub_finite a b :
  sf_finite a -> sf_finite b ->
  fp_is_finite (SFsub prec emax b a) = true ->
  sf_finite (SFsub prec emax b a).
Proof.
  intros Fa Fb H. destruct (SFsub_spec b a Fb Fa) as [[[F _]|[I _]] _].
  - exact F.
  - destruct (SFsub prec emax b a); simpl in *; try contradiction;
      discriminate.
Qed.

(** For finite bounds [a < b] whose difference does not overflow and a
    sample [0 <= x < 1], the value [x * (b - a) + a], each operation
    rounded, is finite and compares between [a] and [b], both included. *)
Theorem scale_between a b x :
  sf_finite a -> sf_finite b -> sf_finite x ->
  SFltb a b = true ->
  SFleb (S754_zero false) x = true -> SFltb x (SFone prec emax) = true ->
  fp_is_finite (SFsub prec emax b a) = true ->
  let r := SFadd prec emax (SFmul prec emax x (SFsub prec emax b a)) a in
  sf_finite r /\ SFleb a r = true /\ SFleb r b = true.
Proof.
  intros Fa Fb Fx Hab Hx0 Hx1 Hd. cbv zeta.
  destruct sf_value_one as [F1 V1].
  apply (SFltb_value a b Fa Fb) in Hab.
  apply (SFleb_value (S754_zero false) x I Fx) in Hx0.
  simpl (sf_value (S754_zero _)) in Hx0.
  apply (SFltb_value x (SFone prec emax) Fx F1) in Hx1. rewrite V1 in Hx1.
  pose proof (SFsub_finite a b Fa Fb Hd) as Fd.
  destruct (scale_between_values a b x Fa Fb Fx Hab Hx0 Hx1 Fd)
    as (Fr & Hlo & Hhi).
  split; [exact Fr|]. split.
  - now apply (SFleb_value a _ Fa Fr).
  - now apply (SFleb_value _ b Fr Fb).
Qed.

(** ** Values determine floats *)

Lemma sf_value_finite_nonzero s m e :
  bounded prec emax m e = true -> sf_value (S754_finite s m e) <> 0.
Proof.
  intros B. pose proof (sf_scaled_bounded_pos m e B). simpl sf_value.
  destruct s; lia.
Qed.

(** Two finite floats of the same value are the same float, or two
    zeros. *)
Lemma sf_value_inj x y :
  sf_finite x -> sf_finite y -> sf_value x = sf_value y ->
  x = y \/ (exists s s', x = S754_zero s /\ y = S754_zero s').
Proof.
  intros Fx Fy E. pose proof (SFcompare_value x y Fx Fy) as H.
  rewrite E, Z.compare_refl in H.
  destruct x as [sx|sx| |sx mx ex]; try contradiction;
    destruct y as [sy|sy| |sy my ey]; try contradiction.
  - right. eauto.
  - simpl in H. now destruct sy.
  - simpl in H. now destruct sx.
  - left. simpl in H.
    destruct sx, sy; try discriminate;
      destruct (Z.compare_spec ex ey) as [->| |]; try discriminate;
      change (Pos.compare_cont Eq mx my) with (mx ?= my)%positive in H;
      destruct (Pos.compare_spec mx my) as [->| |]; try discriminate;
      reflexivity.
Qed.

(** Rounding to nearest is monotone. *)
Lemma sf_nearest_mono v v' R R' :
  sf_nearest v R -> sf_nearest v' R' -> v < v' ->
  sf_value R <= sf_value R'.
Proof.
  intros [F N] [F' N'] Hv. specialize (N R' F'). specialize (N' R F). lia.
Qed.

(** A value that is a float rounds to that value. *)
Lemma sf_rounds_exact f R :
  sf_finite f -> sf_rounds (sf_value f) R ->
  sf_finite R /\ sf_value R = sf_value f.
Proof.
  intros F [[FR N]|[_ O]].
  - split; [exact FR|]. specialize (N f F). lia.
  - specialize (O f F). lia.
Qed.

(** ** The sign of a result *)

Lemma binary_round_mk_float (s : bool) m e :
  exists m2 e', binary_round prec emax s m e = mk_float s m2 e'.
Proof.
  unfold binary_round.
  pose proof (shl_align_spec m e (fexp (Zpos (digits2_pos m) + e))) as Hs.
  destruct (shl_align m e (fexp (Zpos (digits2_pos m) + e))) as [mz ez].
  destruct Hs as (Ez & Em & Ed).
  assert (Hk : ez <= rexp mz ez) by (unfold rexp; rewrite Ed; lia).
  rewrite (binary_round_aux_eq s mz ez Hk). eauto.
Qed.

Lemma mk_float_not_finite s m2 e' :
  fp_is_finite (mk_float s m2 e') = false ->
  mk_float s m2 e' = S754_infinity s.
Proof.
  unfold mk_float.
  destruct (m2 =? 0); [discriminate|].
  destruct (m2 =? 2 ^ prec).
  - destruct (e' + 1 <=? emax - prec); [discriminate|reflexivity].
  - destruct (e' <=? emax - prec); [discriminate|reflexivity].
Qed.

(** A positive sum that is not finite is the positive infinity. *)
Lemma SFadd_overflow x y :
  sf_finite x -> sf_finite y -> 0 < sf_value x + sf_value y ->
  fp_is_finite (SFadd prec emax x y) = false ->
  SFadd prec emax x y = S754_infinity false.
Proof.
  intros Fx Fy Hpos.
  destruct x as [sx|sx| |sx mx ex]; try contradiction;
    destruct y as [sy|sy| |sy my ey]; try contradiction;
    try (simpl; discriminate); try (destruct sx, sy; discriminate).
  simpl in Fx, Fy.
  destruct (bounded_facts _ _ Fx) as ([Hx _] & _).
  destruct (bounded_facts _ _ Fy) as ([Hy _] & _).
  pose proof emin_neg as Hemin.
  unfold SFadd.
  set (ez := Z.min ex ey) in *.
  set (M := cond_Zopp sx (Z.pos (fst (shl_align mx ex ez)))
            + cond_Zopp sy (Z.pos (fst (shl_align my ey ez)))).
  assert (EV : sf_scaled M ez
               = sf_value (S754_finite sx mx ex)
                 + sf_value (S754_finite sy my ey)).
  { unfold M.
    rewrite sf_scaled_add, !shl_align_value
      by (unfold ez, sf_exp0 in *; lia).
    reflexivity. }
  assert (HM : 0 < M).
  { rewrite <- EV in Hpos. unfold sf_scaled in Hpos.
    pose proof (pow2_pos (ez - sf_exp0)
                  ltac:(unfold ez, sf_exp0 in *; lia)). nia. }
  destruct M as [|p|p]; try lia. simpl binary_normalize.
  destruct (binary_round_mk_float false p ez) as (m2 & e' & ->).
  apply mk_float_not_finite.
Qed.

Lemma SFsub_overflow x y :
  sf_finite x -> sf_finite y -> sf_value y < sf_value x ->
  fp_is_finite (SFsub prec emax x y) = false ->
  SFsub prec emax x y = S754_infinity false.
Proof.
  intros Fx Fy Hlt. rewrite SFsub_eq.
  apply SFadd_overflow; [exact Fx|now apply sf_finite_opp|].
  rewrite sf_value_opp. lia.
Qed.

(** ** Products and sums of equal values *)

Lemma SFmul_zero_l s y :
  sf_finite y -> exists s', SFmul prec emax (S754_zero s) y = S754_zero s'.
Proof. destruct y; try contradiction; simpl; eauto. Qed.

Lemma SFmul_zero_r x s :
  sf_finite x -> exists s', SFmul prec emax x (S754_zero s) = S754_zero s'.
Proof. destruct x; try contradiction; simpl; eauto. Qed.

Lemma SFadd_zero_l s y :
  sf_finite y ->
  sf_finite (SFadd prec emax (S754_zero s) y)
  /\ sf_value (SFadd prec emax (S754_zero s) y) = sf_value y.
Proof.
  destruct y as [sy|sy| |sy my ey]; try contradiction; intros F.
  - destruct s, sy; simpl; auto.
  - simpl. auto.
Qed.

(** The product with a fixed finite float depends on the value of the
    other operand only, as far as its value goes. *)
Lemma SFmul_value_congr x x' d :
  sf_finite x -> sf_finite x' -> sf_finite d ->
  sf_value x = sf_value x' ->
  sf_value (SFmul prec emax x d) = sf_value (SFmul prec emax x' d).
Proof.
  intros Fx Fx' Fd E.
  destruct (sf_value_inj x x' Fx Fx' E) as [->|(s & s' & -> & ->)];
    [reflexivity|].
  destruct (SFmul_zero_l s d Fd) as [t ->].
  destruct (SFmul_zero_l s' d Fd) as [t' ->]. reflexivity.
Qed.

Lemma SFadd_value_congr t t' a :
  sf_finite t -> sf_finite t' -> sf_finite a ->
  sf_value t = sf_value t' ->
  sf_value (SFadd prec emax t a) = sf_value (SFadd prec emax t' a).
Proof.
  intros Ft Ft' Fa E.
  destruct (sf_value_inj t t' Ft Ft' E) as [->|(s & s' & -> & ->)];
    [reflexivity|].
  destruct (SFadd_zero_l s a Fa) as [_ ->].
  destruct (SFadd_zero_l s' a Fa) as [_ ->]. reflexivity.
Qed.

(** ** The scaled sample as a function of the sample *)

(** The intermediate product of the scaling is finite, nearest to the
    exact product and at most the rounded difference. *)
Lemma scale_product a b x :
  sf_finite a -> sf_finite b -> sf_finite x ->
  sf_value a < sf_value b ->
  0 <= sf_value x -> sf_value x < 2 ^ (- sf_exp0) ->
  sf_finite (SFsub prec emax b a) ->
  0 <= sf_value (SFsub prec emax b a)
  /\ exists P,
       P * 2 ^ (- sf_exp0) = sf_value x * sf_value (SFsub prec emax b a)
       /\ sf_nearest P (SFmul prec emax x (SFsub prec emax b a)).
Proof.
  intros Fa Fb Fx Hab Hx0 Hx1 Fd.
  destruct (SFsub_spec b a Fb Fa) as [Rd _].
  set (d := SFsub prec emax b a) in *.
  pose proof (sf_finite_not_overflow _ _ Fd Rd) as Nd.
  assert (Hd0 : 0 <= sf_value d).
  { apply (sf_nearest_ge _ _ (S754_zero false) Nd I). simpl sf_value. lia. }
  split; [exact Hd0|].
  destruct (SFmul_spec x d Fx Fd) as (P & EP & Rt). exists P.
  split; [exact EP|].
  assert (Hu : 0 < 2 ^ (- sf_exp0)).
  { apply pow2_pos. pose proof emin_neg. unfold sf_exp0. lia. }
  set (u := 2 ^ (- sf_exp0)) in *.
  assert (HP0 : 0 <= P) by nia.
  assert (HPd : P <= sf_value d) by nia.
  destruct Rt as [N|[_ O]]; [exact N|]. specialize (O d Fd). lia.
Qed.

(** The scaled value is monotone in the sample. *)
Theorem scale_monotone_values a b x x' :
  sf_finite a -> sf_finite b -> sf_finite x -> sf_finite x' ->
  sf_value a < sf_value b ->
  0 <= sf_value x -> sf_value x <= sf_value x' ->
  sf_value x' < 2 ^ (- sf_exp0) ->
  sf_finite (SFsub prec emax b a) ->
  sf_value (SFadd prec emax (SFmul prec emax x (SFsub prec emax b a)) a)
  <= sf_value (SFadd prec emax (SFmul prec emax x' (SFsub prec emax b a)) a).
Proof.
  intros Fa Fb Fx Fx' Hab Hx0 Hxx Hx1 Fd.
  destruct (scale_product a b x Fa Fb Fx Hab Hx0 ltac:(lia) Fd)
    as (Hd0 & P & EP & Nt).
  destruct (scale_product a b x' Fa Fb Fx' Hab ltac:(lia) Hx1 Fd)
    as (_ & P' & EP' & Nt').
  destruct (scale_between_values a b x Fa Fb Fx Hab Hx0 ltac:(lia) Fd)
    as (Fr & _).
  destruct (scale_between_values a b x' Fa Fb Fx' Hab ltac:(lia) Hx1 Fd)
    as (Fr' & _).
  set (d := SFsub prec emax b a) in *.
  set (t := SFmul prec emax x d) in *.
  set (t' := SFmul prec emax x' d) in *.
  pose proof (proj1 Nt) as Ft. pose proof (proj1 Nt') as Ft'.
  assert (Hu : 0 < 2 ^ (- sf_exp0)).
  { apply pow2_pos. pose proof emin_neg. unfold sf_exp0. lia. }
  assert (Htt : sf_value t <= sf_value t').
  { destruct (Z.eq_dec (sf_value x) (sf_value x')) as [E|E].
    - unfold t, t'. rewrite (SFmul_value_congr x x' d Fx Fx' Fd E). lia.
    - destruct (Z.eq_dec (sf_value d) 0) as [E0|E0].
      + assert (P = P') by nia. subst P'.
        destruct (sf_rounds_exact (S754_zero false) t I) as [_ V1].
        { left. assert (P = 0) by nia. now subst P. }
        destruct (sf_rounds_exact (S754_zero false) t' I) as [_ V2].
        { left. assert (P = 0) by nia. now subst P. }
        rewrite V1, V2. lia.
      + apply (sf_nearest_mono P P' t t' Nt Nt'). nia. }
  destruct (SFadd_spec t a Ft Fa) as [Rr _].
  destruct (SFadd_spec t' a Ft' Fa) as [Rr' _].
  pose proof (sf_finite_not_overflow _ _ Fr Rr) as Nr.
  pose proof (sf_finite_not_overflow _ _ Fr' Rr') as Nr'.
  destruct (Z.eq_dec (sf_value t) (sf_value t')) as [E|E].
  - rewrite (SFadd_value_congr t t' a Ft Ft' Fa E). lia.
  - apply (sf_nearest_mono _ _ _ _ Nr Nr'). lia.
Qed.

(** ** Equal bounds *)

(** With [b = a] finite the scaling returns [a] for every finite input,
    up to the sign of a zero. *)
Theorem scale_equal_bounds a x :
  sf_finite a -> sf_finite x ->
  let r := SFadd prec emax (SFmul prec emax x (SFsub prec emax a a)) a in
  sf_finite r /\ sf_value r = sf_value a.
Proof.
  intros Fa Fx. cbv zeta.
  destruct (SFsub_spec a a Fa Fa) as [Rd _]. rewrite Z.sub_diag in Rd.
  destruct (sf_rounds_exact (S754_zero false) _ I Rd) as [Fd Vd].
  simpl (sf_value (S754_zero _)) in Vd.
  destruct (sf_value_inj _ (S754_zero false) Fd I Vd)
    as [->|(s & _ & -> & _)].
  - destruct (SFmul_zero_r x false Fx) as [s' ->]. now apply SFadd_zero_l.
  - destruct (SFmul_zero_r x s Fx) as [s' ->]. now apply SFadd_zero_l.
Qed.

(** ** The unit interval *)

Lemma SFone_finite : exists m e, SFone prec emax = S754_finite false m e.
Proof.
  destruct sf_value_one as [F V1].
  assert (Hu : 0 < 2 ^ (- sf_exp0)).
  { apply pow2_pos. pose proof emin_neg. unfold sf_exp0. lia. }
  destruct (SFone prec emax) as [s|s| |s m e]; simpl in F, V1;
    try contradiction; try lia.
  destruct s; [|eauto]. simpl in F.
  pose proof (sf_scaled_bounded_pos m e F). lia.
Qed.

(** With [a = 0] and [b = 1] the scaling returns a finite non-zero input
    as it is. *)
Theorem scale_unit_interval s m e :
  bounded prec emax m e = true ->
  SFadd prec emax
    (SFmul prec emax (S754_finite s m e)
       (SFsub prec emax (SFone prec emax) (S754_zero false)))
    (S754_zero false)
  = S754_finite s m e.
Proof.
  intros B. destruct sf_value_one as [F1 V1].
  destruct SFone_finite as (m1 & e1 & E1).
  set (x := S754_finite s m e).
  assert (Fx : sf_finite x) by exact B.
  assert (Ed : SFsub prec emax (SFone prec emax) (S754_zero false)
               = SFone prec emax) by now rewrite E1.
  rewrite Ed.
  destruct (SFmul_spec x (SFone prec emax) Fx F1) as (P & EP & Rt).
  rewrite V1 in EP.
  assert (Hu : 0 < 2 ^ (- sf_exp0)).
  { apply pow2_pos. pose proof emin_neg. unfold sf_exp0. lia. }
  assert (P = sf_value x) by nia. subst P.
  destruct (sf_rounds_exact x _ Fx Rt) as [Ft Vt].
  destruct (sf_value_inj _ x Ft Fx Vt) as [->|(? & ? & _ & Hx)];
    [|discriminate Hx].
  reflexivity.
Qed.

(** With [a = 0] and [b = 1] the positive zero stays the positive zero. *)
Lemma scale_unit_interval_zero :
  SFadd prec emax
    (SFmul prec emax (S754_zero false)
       (SFsub prec emax (SFone prec emax) (S754_zero false)))
    (S754_zero false)
  = S754_zero false.
Proof. destruct SFone_finite as (m1 & e1 & ->). reflexivity. Qed.

(** ** The same in terms of the comparisons *)

Theorem scale_monotone a b x x' :
  sf_finite a -> sf_finite b -> sf_finite x -> sf_finite x' ->
  SFltb a b = true ->
  SFleb (S754_zero false) x = true -> SFleb x x' = true ->
  SFltb x' (SFone prec emax) = true ->
  fp_is_finite (SFsub prec emax b a) = true ->
  SFleb (SFadd prec emax (SFmul prec emax x (SFsub prec emax b a)) a)
        (SFadd prec emax (SFmul prec emax x' (SFsub prec emax b a)) a)
  = true.
Proof.
  intros Fa Fb Fx Fx' Hab Hx0 Hxx Hx1 Hd.
  destruct sf_value_one as [F1 V1].
  assert (Hx1' : SFltb x (SFone prec emax) = true).
  { apply (SFltb_value x _ Fx F1).
    apply (SFleb_value x x' Fx Fx') in Hxx.
    apply (SFltb_value x' _ Fx' F1) in Hx1. lia. }
  assert (Hx0' : SFleb (S754_zero false) x' = true).
  { apply (SFleb_value (S754_zero false) x' I Fx').
    apply (SFleb_value (S754_zero false) x I Fx) in Hx0.
    apply (SFleb_value x x' Fx Fx') in Hxx. lia. }
  destruct (scale_between a b x Fa Fb Fx Hab Hx0 Hx1' Hd) as (Fr & _).
  destruct (scale_between a b x' Fa Fb Fx' Hab Hx0' Hx1 Hd) as (Fr' & _).
  apply (SFleb_value _ _ Fr Fr').
  apply (SFltb_value a b Fa Fb) in Hab.
  apply (SFleb_value (S754_zero false) x I Fx) in Hx0.
  simpl (sf_value (S754_zero _)) in Hx0.
  apply (SFleb_value x x' Fx Fx') in Hxx.
  apply (SFltb_value x' (SFone prec emax) Fx' F1) in Hx1. rewrite V1 in Hx1.
  apply scale_monotone_values; try assumption.
  now apply SFsub_finite.
Qed.

Theorem scale_equal_bounds_cmp a x :
  sf_finite a -> sf_finite x ->
  let r := SFadd prec emax (SFmul prec emax x (SFsub prec emax a a)) a in
  SFleb a r = true /\ SFleb r a = true
  /\ ((forall s, a <> S754_zero s) -> r = a).
Proof.
  intros Fa Fx. cbv zeta.
  destruct (scale_equal_bounds a x Fa Fx) as [Fr Vr].
  split; [apply (SFleb_value a _ Fa Fr); lia|].
  split; [apply (SFleb_value _ a Fr Fa); lia|].
  intros Hnz. destruct (sf_value_inj _ a Fr Fa Vr) as [E|(s & s' & _ & E)];
    [exact E|]. now destruct (Hnz s').
Qed.

(** When the difference of the bounds overflows, the sample zero scales
    to a NaN and every other sample to the positive infinity. *)
Theorem scale_overflow a b x :
  sf_finite a -> sf_finite b -> sf_finite x ->
  SFltb a b = true -> SFleb (S754_zero false) x = true ->
  fp_is_finite (SFsub prec emax b a) = false ->
  let y := SFadd prec emax (SFmul prec emax x (SFsub prec emax b a)) a in
  ((exists s, x = S754_zero s) -> y = S754_nan)
  /\ ((forall s, x <> S754_zero s) -> y = S754_infinity false).
Proof.
  intros Fa Fb Fx Hab Hx0 Hd. cbv zeta.
  apply (SFltb_value a b Fa Fb) in Hab.
  rewrite (SFsub_overflow b a Fb Fa Hab Hd). split.
  - intros [s ->]. reflexivity.
  - intros Hnz. destruct x as [sx|sx| |sx mx ex]; try contradiction.
    + now destruct (Hnz sx).
    + destruct sx; [discriminate Hx0|].
      destruct a; try contradiction; reflexivity.
Qed.

(** ** The sample zero *)

(** The sample zero scales to the lower bound, up to the sign of a
    zero. *)
Theorem scale_zero_sample a b s :
  sf_finite a -> sf_finite b -> fp_is_finite (SFsub prec emax b a) = true ->
  let r := SFadd prec emax
             (SFmul prec emax (S754_zero s) (SFsub prec emax b a)) a in
  SFleb a r = true /\ SFleb r a = true
  /\ ((forall s', a <> S754_zero s') -> r = a).
Proof.
  intros Fa Fb Hd. cbv zeta.
  pose proof (SFsub_finite a b Fa Fb Hd) as Fd.
  destruct (SFmul_zero_l s _ Fd) as [s1 ->].
  destruct (SFadd_zero_l s1 a Fa) as [Fr Vr].
  split; [apply (SFleb_value a _ Fa Fr); lia|].
  split; [apply (SFleb_value _ a Fr Fa); lia|].
  intros Hnz. destruct (sf_value_inj _ a Fr Fa Vr) as [E|(s2 & s3 & _ & E)];
    [exact E|]. now destruct (Hnz s3).
Qed.

End Rounding.

(** ** The two formats *)

Lemma fp_format (T : fp_type) : 1 < fp_prec T /\ fp_prec T < fp_emax T.
Proof. destruct T; simpl; lia. Qed.

Lemma fp_valid_finite T x :
  fp_valid T x = true -> fp_is_finite x = true ->
  sf_finite (fp_prec T) (fp_emax T) x.
Proof. destruct x; simpl; try discriminate; auto. Qed.

(** A sample of [0, 1) is finite. *)
Lemma unit_sample_finite T x : unit_sample T x -> fp_is_finite x = true.
Proof.
  intros (_ & H0 & H1). destruct x as [s|s| |s m e]; try reflexivity.
  - destruct s; [vm_compute in H0; discriminate H0|].
    destruct T; vm_compute in H1; discriminate H1.
  - vm_compute in H0. discriminate H0.
Qed.

(** Operands with a finite difference are finite. *)
Lemma fp_sub_finite_operands T a b :
  fp_is_finite (fp_sub T b a) = true ->
  fp_is_finite a = true /\ fp_is_finite b = true.
Proof.
  destruct a as [sa|sa| |sa ma ea], b as [sb|sb| |sb mb eb];
    try (split; reflexivity);
    try (intros H; destruct T; discriminate H);
    try (intros H; destruct T, sa, sb; discriminate H).
Qed.

(** The scaled value of a sample of [0, 1) lies in the closed interval of
    the bounds, provided their difference does not overflow. *)
Theorem scale_closed T a b x :
  fp_valid T a = true -> fp_valid T b = true -> fp_lt a b = true ->
  fp_is_finite (fp_sub T b a) = true ->
  unit_sample T x ->
  fp_is_finite (scale T a b x) = true
  /\ fp_le a (scale T a b x) = true /\ fp_le (scale T a b x) b = true.
Proof.
  intros Va Vb Hab Hd Hx.
  destruct (fp_format T) as [P1 P2].
  destruct (fp_sub_finite_operands T a b Hd) as [Fa Fb].
  pose proof (unit_sample_finite T x Hx) as Fx.
  destruct Hx as (Vx & Hx0 & Hx1).
  destruct (scale_between (fp_prec T) (fp_emax T) P1 P2 a b x
              (fp_valid_finite T a Va Fa) (fp_valid_finite T b Vb Fb)
              (fp_valid_finite T x Vx Fx) Hab Hx0 Hx1 Hd) as (Fr & Hlo & Hhi).
  split; [|split; assumption].
  unfold scale, fp_add, fp_mul, fp_sub.
  destruct (SFadd _ _ _ a); simpl in Fr; try contradiction; reflexivity.
Qed.

(* ===================================================================== *)
(** * The floating-point range transforms *)
(* ===================================================================== *)

Lemma fp_below_one_sample T : unit_sample T (fp_below_one T).
Proof. destruct T; vm_compute; auto. Qed.

Lemma fp_one_lt_two T : fp_lt (fp_one T) (fp_two T) = true.
Proof. now destruct T. Qed.

(** With [a = 1], [b = 2] the largest sample below 1 scales to [b]
    exactly: [x * 1 + 1] is half-way between [b] and its predecessor and
    rounds to even. *)
Lemma scale_reaches_upper_bound T :
  scale T (fp_one T) (fp_two T) (fp_below_one T) = fp_two T.
Proof. now destruct T. Qed.

(** C1, at the failing input: in both formats, for the bounds
    [a = 1 < b = 2] and the one-element buffer holding the largest sample
    below 1, the accurate transform (buffer and USM variant) completes and
    leaves [b] itself in the buffer, which is not below [b]: the output is
    not in [a, b). *)
Theorem range_transform_fp_accurate_reaches_upper_bound (T : fp_type) :
  fp_lt (fp_one T) (fp_two T) = true
  /\ unit_sample T (fp_below_one T)
  /\ buffer_api.range_transform_fp_accurate T (fp_one T) (fp_two T) 1
       [fp_below_one T] = Some [fp_two T]
  /\ usm_api.range_transform_fp_accurate T (fp_one T) (fp_two T) 1 0
       {[0%nat := fp_below_one T]} = Some {[0%nat := fp_two T]}
  /\ fp_lt (fp_two T) (fp_two T) = false.
Proof.
  split; [apply fp_one_lt_two|]. split; [apply fp_below_one_sample|].
  split; [now destruct T|]. split; [|apply fp_lt_irrefl].
  destruct T; vm_compute; reflexivity.
Qed.

Lemma fp_elem_is_Some T a b x : is_Some (fp_elem T a b x).
Proof. unfold fp_elem. eauto. Qed.

Lemma fp_accurate_elem_is_Some T a b x : is_Some (fp_accurate_elem T a b x).
Proof. unfold fp_accurate_elem. eauto. Qed.

(** X1. The accurate transform: each of the first [n] elements becomes
    the clamp of its scaled value. When the bounds are ordered and the scaled
    value is not a NaN the result lies in the closed interval [a, b]; a NaN
    is left as it is. Buffer and USM variants. *)
Theorem range_transform_fp_accurate_clamps
    (T : fp_type) (a b : spec_float) (n : Z) :
  fp_lt a b = true -> int64_count n ->
  (forall r : list spec_float,
     n <= Z.of_nat (length r) ->
     exists r',
       buffer_api.range_transform_fp_accurate T a b n r = Some r'
       /\ forall i x, below n i -> r !! i = Some x ->
            r' !! i = Some (clamp a b (scale T a b x))
            /\ (fp_is_nan (scale T a b x) = false ->
                fp_le a (clamp a b (scale T a b x)) = true
                /\ fp_le (clamp a b (scale T a b x)) b = true)
            /\ (fp_is_nan (scale T a b x) = true ->
                clamp a b (scale T a b x) = scale T a b x))
  /\ (forall (p : nat) (m : gmap nat spec_float),
        (forall i, below n i -> is_Some (m !! (p + i)%nat)) ->
        exists m',
          usm_api.range_transform_fp_accurate T a b n p m = Some m'
          /\ forall i x, below n i -> m !! (p + i)%nat = Some x ->
               m' !! (p + i)%nat = Some (clamp a b (scale T a b x))
               /\ (fp_is_nan (scale T a b x) = false ->
                   fp_le a (clamp a b (scale T a b x)) = true
                   /\ fp_le (clamp a b (scale T a b x)) b = true)).
Proof.
  intros Hab Hn. split.
  - intros r Hlen.
    destruct (buffer_in_place_run (fp_accurate_elem T a b)
                (buffer_api.range_transform_fp_accurate_item T a b) n r)
      as (r' & Hrun & _ & Hin & _);
      [apply buf_range_transform_fp_accurate_item_pointwise|assumption..| |].
    { intros. apply fp_accurate_elem_is_Some. }
    exists r'. split; [exact Hrun|]. intros i x Hi Hx.
    split; [exact (Hin i x Hi Hx)|]. split.
    + now apply clamp_closed.
    + apply clamp_nan.
  - intros p m Hcells.
    destruct (usm_in_place_run (fp_accurate_elem T a b)
                (usm_api.range_transform_fp_accurate_item T a b p) n p m)
      as (m' & Hrun & Hin & _);
      [apply usm_range_transform_fp_accurate_item_pointwise|assumption| |].
    { intros i Hi. destruct (Hcells i Hi) as [x Hx]. exists x.
      split; [exact Hx|apply fp_accurate_elem_is_Some]. }
    exists m'. split; [exact Hrun|]. intros i x Hi Hx.
    split; [exact (Hin i x Hi Hx)|]. now apply clamp_closed.
Qed.

Lemma range_transform_fp_accurate_clamps_witness :
  exists r',
    buffer_api.range_transform_fp_accurate double
      (fp_of_Z double 0) (fp_of_Z double 10) 2
      [fp_ratio double 1 4; fp_ratio double 99 100] = Some r'
    /\ forall i x, below 2 i ->
         [fp_ratio double 1 4; fp_ratio double 99 100] !! i = Some x ->
         r' !! i
         = Some (clamp (fp_of_Z double 0) (fp_of_Z double 10)
                   (scale double (fp_of_Z double 0) (fp_of_Z double 10) x))
         /\ (fp_is_nan
               (scale double (fp_of_Z double 0) (fp_of_Z double 10) x) = false ->
             fp_le (fp_of_Z double 0)
               (clamp (fp_of_Z double 0) (fp_of_Z double 10)
                  (scale double (fp_of_Z double 0) (fp_of_Z double 10) x))
             = true
             /\ fp_le
                  (clamp (fp_of_Z double 0) (fp_of_Z double 10)
                     (scale double (fp_of_Z double 0) (fp_of_Z double 10) x))
                  (fp_of_Z double 10) = true)
         /\ (fp_is_nan
               (scale double (fp_of_Z double 0) (fp_of_Z double 10) x) = true ->
             clamp (fp_of_Z double 0) (fp_of_Z double 10)
               (scale double (fp_of_Z double 0) (fp_of_Z double 10) x)
             = scale double (fp_of_Z double 0) (fp_of_Z double 10) x).
Proof.
  assert (Hn : int64_count 2) by (vm_compute; intuition discriminate).
  exact (proj1 (range_transform_fp_accurate_clamps double
                  (fp_of_Z double 0) (fp_of_Z double 10) 2 eq_refl Hn)
           [fp_ratio double 1 4; fp_ratio double 99 100]
           ltac:(vm_compute; discriminate)).
Defined.

(** C3, at the failing input: in both formats, for the bounds
    [a = 1 < b = 2] and the one-element buffer holding the largest sample
    below 1, a sample of [0, 1), the plain transform (buffer and USM
    variant) completes and leaves [b] itself in the buffer: the result is
    at least [a] but not below [b], so it does not lie in [a, b). *)
Theorem range_transform_fp_reaches_upper_bound (T : fp_type) :
  fp_lt (fp_one T) (fp_two T) = true
  /\ unit_sample T (fp_below_one T)
  /\ buffer_api.range_transform_fp T (fp_one T) (fp_two T) 1
       [fp_below_one T] = Some [fp_two T]
  /\ usm_api.range_transform_fp T (fp_one T) (fp_two T) 1 0
       {[0%nat := fp_below_one T]} = Some {[0%nat := fp_two T]}
  /\ ~ (fp_le (fp_one T) (fp_two T) = true
        /\ fp_lt (fp_two T) (fp_two T) = true).
Proof.
  split; [apply fp_one_lt_two|]. split; [apply fp_below_one_sample|].
  split; [now destruct T|]. split; [destruct T; vm_compute; reflexivity|].
  intros [_ H]. now rewrite fp_lt_irrefl in H.
Qed.

(** The plain transform, for every pair of bounds and every buffer: it
    completes for a count within the buffer, overwrites each of the first
    [n] elements [x] with [fp_elem T a b x] and leaves the other elements as
    they were; buffer and USM variants. *)
Lemma range_transform_fp_in_place
    (T : fp_type) (a b : spec_float) (n : Z) :
  int64_count n ->
  (forall r : list spec_float,
     n <= Z.of_nat (length r) ->
     exists r',
       buffer_api.range_transform_fp T a b n r = Some r'
       /\ length r' = length r
       /\ (forall i x, below n i -> r !! i = Some x ->
             r' !! i = Some (scale T a b x))
       /\ (forall i, ~ below n i -> r' !! i = r !! i))
  /\ (forall (p : nat) (m : gmap nat spec_float),
        (forall i, below n i -> is_Some (m !! (p + i)%nat)) ->
        exists m',
          usm_api.range_transform_fp T a b n p m = Some m'
          /\ (forall i x, below n i -> m !! (p + i)%nat = Some x ->
                m' !! (p + i)%nat = Some (scale T a b x))
          /\ (forall k, (forall i, below n i -> k <> (p + i)%nat) ->
                m' !! k = m !! k)).
Proof.
  intros Hn. split.
  - intros r Hlen.
    destruct (buffer_in_place_run (fp_elem T a b)
                (buffer_api.range_transform_fp_item T a b) n r)
      as (r' & Hrun & Hl & Hin & Hout);
      [apply buf_range_transform_fp_item_pointwise|assumption..| |].
    { intros. apply fp_elem_is_Some. }
    exists r'. split; [exact Hrun|]. split; [exact Hl|].
    split; [exact Hin|exact Hout].
  - intros p m Hcells.
    destruct (usm_in_place_run (fp_elem T a b)
                (usm_api.range_transform_fp_item T a b p) n p m)
      as (m' & Hrun & Hin & Hout);
      [apply usm_range_transform_fp_item_pointwise|assumption| |].
    { intros i Hi. destruct (Hcells i Hi) as [x Hx]. exists x.
      split; [exact Hx|apply fp_elem_is_Some]. }
    exists m'. split; [exact Hrun|]. split; [exact Hin|exact Hout].
Qed.

(** X19. What the plain transform does guarantee. For bounds [a < b] of
    the format whose difference [b - a] does not overflow, it completes
    for a count within the buffer, overwrites each of the first [n]
    elements [x] with the value of [x * (b - a) + a] and leaves the other
    elements as they were; when [x] is a sample of [0, 1) that value is
    finite and lies in the closed interval [[a, b]]: at least [a] and at
    most [b], which it can reach. Buffer and USM variants. *)
Theorem range_transform_fp_rescales_in_place
    (T : fp_type) (a b : spec_float) (n : Z) :
  fp_valid T a = true -> fp_valid T b = true -> fp_lt a b = true ->
  fp_is_finite (fp_sub T b a) = true ->
  int64_count n ->
  (forall r : list spec_float,
     n <= Z.of_nat (length r) ->
     exists r',
       buffer_api.range_transform_fp T a b n r = Some r'
       /\ length r' = length r
       /\ (forall i x, below n i -> r !! i = Some x ->
             exists y,
               r' !! i = Some y
               /\ y = fp_add T (fp_mul T x (fp_sub T b a)) a
               /\ (unit_sample T x ->
                   fp_is_finite y = true
                   /\ fp_le a y = true /\ fp_le y b = true))
       /\ (forall i, ~ below n i -> r' !! i = r !! i))
  /\ (forall (p : nat) (m : gmap nat spec_float),
        (forall i, below n i -> is_Some (m !! (p + i)%nat)) ->
        exists m',
          usm_api.range_transform_fp T a b n p m = Some m'
          /\ (forall i x, below n i -> m !! (p + i)%nat = Some x ->
                exists y,
                  m' !! (p + i)%nat = Some y
                  /\ y = fp_add T (fp_mul T x (fp_sub T b a)) a
                  /\ (unit_sample T x ->
                      fp_is_finite y = true
                      /\ fp_le a y = true /\ fp_le y b = true))
          /\ (forall k, (forall i, below n i -> k <> (p + i)%nat) ->
                m' !! k = m !! k)).
Proof.
  intros Va Vb Hab Hd Hn.
  destruct (range_transform_fp_in_place T a b n Hn) as [Hbuf Husm]. split.
  - intros r Hlen. destruct (Hbuf r Hlen) as (r' & Hrun & Hl & Hin & Hout).
    exists r'. split; [exact Hrun|]. split; [exact Hl|]. split; [|exact Hout].
    intros i x Hi Hx. exists (scale T a b x).
    split; [exact (Hin i x Hi Hx)|]. split; [reflexivity|].
    now apply scale_closed.
  - intros p m Hcells. destruct (Husm p m Hcells) as (m' & Hrun & Hin & Hout).
    exists m'. split; [exact Hrun|]. split; [|exact Hout].
    intros i x Hi Hx. exists (scale T a b x).
    split; [exact (Hin i x Hi Hx)|]. split; [reflexivity|].
    now apply scale_closed.
Qed.

(** The scenario of the specification: [a = 0], [b = 10], [n = 4] and the
    inputs 0.0, 0.25, 0.5, 0.99. *)
Lemma range_transform_fp_rescales_in_place_witness :
  exists r',
    buffer_api.range_transform_fp double (fp_of_Z double 0)
      (fp_of_Z double 10) 4
      [fp_of_Z double 0; fp_ratio double 1 4; fp_ratio double 1 2;
       fp_ratio double 99 100] = Some r'
    /\ length r' = 4%nat
    /\ (forall i x, below 4 i ->
          [fp_of_Z double 0; fp_ratio double 1 4; fp_ratio double 1 2;
           fp_ratio double 99 100] !! i = Some x ->
          exists y,
            r' !! i = Some y
            /\ y = fp_add double
                     (fp_mul double x
                        (fp_sub double (fp_of_Z double 10) (fp_of_Z double 0)))
                     (fp_of_Z double 0)
            /\ (unit_sample double x ->
                fp_is_finite y = true
                /\ fp_le (fp_of_Z double 0) y = true
                /\ fp_le y (fp_of_Z double 10) = true))
    /\ (forall i, ~ below 4 i ->
          r' !! i
          = [fp_of_Z double 0; fp_ratio double 1 4; fp_ratio double 1 2;
             fp_ratio double 99 100] !! i).
Proof.
  assert (Hn : int64_count 4) by (vm_compute; intuition discriminate).
  exact (proj1 (range_transform_fp_rescales_in_place double
                  (fp_of_Z double 0) (fp_of_Z double 10) 4
                  eq_refl eq_refl eq_refl eq_refl Hn)
           [fp_of_Z double 0; fp_ratio double 1 4; fp_ratio double 1 2;
            fp_ratio double 99 100]
           ltac:(vm_compute; discriminate)).
Defined.

(** That scenario yields 0.0, 2.5, 5.0, 9.9, in binary64 and in
    binary32. *)
Lemma range_transform_fp_scenario T :
  buffer_api.range_transform_fp T (fp_of_Z T 0) (fp_of_Z T 10) 4
    [fp_of_Z T 0; fp_ratio T 1 4; fp_ratio T 1 2; fp_ratio T 99 100]
  = Some [fp_of_Z T 0; fp_ratio T 5 2; fp_of_Z T 5; fp_ratio T 99 10].
Proof. destruct T; vm_compute; reflexivity. Qed.

Lemma below_2_cases i : below 2 i -> i = 0%nat \/ i = 1%nat.
Proof. unfold below. lia. Qed.

Lemma fp_le_not_gt x y : fp_le x y = true -> fp_lt y x = false.
Proof.
  unfold fp_le, fp_lt, SFleb, SFltb. rewrite (SFcompare_swap x y).
  now destruct (SFcompare x y) as [[]|].
Qed.

(** On a sample of [0, 1) the clamp has nothing to do. *)
Lemma clamp_scale_unit T a b x :
  fp_valid T a = true -> fp_valid T b = true -> fp_lt a b = true ->
  fp_is_finite (fp_sub T b a) = true ->
  unit_sample T x ->
  clamp a b (scale T a b x) = scale T a b x.
Proof.
  intros Va Vb Hab Hd Hx.
  destruct (scale_closed T a b x Va Vb Hab Hd Hx) as (_ & Hlo & Hhi).
  unfold clamp. rewrite (fp_le_not_gt _ _ Hlo).
  change (fp_gt (scale T a b x) b) with (fp_lt b (scale T a b x)).
  now rewrite (fp_le_not_gt _ _ Hhi).
Qed.

(** X5. For bounds [a < b] of the format whose difference does not
    overflow and inputs that are samples of [0, 1), the accurate transform
    never clamps: it leaves exactly what the plain transform leaves, in the
    buffer variant and in the USM variant. *)
Theorem range_transform_fp_accurate_never_clamps
    (T : fp_type) (a b : spec_float) (n : Z) :
  fp_valid T a = true -> fp_valid T b = true -> fp_lt a b = true ->
  fp_is_finite (fp_sub T b a) = true ->
  int64_count n ->
  (forall r : list spec_float,
     n <= Z.of_nat (length r) ->
     (forall i x, below n i -> r !! i = Some x -> unit_sample T x) ->
     buffer_api.range_transform_fp_accurate T a b n r
     = buffer_api.range_transform_fp T a b n r)
  /\ (forall (p : nat) (m : gmap nat spec_float),
        (forall i, below n i ->
           exists x, m !! (p + i)%nat = Some x /\ unit_sample T x) ->
        usm_api.range_transform_fp_accurate T a b n p m
        = usm_api.range_transform_fp T a b n p m).
Proof.
  intros Va Vb Hab Hd Hn.
  destruct (range_transform_fp_in_place T a b n Hn) as [Hbuf Husm]. split.
  - intros r Hlen Hr.
    destruct (Hbuf r Hlen) as (r2 & -> & L2 & In2 & Out2).
    destruct (buffer_in_place_run (fp_accurate_elem T a b)
                (buffer_api.range_transform_fp_accurate_item T a b) n r)
      as (r1 & Hrun & L1 & In1 & Out1);
      [apply buf_range_transform_fp_accurate_item_pointwise|assumption..| |].
    { intros. apply fp_accurate_elem_is_Some. }
    unfold buffer_api.range_transform_fp_accurate. rewrite Hrun. f_equal.
    apply list_eq. intros i.
    destruct (decide (Z.of_nat i < n)) as [Hi|Hi].
    + destruct (lookup_lt_is_Some_2 r i) as [x Hx]; [lia|].
      rewrite (In1 i x Hi Hx), (In2 i x Hi Hx). unfold fp_accurate_elem.
      f_equal. apply clamp_scale_unit; try assumption. exact (Hr i x Hi Hx).
    + now rewrite (Out1 i Hi), (Out2 i Hi).
  - intros p m Hm.
    destruct (Husm p m) as (m2 & -> & In2 & Out2).
    { intros i Hi. destruct (Hm i Hi) as (x & Hx & _). eauto. }
    destruct (usm_in_place_run (fp_accurate_elem T a b)
                (usm_api.range_transform_fp_accurate_item T a b p) n p m)
      as (m1 & Hrun & In1 & Out1);
      [apply usm_range_transform_fp_accurate_item_pointwise|assumption| |].
    { intros i Hi. destruct (Hm i Hi) as (x & Hx & _). exists x.
      split; [exact Hx|apply fp_accurate_elem_is_Some]. }
    unfold usm_api.range_transform_fp_accurate. rewrite Hrun. f_equal.
    apply map_eq. intros k.
    destruct (decide (p <= k)%nat) as [Hpk|Hpk];
      [destruct (decide (Z.of_nat (k - p) < n)) as [Hi|Hi]|].
    + replace k with (p + (k - p))%nat by lia.
      destruct (Hm (k - p)%nat Hi) as (x & Hx & Ux).
      rewrite (In1 _ x Hi Hx), (In2 _ x Hi Hx). unfold fp_accurate_elem.
      f_equal. now apply clamp_scale_unit.
    + rewrite Out1, Out2; [reflexivity|intros i Hi' ->..];
        apply Hi; unfold below in Hi'; now replace (p + i - p)%nat with i by lia.
    + rewrite Out1, Out2; [reflexivity|intros i Hi' ->..]; lia.
Qed.

Lemma range_transform_fp_accurate_never_clamps_witness :
  buffer_api.range_transform_fp_accurate double
    (fp_of_Z double 0) (fp_of_Z double 10) 2
    [fp_ratio double 1 4; fp_ratio double 99 100]
  = buffer_api.range_transform_fp double
      (fp_of_Z double 0) (fp_of_Z double 10) 2
      [fp_ratio double 1 4; fp_ratio double 99 100].
Proof.
  assert (Hn : int64_count 2) by (vm_compute; intuition discriminate).
  refine (proj1 (range_transform_fp_accurate_never_clamps double
                   (fp_of_Z double 0) (fp_of_Z double 10) 2
                   eq_refl eq_refl eq_refl eq_refl Hn) _ _ _).
  - vm_compute. discriminate.
  - intros i x [-> | ->]%below_2_cases [= <-]; vm_compute; auto.
Defined.

(* ===================================================================== *)
(** * Buffer API against USM API *)
(* ===================================================================== *)







(* ===================================================================== *)
(** * Independence of the work-items *)
(* ===================================================================== *)

Lemma buffer_in_place_two_runs {A} (g : A -> option A) body n
    (r1 r2 : list A) (i : nat) :
  (forall id s, body id s = pointwise (buffer_cells A) g id s) ->
  (forall x, is_Some (g x)) ->
  int64_count n -> below n i ->
  n <= Z.of_nat (length r1) -> n <= Z.of_nat (length r2) ->
  r1 !! i = r2 !! i ->
  exists r1' r2',
    parallel_for n body r1 = Some r1' /\ parallel_for n body r2 = Some r2'
    /\ r1' !! i = r2' !! i.
Proof.
  intros Hbody Hg Hn Hi Hl1 Hl2 Heq.
  destruct (buffer_in_place_run g body n r1 Hbody Hn Hl1)
    as (r1' & Hrun1 & _ & Hin1 & _); [intros; apply Hg|].
  destruct (buffer_in_place_run g body n r2 Hbody Hn Hl2)
    as (r2' & Hrun2 & _ & Hin2 & _); [intros; apply Hg|].
  exists r1', r2'. split; [exact Hrun1|]. split; [exact Hrun2|].
  destruct (lookup_lt_is_Some_2 r1 i) as [x Hx]; [unfold below in Hi; lia|].
  rewrite (Hin1 i x Hi Hx), (Hin2 i x Hi); [reflexivity|].
  now rewrite <- Heq.
Qed.

Lemma buffer_pair_two_runs {A B} (g : A -> option B) body n
    (in1 in2 : list A) (out1 out2 : list B) (i : nat) :
  (forall id s, body id s = pointwise (buffer_pair_cells A B) g id s) ->
  (forall x, is_Some (g x)) ->
  int64_count n -> below n i ->
  n <= Z.of_nat (length in1) -> n <= Z.of_nat (length in2) ->
  n <= Z.of_nat (length out1) -> n <= Z.of_nat (length out2) ->
  in1 !! i = in2 !! i ->
  exists out1' out2',
    parallel_for n body (in1, out1) = Some (in1, out1')
    /\ parallel_for n body (in2, out2) = Some (in2, out2')
    /\ out1' !! i = out2' !! i.
Proof.
  intros Hbody Hg Hn Hi Hl1 Hl2 Hl3 Hl4 Heq.
  destruct (buffer_pair_run g body n in1 out1 Hbody Hn Hl1 Hl3)
    as (o1 & Hrun1 & _ & Hin1 & _); [intros; apply Hg|].
  destruct (buffer_pair_run g body n in2 out2 Hbody Hn Hl2 Hl4)
    as (o2 & Hrun2 & _ & Hin2 & _); [intros; apply Hg|].
  exists o1, o2. split; [exact Hrun1|]. split; [exact Hrun2|].
  destruct (lookup_lt_is_Some_2 in1 i) as [x Hx]; [unfold below in Hi; lia|].
  rewrite (Hin1 i x Hi Hx), (Hin2 i x Hi); [reflexivity|].
  now rewrite <- Heq.
Qed.

Lemma usm_in_place_two_runs {A} (g : A -> option A) body n (p : nat)
    (m1 m2 : gmap nat A) (i : nat) :
  (forall id s, body id s = pointwise (usm_cells A p) g id s) ->
  (forall x, is_Some (g x)) ->
  int64_count n -> below n i ->
  (forall j, below n j ->
     is_Some (m1 !! (p + j)%nat) /\ is_Some (m2 !! (p + j)%nat)) ->
  m1 !! (p + i)%nat = m2 !! (p + i)%nat ->
  exists m1' m2',
    parallel_for n body m1 = Some m1' /\ parallel_for n body m2 = Some m2'
    /\ m1' !! (p + i)%nat = m2' !! (p + i)%nat.
Proof.
  intros Hbody Hg Hn Hi Hal Heq.
  destruct (usm_in_place_run g body n p m1 Hbody Hn)
    as (m1' & Hrun1 & Hin1 & _).
  { intros j Hj. destruct (Hal j Hj) as [[x Hx] _]. eauto. }
  destruct (usm_in_place_run g body n p m2 Hbody Hn)
    as (m2' & Hrun2 & Hin2 & _).
  { intros j Hj. destruct (Hal j Hj) as [_ [x Hx]]. eauto. }
  exists m1', m2'. split; [exact Hrun1|]. split; [exact Hrun2|].
  destruct (Hal i Hi) as [[x Hx] _].
  rewrite (Hin1 i x Hi Hx), (Hin2 i x Hi); [reflexivity|].
  now rewrite <- Heq.
Qed.

Lemma usm_int_two_runs T (g : Z -> option Z) body n (in_ out : nat)
    (m1 m2 : gmap nat Z) (i : nat) :
  (forall id s, body id s = pointwise (usm_int_cells T in_ out) g id s) ->
  (forall x v, g x = Some v -> in_range T v) ->
  (forall x, is_Some (g x)) ->
  int64_count n -> below n i ->
  no_cross_alias (below n) in_ out ->
  (forall j, below n j ->
     (is_Some (m1 !! (in_ + j)%nat) /\ is_Some (m1 !! (out + j)%nat))
     /\ is_Some (m2 !! (in_ + j)%nat) /\ is_Some (m2 !! (out + j)%nat)) ->
  m1 !! (in_ + i)%nat = m2 !! (in_ + i)%nat ->
  exists m1' m2',
    parallel_for n body m1 = Some m1' /\ parallel_for n body m2 = Some m2'
    /\ usm_load_int T m1' out i = usm_load_int T m2' out i.
Proof.
  intros Hbody Hval Hg Hn Hi Hno Hal Heq.
  destruct (usm_int_run T g body n in_ out m1 Hbody Hval Hn Hno)
    as (m1' & Hrun1 & Hin1 & _).
  { intros j Hj. destruct (Hal j Hj) as [[[x Hx] Ho] _]. split; [exact Ho|].
    exists (to_uint32 x). unfold usm_load_int, usm_load. rewrite Hx.
    split; [reflexivity|apply Hg]. }
  destruct (usm_int_run T g body n in_ out m2 Hbody Hval Hn Hno)
    as (m2' & Hrun2 & Hin2 & _).
  { intros j Hj. destruct (Hal j Hj) as [_ [[x Hx] Ho]]. split; [exact Ho|].
    exists (to_uint32 x). unfold usm_load_int, usm_load. rewrite Hx.
    split; [reflexivity|apply Hg]. }
  exists m1', m2'. split; [exact Hrun1|]. split; [exact Hrun2|].
  destruct (Hal i Hi) as [[[x Hx] _] _].
  assert (H1 : usm_load_int uint32_t m1 in_ i = Some (to_uint32 x))
    by (unfold usm_load_int, usm_load; now rewrite Hx).
  assert (H2 : usm_load_int uint32_t m2 in_ i = Some (to_uint32 x))
    by (unfold usm_load_int, usm_load; now rewrite <- Heq, Hx).
  now rewrite (Hin1 i _ Hi H1), (Hin2 i _ Hi H2).
Qed.

Lemma usm_pair_two_runs T (g : spec_float -> option Z) body n (in_ out : nat)
    (mf1 mf2 : gmap nat spec_float) (mi1 mi2 : gmap nat Z) (i : nat) :
  (forall id s, body id s = pointwise (usm_pair_cells T in_ out) g id s) ->
  (forall x v, g x = Some v -> in_range T v) ->
  (forall x, is_Some (g x)) ->
  int64_count n -> below n i ->
  (forall j, below n j ->
     (is_Some (mf1 !! (in_ + j)%nat) /\ is_Some (mi1 !! (out + j)%nat))
     /\ is_Some (mf2 !! (in_ + j)%nat) /\ is_Some (mi2 !! (out + j)%nat)) ->
  mf1 !! (in_ + i)%nat = mf2 !! (in_ + i)%nat ->
  exists mi1' mi2',
    parallel_for n body (mf1, mi1) = Some (mf1, mi1')
    /\ parallel_for n body (mf2, mi2) = Some (mf2, mi2')
    /\ usm_load_int T mi1' out i = usm_load_int T mi2' out i.
Proof.
  intros Hbody Hval Hg Hn Hi Hal Heq.
  destruct (usm_pair_run T g body n in_ out mf1 mi1 Hbody Hval Hn)
    as (mi1' & Hrun1 & Hin1 & _).
  { intros j Hj. destruct (Hal j Hj) as [[[x Hx] Ho] _]. split; [exact Ho|].
    exists x. split; [exact Hx|apply Hg]. }
  destruct (usm_pair_run T g body n in_ out mf2 mi2 Hbody Hval Hn)
    as (mi2' & Hrun2 & Hin2 & _).
  { intros j Hj. destruct (Hal j Hj) as [_ [[x Hx] Ho]]. split; [exact Ho|].
    exists x. split; [exact Hx|apply Hg]. }
  exists mi1', mi2'. split; [exact Hrun1|]. split; [exact Hrun2|].
  destruct (Hal i Hi) as [[[x Hx] _] _].
  rewrite (Hin1 i x Hi Hx), (Hin2 i x Hi); [reflexivity|].
  now rewrite <- Heq.
Qed.

Lemma range_int_expr_is_Some T a b :
  in_range T a -> in_range T b -> a < b ->
  forall x, is_Some (range_int_expr T a b x).
Proof. intros Ha Hb Hab x. rewrite range_int_expr_spec by assumption. eauto. Qed.

Lemma bernoulli_elem_is_Some p x : is_Some (bernoulli_elem p x).
Proof. unfold bernoulli_elem. eauto. Qed.

(** C9. For every transform, in both variants, and every index [i] below
    the count: two runs with the same scalar parameters on inputs that
    agree at index [i] -- and may differ at every other index -- both
    complete and leave the same value in output element [i]. *)
Theorem output_depends_on_own_input_only (n : Z) (i : nat) :
  int64_count n -> below n i ->
  (forall T a b (r1 r2 : list spec_float),
     n <= Z.of_nat (length r1) -> n <= Z.of_nat (length r2) ->
     r1 !! i = r2 !! i ->
     exists r1' r2',
       buffer_api.range_transform_fp T a b n r1 = Some r1'
       /\ buffer_api.range_transform_fp T a b n r2 = Some r2'
       /\ r1' !! i = r2' !! i)
  /\ (forall T a b (r1 r2 : list spec_float),
        n <= Z.of_nat (length r1) -> n <= Z.of_nat (length r2) ->
        r1 !! i = r2 !! i ->
        exists r1' r2',
          buffer_api.range_transform_fp_accurate T a b n r1 = Some r1'
          /\ buffer_api.range_transform_fp_accurate T a b n r2 = Some r2'
          /\ r1' !! i = r2' !! i)
  /\ (forall T a b (in1 in2 out1 out2 : list Z),
        in_range T a -> in_range T b -> a < b ->
        n <= Z.of_nat (length in1) -> n <= Z.of_nat (length in2) ->
        n <= Z.of_nat (length out1) -> n <= Z.of_nat (length out2) ->
        in1 !! i = in2 !! i ->
        exists out1' out2',
          buffer_api.range_transform_int T a b n in1 out1 = Some (in1, out1')
          /\ buffer_api.range_transform_int T a b n in2 out2
             = Some (in2, out2')
          /\ out1' !! i = out2' !! i)
  /\ (forall p (in1 in2 : list spec_float) (out1 out2 : list Z),
        n <= Z.of_nat (length in1) -> n <= Z.of_nat (length in2) ->
        n <= Z.of_nat (length out1) -> n <= Z.of_nat (length out2) ->
        in1 !! i = in2 !! i ->
        exists out1' out2',
          buffer_api.sample_bernoulli_from_uniform p n in1 out1
          = Some (in1, out1')
          /\ buffer_api.sample_bernoulli_from_uniform p n in2 out2
             = Some (in2, out2')
          /\ out1' !! i = out2' !! i)
  /\ (forall T a b (p : nat) (m1 m2 : gmap nat spec_float),
        (forall j, below n j ->
           is_Some (m1 !! (p + j)%nat) /\ is_Some (m2 !! (p + j)%nat)) ->
        m1 !! (p + i)%nat = m2 !! (p + i)%nat ->
        exists m1' m2',
          usm_api.range_transform_fp T a b n p m1 = Some m1'
          /\ usm_api.range_transform_fp T a b n p m2 = Some m2'
          /\ m1' !! (p + i)%nat = m2' !! (p + i)%nat)
  /\ (forall T a b (p : nat) (m1 m2 : gmap nat spec_float),
        (forall j, below n j ->
           is_Some (m1 !! (p + j)%nat) /\ is_Some (m2 !! (p + j)%nat)) ->
        m1 !! (p + i)%nat = m2 !! (p + i)%nat ->
        exists m1' m2',
          usm_api.range_transform_fp_accurate T a b n p m1 = Some m1'
          /\ usm_api.range_transform_fp_accurate T a b n p m2 = Some m2'
          /\ m1' !! (p + i)%nat = m2' !! (p + i)%nat)
  /\ (forall T a b (in_ out : nat) (m1 m2 : gmap nat Z),
        in_range T a -> in_range T b -> a < b ->
        no_cross_alias (below n) in_ out ->
        (forall j, below n j ->
           (is_Some (m1 !! (in_ + j)%nat) /\ is_Some (m1 !! (out + j)%nat))
           /\ is_Some (m2 !! (in_ + j)%nat) /\ is_Some (m2 !! (out + j)%nat)) ->
        m1 !! (in_ + i)%nat = m2 !! (in_ + i)%nat ->
        exists m1' m2',
          usm_api.range_transform_int T a b n in_ out m1 = Some m1'
          /\ usm_api.range_transform_int T a b n in_ out m2 = Some m2'
          /\ usm_load_int T m1' out i = usm_load_int T m2' out i)
  /\ (forall T p (in_ out : nat) (mf1 mf2 : gmap nat spec_float)
             (mi1 mi2 : gmap nat Z),
        (forall j, below n j ->
           (is_Some (mf1 !! (in_ + j)%nat) /\ is_Some (mi1 !! (out + j)%nat))
           /\ is_Some (mf2 !! (in_ + j)%nat)
              /\ is_Some (mi2 !! (out + j)%nat)) ->
        mf1 !! (in_ + i)%nat = mf2 !! (in_ + i)%nat ->
        exists mi1' mi2',
          usm_api.sample_bernoulli_from_uniform p n in_ out mf1 mi1
          = Some (mf1, mi1')
          /\ usm_api.sample_bernoulli_from_uniform p n in_ out mf2 mi2
             = Some (mf2, mi2')
          /\ usm_load_int T mi1' out i = usm_load_int T mi2' out i).
Proof.
  intros Hn Hi. repeat apply conj.
  - intros T a b r1 r2.
    exact (buffer_in_place_two_runs (fp_elem T a b) _ n r1 r2 i
             (buf_range_transform_fp_item_pointwise T a b)
             (fp_elem_is_Some T a b) Hn Hi).
  - intros T a b r1 r2.
    exact (buffer_in_place_two_runs (fp_accurate_elem T a b) _ n r1 r2 i
             (buf_range_transform_fp_accurate_item_pointwise T a b)
             (fp_accurate_elem_is_Some T a b) Hn Hi).
  - intros T a b in1 in2 out1 out2 Ha Hb Hab.
    exact (buffer_pair_two_runs (range_int_expr T a b) _ n in1 in2 out1 out2 i
             (buf_range_transform_int_item_pointwise T a b)
             (range_int_expr_is_Some T a b Ha Hb Hab) Hn Hi).
  - intros p in1 in2 out1 out2.
    exact (buffer_pair_two_runs (bernoulli_elem p) _ n in1 in2 out1 out2 i
             (buf_sample_bernoulli_item_pointwise p)
             (bernoulli_elem_is_Some p) Hn Hi).
  - intros T a b p m1 m2.
    exact (usm_in_place_two_runs (fp_elem T a b) _ n p m1 m2 i
             (usm_range_transform_fp_item_pointwise T a b p)
             (fp_elem_is_Some T a b) Hn Hi).
  - intros T a b p m1 m2.
    exact (usm_in_place_two_runs (fp_accurate_elem T a b) _ n p m1 m2 i
             (usm_range_transform_fp_accurate_item_pointwise T a b p)
             (fp_accurate_elem_is_Some T a b) Hn Hi).
  - intros T a b in_ out m1 m2 Ha Hb Hab.
    exact (usm_int_two_runs T (range_int_expr T a b) _ n in_ out m1 m2 i
             (usm_range_transform_int_item_pointwise T a b in_ out)
             (range_int_expr_val T a b)
             (range_int_expr_is_Some T a b Ha Hb Hab) Hn Hi).
  - intros T p in_ out mf1 mf2 mi1 mi2.
    exact (usm_pair_two_runs T (bernoulli_elem p) _ n in_ out mf1 mf2 mi1 mi2 i
             (usm_sample_bernoulli_item_pointwise T p in_ out)
             (bernoulli_elem_val T p)
             (bernoulli_elem_is_Some p) Hn Hi).
Qed.

(** Two runs of the integer transform whose raw inputs agree at index 1
    only. *)
Lemma output_depends_on_own_input_only_witness :
  exists out1' out2',
    buffer_api.range_transform_int int32_t (-7) 3 2 [4294967295; 12] [0; 0]
    = Some ([4294967295; 12], out1')
    /\ buffer_api.range_transform_int int32_t (-7) 3 2 [8; 12] [1; 1; 1]
       = Some ([8; 12], out2')
    /\ out1' !! 1%nat = out2' !! 1%nat.
Proof.
  assert (Ha : in_range int32_t (-7)) by (vm_compute; intuition discriminate).
  assert (Hb : in_range int32_t 3) by (vm_compute; intuition discriminate).
  assert (Hn : int64_count 2) by (vm_compute; intuition discriminate).
  assert (Hi : below 2 1) by reflexivity.
  exact (proj1 (proj2 (proj2 (output_depends_on_own_input_only 2 1 Hn Hi)))
           int32_t (-7) 3 [4294967295; 12] [8; 12] [0; 0] [1; 1; 1]
           Ha Hb eq_refl
           ltac:(vm_compute; discriminate) ltac:(vm_compute; discriminate)
           ltac:(vm_compute; discriminate) ltac:(vm_compute; discriminate)
           eq_refl).
Defined.

(* ===================================================================== *)
(** * The input buffers are read only *)
(* ===================================================================== *)

Lemma buffer_pair_frame {A B} (g : A -> option B) body n
    (s s' : list A * list B) :
  (forall id s, body id s = pointwise (buffer_pair_cells A B) g id s) ->
  parallel_for n body s = Some s' -> s'.1 = s.1.
Proof.
  intros Hbody. rewrite (parallel_for_ext body _ n s Hbody).
  apply (run_items_preserves (fun t => t.1 = s.1)); [|reflexivity].
  intros id [t1 t2] t' _ Ht Hstep. unfold pointwise in Hstep. simpl in *.
  destruct (acc_read t1 id) as [x|]; simpl in Hstep; [|discriminate].
  destruct (g x) as [v|]; simpl in Hstep; [|discriminate].
  destruct (acc_write t2 id v); simpl in Hstep; [|discriminate].
  now injection Hstep as <-.
Qed.

Lemma usm_pair_frame T (g : spec_float -> option Z) body n (in_ out : nat)
    (s s' : gmap nat spec_float * gmap nat Z) :
  (forall id s, body id s = pointwise (usm_pair_cells T in_ out) g id s) ->
  parallel_for n body s = Some s' -> s'.1 = s.1.
Proof.
  intros Hbody. rewrite (parallel_for_ext body _ n s Hbody).
  apply (run_items_preserves (fun t => t.1 = s.1)); [|reflexivity].
  intros id [t1 t2] t' _ Ht Hstep. unfold pointwise in Hstep. simpl in *.
  destruct (usm_load t1 in_ id) as [x|]; simpl in Hstep; [|discriminate].
  destruct (g x) as [v|]; simpl in Hstep; [|discriminate].
  destruct (usm_store_int t2 out id v); simpl in Hstep; [|discriminate].
  now injection Hstep as <-.
Qed.

Lemma usm_int_frame T (g : Z -> option Z) body n (in_ out : nat)
    (m m' : gmap nat Z) :
  (forall id s, body id s = pointwise (usm_int_cells T in_ out) g id s) ->
  int64_count n ->
  disjoint_ranges (below n) in_ out ->
  parallel_for n body m = Some m' ->
  forall i, below n i -> m' !! (in_ + i)%nat = m !! (in_ + i)%nat.
Proof.
  intros Hbody Hn Hdis. rewrite (parallel_for_ext body _ n m Hbody).
  apply (run_items_preserves
           (fun t => forall i, below n i ->
                               t !! (in_ + i)%nat = m !! (in_ + i)%nat));
    [|reflexivity].
  intros id t t' Hid%(elem_of_range1 n id Hn) Ht Hstep i Hi.
  unfold pointwise in Hstep. simpl in Hstep.
  destruct (usm_load_int uint32_t t in_ id) as [x|]; simpl in Hstep;
    [|discriminate].
  destruct (g x) as [v|]; simpl in Hstep; [|discriminate].
  apply usm_store_Some in Hstep as [_ ->].
  rewrite lookup_insert_ne; [now apply Ht|].
  intros E. now apply (Hdis i id Hi Hid).
Qed.

(** C10. The integer range transform and the Bernoulli transform do not
    modify their input. Buffer variant: whenever the kernel completes, the
    input buffer is the one passed in. USM variant: the Bernoulli kernel
    leaves the float memory as it was, and the integer kernel, when the
    cells it writes are apart from the cells it reads, leaves each of the
    first [n] input cells as it was. For counts within the buffers (and
    ordered bounds) the buffer kernels do complete. *)
Theorem input_is_left_unchanged (n : Z) :
  int64_count n ->
  (forall T a b (in_ out : list Z) s',
     buffer_api.range_transform_int T a b n in_ out = Some s' -> s'.1 = in_)
  /\ (forall p (in_ : list spec_float) (out : list Z) s',
        buffer_api.sample_bernoulli_from_uniform p n in_ out = Some s' ->
        s'.1 = in_)
  /\ (forall T a b (in_ out : nat) (m m' : gmap nat Z),
        disjoint_ranges (below n) in_ out ->
        usm_api.range_transform_int T a b n in_ out m = Some m' ->
        forall i, below n i -> m' !! (in_ + i)%nat = m !! (in_ + i)%nat)
  /\ (forall p (in_ out : nat) (mf : gmap nat spec_float) (mi : gmap nat Z) s',
        usm_api.sample_bernoulli_from_uniform p n in_ out mf mi = Some s' ->
        s'.1 = mf)
  /\ (forall T a b (in_ out : list Z),
        in_range T a -> in_range T b -> a < b ->
        n <= Z.of_nat (length in_) -> n <= Z.of_nat (length out) ->
        exists out',
          buffer_api.range_transform_int T a b n in_ out = Some (in_, out'))
  /\ (forall p (in_ : list spec_float) (out : list Z),
        n <= Z.of_nat (length in_) -> n <= Z.of_nat (length out) ->
        exists out',
          buffer_api.sample_bernoulli_from_uniform p n in_ out
          = Some (in_, out')).
Proof.
  intros Hn. repeat apply conj.
  - intros T a b in_ out s'.
    exact (buffer_pair_frame (range_int_expr T a b) _ n (in_, out) s'
             (buf_range_transform_int_item_pointwise T a b)).
  - intros p in_ out s'.
    exact (buffer_pair_frame (bernoulli_elem p) _ n (in_, out) s'
             (buf_sample_bernoulli_item_pointwise p)).
  - intros T a b in_ out m m'.
    exact (usm_int_frame T (range_int_expr T a b) _ n in_ out m m'
             (usm_range_transform_int_item_pointwise T a b in_ out) Hn).
  - intros p in_ out mf mi s'.
    exact (usm_pair_frame int32_t (bernoulli_elem p) _ n in_ out (mf, mi) s'
             (usm_sample_bernoulli_item_pointwise int32_t p in_ out)).
  - intros T a b in_ out Ha Hb Hab Hl1 Hl2.
    destruct (buffer_pair_run (range_int_expr T a b)
                (buffer_api.range_transform_int_item T a b) n in_ out)
      as (out' & Hrun & _);
      [apply buf_range_transform_int_item_pointwise|assumption..| |].
    { intros. now apply range_int_expr_is_Some. }
    exists out'. exact Hrun.
  - intros p in_ out Hl1 Hl2.
    destruct (buffer_pair_run (bernoulli_elem p)
                (buffer_api.sample_bernoulli_from_uniform_item p) n in_ out)
      as (out' & Hrun & _);
      [apply buf_sample_bernoulli_item_pointwise|assumption..| |].
    { intros. apply bernoulli_elem_is_Some. }
    exists out'. exact Hrun.
Qed.

(** The integer kernel on USM memory with the input at cells 0, 1 and the
    output at cells 2, 3. *)
Lemma input_is_left_unchanged_witness :
  exists m',
    usm_api.range_transform_int uint32_t 10 20 2 0 2
      (<[0%nat := 5]> (<[1%nat := 33]> (<[2%nat := 0]>
         (<[3%nat := 0]> (∅ : gmap nat Z))))) = Some m'
    /\ m' !! 0%nat = Some 5 /\ m' !! 1%nat = Some 33.
Proof.
  assert (Hn : int64_count 2) by (vm_compute; intuition discriminate).
  assert (Hdis : disjoint_ranges (below 2) 0 2).
  { intros i j Hi%below_2_cases Hj%below_2_cases. lia. }
  exists (<[0%nat := 5]> (<[1%nat := 33]> (<[2%nat := 15]>
            (<[3%nat := 13]> (∅ : gmap nat Z))))).
  assert (E : usm_api.range_transform_int uint32_t 10 20 2 0 2
                (<[0%nat := 5]> (<[1%nat := 33]> (<[2%nat := 0]>
                   (<[3%nat := 0]> (∅ : gmap nat Z)))))
              = Some (<[0%nat := 5]> (<[1%nat := 33]> (<[2%nat := 15]>
                        (<[3%nat := 13]> (∅ : gmap nat Z))))))
    by (vm_compute; reflexivity).
  split; [exact E|].
  pose proof (proj1 (proj2 (proj2 (input_is_left_unchanged 2 Hn)))
                uint32_t 10 20 0%nat 2%nat _ _ Hdis E) as H.
  split; [exact (H 0%nat eq_refl)|exact (H 1%nat eq_refl)].
Defined.

(* ===================================================================== *)
(** * The order of the work-items is immaterial *)
(* ===================================================================== *)

Section Schedules.

Context {S : Type}.
Variable D : nat -> Prop.
Variable body : work_item S.

(** Work-items of different ids commute, faults included. *)
Hypothesis body_commute : forall i j s,
  D i -> D j -> i <> j -> body i s ≫= body j = body j s ≫= body i.

Lemma run_items_perm ids1 ids2 :
  ids1 ≡ₚ ids2 -> NoDup ids1 -> (forall i, i ∈ ids1 -> D i) ->
  forall s, run_items body ids1 s = run_items body ids2 s.
Proof.
  induction 1 as [|x l l' Hp IH|x y l|l l' l'' Hp1 IH1 Hp2 IH2];
    intros Hnd HD s.
  - reflexivity.
  - apply NoDup_cons in Hnd as [_ Hnd]. rewrite !run_items_cons.
    destruct (body x s) as [s'|]; simpl; [|reflexivity].
    apply IH; [exact Hnd|]. intros i Hi. apply HD. now right.
  - apply NoDup_cons in Hnd as [Hy _]. apply not_elem_of_cons in Hy as [Hyx _].
    rewrite !run_items_cons.
    assert (Dx : D x) by (apply HD; right; left).
    assert (Dy : D y) by (apply HD; left).
    pose proof (body_commute y x s Dy Dx Hyx) as Hc.
    destruct (body y s) as [s1|], (body x s) as [s2|]; simpl in *;
      rewrite ?run_items_cons.
    + now rewrite Hc.
    + now rewrite Hc.
    + now rewrite <- Hc.
    + reflexivity.
  - rewrite IH1 by assumption. apply IH2.
    + now rewrite <- Hp1.
    + intros i Hi. apply HD. now rewrite Hp1.
Qed.

End Schedules.

Section PointwiseCommute.

Context {S A B : Type}.
Variable D : nat -> Prop.
Variable V : B -> Prop.
Variable c : cells S A B.
Hypothesis c_ok : cells_ok D V c.
Variable g : A -> option B.

Lemma pointwise_after_put i j v s s' :
  D i -> D j -> i <> j -> put c i v s = Some s' ->
  pointwise c g j s' = (x ← src c j s; w ← g x; put c j w s').
Proof.
  intros Di Dj Hij Hput. unfold pointwise.
  now rewrite (put_src_other D V c c_ok i j v s s' Di Dj Hij Hput).
Qed.

Lemma pointwise_commute i j s :
  D i -> D j -> i <> j ->
  pointwise c g i s ≫= pointwise c g j = pointwise c g j s ≫= pointwise c g i.
Proof.
  intros Di Dj Hij.
  assert (Hji : j <> i) by now apply not_eq_sym.
  assert (L : forall i j, D i -> D j -> i <> j ->
            pointwise c g i s ≫= pointwise c g j
            = (x ← src c i s; v ← g x; y ← src c j s; w ← g y;
               put c i v s ≫= put c j w)).
  { clear i j Di Dj Hij Hji. intros i j Di Dj Hij.
    destruct (src c i s) as [x|] eqn:Ex; simpl;
      [|now rewrite (pointwise_no_src c g i s Ex)].
    destruct (g x) as [v|] eqn:Ev; simpl;
      [|now rewrite (pointwise_no_val c g i s x Ex Ev)].
    rewrite (pointwise_step c g i s x v Ex Ev).
    destruct (put c i v s) as [s'|] eqn:E; simpl.
    - rewrite (pointwise_after_put i j v s s' Di Dj Hij E).
      destruct (src c j s) as [y|]; simpl; [|reflexivity].
      now destruct (g y).
    - destruct (src c j s) as [y|]; simpl; [|reflexivity].
      now destruct (g y). }
  rewrite (L i j Di Dj Hij), (L j i Dj Di Hji).
  destruct (src c i s) as [x|], (src c j s) as [y|]; simpl; try reflexivity.
  - destruct (g x) as [v|], (g y) as [w|]; simpl; try reflexivity.
    apply (put_commute D V c c_ok); assumption.
  - now destruct (g x).
  - now destruct (g y).
Qed.

(** Any schedule that runs every work-item of the index space once gives
    the result of any other. *)
Lemma run_pointwise_perm ids1 ids2 s :
  ids1 ≡ₚ ids2 -> NoDup ids1 -> (forall i, i ∈ ids1 -> D i) ->
  run_items (pointwise c g) ids1 s = run_items (pointwise c g) ids2 s.
Proof.
  intros Hp Hnd HD.
  now apply (run_items_perm D (pointwise c g) pointwise_commute).
Qed.

End PointwiseCommute.

(** X4. The work-items of a kernel may run in any order: for each of the
    eight kernels, running the kernel lambda over any schedule that is a
    permutation of the index space [range<1>(n)] gives exactly what the
    kernel gives, whether that is a completed memory or a fault. For the
    USM integer kernel this needs that no work-item writes a cell another
    one reads. *)
Theorem schedule_is_immaterial (n : Z) (ids : list nat) :
  int64_count n -> ids ≡ₚ range1 n ->
  (forall T a b r,
     run_items (buffer_api.range_transform_fp_item T a b) ids r
     = buffer_api.range_transform_fp T a b n r)
  /\ (forall T a b r,
        run_items (buffer_api.range_transform_fp_accurate_item T a b) ids r
        = buffer_api.range_transform_fp_accurate T a b n r)
  /\ (forall T a b in_ out,
        run_items (buffer_api.range_transform_int_item T a b) ids (in_, out)
        = buffer_api.range_transform_int T a b n in_ out)
  /\ (forall p in_ out,
        run_items (buffer_api.sample_bernoulli_from_uniform_item p) ids
          (in_, out)
        = buffer_api.sample_bernoulli_from_uniform p n in_ out)
  /\ (forall T a b p m,
        run_items (usm_api.range_transform_fp_item T a b p) ids m
        = usm_api.range_transform_fp T a b n p m)
  /\ (forall T a b p m,
        run_items (usm_api.range_transform_fp_accurate_item T a b p) ids m
        = usm_api.range_transform_fp_accurate T a b n p m)
  /\ (forall T a b in_ out m,
        no_cross_alias (below n) in_ out ->
        run_items (usm_api.range_transform_int_item T a b in_ out) ids m
        = usm_api.range_transform_int T a b n in_ out m)
  /\ (forall p in_ out mf mi,
        run_items (usm_api.sample_bernoulli_from_uniform_item p in_ out) ids
          (mf, mi)
        = usm_api.sample_bernoulli_from_uniform p n in_ out mf mi).
Proof.
  intros Hn Hp.
  assert (HD : forall i, i ∈ range1 n -> below n i)
    by (intros i; apply (elem_of_range1 n i Hn)).
  assert (G : forall {S A B} (c : cells S A B) (g : A -> option B) V
                     (body : work_item S) (s : S),
            cells_ok (below n) V c ->
            (forall id s, body id s = pointwise c g id s) ->
            run_items body ids s = parallel_for n body s).
  { intros S A B c g V body s Hok Hbody. unfold parallel_for.
    rewrite (run_items_ext body (pointwise c g) ids s (fun id t _ => Hbody id t)),
            (run_items_ext body (pointwise c g) (range1 n) s
               (fun id t _ => Hbody id t)).
    symmetry.
    apply (run_pointwise_perm (below n) V c Hok g (range1 n) ids s);
      [now symmetry|apply NoDup_range1|exact HD]. }
  repeat apply conj.
  - intros T a b r.
    exact (G _ _ _ _ (fp_elem T a b) (fun _ => True) _ r
             (buffer_cells_ok _ _ _)
             (buf_range_transform_fp_item_pointwise T a b)).
  - intros T a b r.
    exact (G _ _ _ _ (fp_accurate_elem T a b) (fun _ => True) _ r
             (buffer_cells_ok _ _ _)
             (buf_range_transform_fp_accurate_item_pointwise T a b)).
  - intros T a b in_ out.
    exact (G _ _ _ _ (range_int_expr T a b) (fun _ => True) _ (in_, out)
             (buffer_pair_cells_ok _ _ _ _)
             (buf_range_transform_int_item_pointwise T a b)).
  - intros p in_ out.
    exact (G _ _ _ _ (bernoulli_elem p) (fun _ => True) _ (in_, out)
             (buffer_pair_cells_ok _ _ _ _)
             (buf_sample_bernoulli_item_pointwise p)).
  - intros T a b p m.
    exact (G _ _ _ _ (fp_elem T a b) (fun _ => True) _ m
             (usm_cells_ok _ _ _ p)
             (usm_range_transform_fp_item_pointwise T a b p)).
  - intros T a b p m.
    exact (G _ _ _ _ (fp_accurate_elem T a b) (fun _ => True) _ m
             (usm_cells_ok _ _ _ p)
             (usm_range_transform_fp_accurate_item_pointwise T a b p)).
  - intros T a b in_ out m Hal.
    exact (G _ _ _ _ (range_int_expr T a b) (in_range T) _ m
             (usm_int_cells_ok _ T in_ out Hal)
             (usm_range_transform_int_item_pointwise T a b in_ out)).
  - intros p in_ out mf mi.
    exact (G _ _ _ _ (bernoulli_elem p) (in_range int32_t) _ (mf, mi)
             (usm_pair_cells_ok _ int32_t in_ out)
             (usm_sample_bernoulli_item_pointwise int32_t p in_ out)).
Qed.

Lemma schedule_is_immaterial_witness :
  run_items (buffer_api.range_transform_int_item uint32_t 10 20)
    [2; 0; 1]%nat ([5; 17; 33], [0; 0; 0])
  = buffer_api.range_transform_int uint32_t 10 20 3 [5; 17; 33] [0; 0; 0].
Proof.
  assert (Hn : int64_count 3) by (vm_compute; intuition discriminate).
  assert (Hp : [2; 0; 1]%nat ≡ₚ range1 3).
  { change (range1 3) with [0; 1; 2]%nat.
    apply (Permutation_trans (l' := [0; 2; 1]%nat));
      [apply Permutation_swap | apply Permutation_skip, Permutation_swap]. }
  exact (proj1 (proj2 (proj2 (schedule_is_immaterial 3 [2; 0; 1]%nat Hn Hp)))
           uint32_t 10 20 [5; 17; 33] [0; 0; 0]).
Defined.

(* ===================================================================== *)
(** * When a kernel completes *)
(* ===================================================================== *)

(** The index space of any [std::int64_t] count. *)
Lemma elem_of_range1_mod n i : i ∈ range1 n <-> Z.of_nat i < n mod 2 ^ 64.
Proof.
  unfold range1. rewrite elem_of_seq.
  pose proof (Z.mod_pos_bound n (2 ^ 64) ltac:(lia)). lia.
Qed.

(** A negative count converts to an index space of at least [2^63]
    work-items. *)
Lemma count_within n len :
  - 2 ^ 63 <= n < 2 ^ 63 -> 0 <= len < 2 ^ 63 ->
  n mod 2 ^ 64 <= len <-> 0 <= n <= len.
Proof.
  intros Hn Hlen. destruct (Z_lt_le_dec n 0) as [Hneg|Hpos].
  - assert (E : n mod 2 ^ 64 = n + 2 ^ 64).
    { symmetry. apply (Z.mod_unique n (2 ^ 64) (-1)); lia. }
    rewrite E. lia.
  - rewrite Z.mod_small by lia. lia.
Qed.

Lemma buffer_in_place_completes {A} (g : A -> option A) body n (r : list A) :
  (forall id s, body id s = pointwise (buffer_cells A) g id s) ->
  (forall x, is_Some (g x)) ->
  is_Some (parallel_for n body r) <-> n mod 2 ^ 64 <= Z.of_nat (length r).
Proof.
  intros Hbody Hg. rewrite (parallel_for_ext body _ n r Hbody).
  unfold parallel_for.
  rewrite (run_pointwise_is_Some (fun _ => True) (fun _ => True)
             (buffer_cells A) (buffer_cells_ok _ A _) g (fun _ _ _ => I)
             (range1 n) r (NoDup_range1 n)) by done.
  simpl. unfold acc_read. split.
  - intros H. destruct (Z_le_gt_dec (n mod 2 ^ 64) (Z.of_nat (length r)))
      as [|Hgt]; [assumption|exfalso].
    destruct (H (length r)) as [Hs%lookup_lt_is_Some _];
      [apply elem_of_range1_mod|]; lia.
  - intros H i Hi%elem_of_range1_mod.
    destruct (lookup_lt_is_Some_2 r i) as [x Hx]; [lia|].
    rewrite Hx. split; [eauto|apply Hg].
Qed.

Lemma buffer_pair_completes {A B} (g : A -> option B) body n
    (in_ : list A) (out : list B) :
  (forall id s, body id s = pointwise (buffer_pair_cells A B) g id s) ->
  (forall x, is_Some (g x)) ->
  is_Some (parallel_for n body (in_, out))
  <-> n mod 2 ^ 64 <= Z.of_nat (length in_)
      /\ n mod 2 ^ 64 <= Z.of_nat (length out).
Proof.
  intros Hbody Hg. rewrite (parallel_for_ext body _ n _ Hbody).
  unfold parallel_for.
  rewrite (run_pointwise_is_Some (fun _ => True) (fun _ => True)
             (buffer_pair_cells A B) (buffer_pair_cells_ok _ A B _) g
             (fun _ _ _ => I) (range1 n) (in_, out) (NoDup_range1 n)) by done.
  simpl. unfold acc_read. split.
  - intros H. split.
    + destruct (Z_le_gt_dec (n mod 2 ^ 64) (Z.of_nat (length in_)))
        as [|Hgt]; [assumption|exfalso].
      destruct (H (length in_)) as [_ Hs]; [apply elem_of_range1_mod; lia|].
      rewrite (lookup_ge_None_2 in_ (length in_)) in Hs by lia.
      now destruct Hs.
    + destruct (Z_le_gt_dec (n mod 2 ^ 64) (Z.of_nat (length out)))
        as [|Hgt]; [assumption|exfalso].
      destruct (H (length out)) as [Hs%lookup_lt_is_Some _];
        [apply elem_of_range1_mod|]; lia.
  - intros [H1 H2] i Hi%elem_of_range1_mod. split.
    + apply lookup_lt_is_Some_2. lia.
    + destruct (lookup_lt_is_Some_2 in_ i) as [x Hx]; [lia|].
      rewrite Hx. apply Hg.
Qed.

(** The range expression is defined exactly for distinct bounds. *)
Lemma range_int_expr_is_Some_iff T a b raw :
  in_range T a -> in_range T b ->
  is_Some (range_int_expr T a b raw) <-> a <> b.
Proof.
  intros Ha Hb. unfold range_int_expr.
  assert (Hd : to_uint32 (wrap T (b - a)) = 0 <-> a = b).
  { unfold to_uint32. rewrite wrap_mod. split.
    - intros H. apply Z.mod_divide in H; [|rewrite two32_eq; lia].
      destruct H as [k Hk].
      destruct T; simpl in Ha, Hb; rewrite two32_eq, ?two31_eq in *; lia.
    - intros ->. now rewrite Z.sub_diag. }
  destruct (Z.eqb_spec (to_uint32 (wrap T (b - a))) 0) as [E|E].
  - split; [intros [? ?]; discriminate|]. intros H. now apply Hd in E.
  - split; [|eauto]. intros _ H. now apply Hd in H.
Qed.

(** X2. For every count [n] of type [std::int64_t] and buffers of fewer
    than [2^63] elements, each Buffer API kernel completes exactly when the
    count is non-negative and within its buffers; otherwise some work-item
    subscripts an accessor out of bounds. A negative count is no
    exception: it converts to an index space of at least [2^63]
    work-items. The integer transform is taken at distinct bounds. *)
Theorem buffer_kernels_complete_iff_count_within (n : Z) :
  - 2 ^ 63 <= n < 2 ^ 63 ->
  (forall T a b (r : list spec_float),
     Z.of_nat (length r) < 2 ^ 63 ->
     (is_Some (buffer_api.range_transform_fp T a b n r)
      <-> 0 <= n <= Z.of_nat (length r))
     /\ (is_Some (buffer_api.range_transform_fp_accurate T a b n r)
         <-> 0 <= n <= Z.of_nat (length r)))
  /\ (forall T a b (in_ out : list Z),
        in_range T a -> in_range T b -> a <> b ->
        Z.of_nat (length in_) < 2 ^ 63 -> Z.of_nat (length out) < 2 ^ 63 ->
        is_Some (buffer_api.range_transform_int T a b n in_ out)
        <-> 0 <= n <= Z.of_nat (length in_) /\ n <= Z.of_nat (length out))
  /\ (forall p (in_ : list spec_float) (out : list Z),
        Z.of_nat (length in_) < 2 ^ 63 -> Z.of_nat (length out) < 2 ^ 63 ->
        is_Some (buffer_api.sample_bernoulli_from_uniform p n in_ out)
        <-> 0 <= n <= Z.of_nat (length in_) /\ n <= Z.of_nat (length out)).
Proof.
  intros Hn. split; [|split].
  - intros T a b r Hr. split.
    + unfold buffer_api.range_transform_fp.
      rewrite (buffer_in_place_completes (fp_elem T a b));
        [apply count_within; lia
        |apply buf_range_transform_fp_item_pointwise
        |intros; apply fp_elem_is_Some].
    + unfold buffer_api.range_transform_fp_accurate.
      rewrite (buffer_in_place_completes (fp_accurate_elem T a b));
        [apply count_within; lia
        |apply buf_range_transform_fp_accurate_item_pointwise
        |intros; apply fp_accurate_elem_is_Some].
  - intros T a b in_ out Ha Hb Hab Hin Hout.
    unfold buffer_api.range_transform_int.
    rewrite (buffer_pair_completes (range_int_expr T a b));
      [|apply buf_range_transform_int_item_pointwise
       |intros; now apply range_int_expr_is_Some_iff].
    rewrite !count_within by lia. lia.
  - intros p in_ out Hin Hout.
    unfold buffer_api.sample_bernoulli_from_uniform.
    rewrite (buffer_pair_completes (bernoulli_elem p));
      [|apply buf_sample_bernoulli_item_pointwise
       |intros; apply bernoulli_elem_is_Some].
    rewrite !count_within by lia. lia.
Qed.

Lemma buffer_kernels_complete_iff_count_within_witness :
  (is_Some (buffer_api.range_transform_fp double (fp_of_Z double 0)
              (fp_of_Z double 10) (-1) [fp_ratio double 1 4])
   <-> 0 <= -1 <= 1)
  /\ (is_Some (buffer_api.range_transform_int uint32_t 10 20 3
                 [5; 17; 33] [0; 0])
      <-> 0 <= 3 <= 3 /\ 3 <= 2).
Proof.
  split.
  - refine (proj1 (proj1 (buffer_kernels_complete_iff_count_within (-1) _)
                     double (fp_of_Z double 0) (fp_of_Z double 10)
                     [fp_ratio double 1 4] _)); simpl; lia.
  - refine (proj1 (proj2 (buffer_kernels_complete_iff_count_within 3 _))
              uint32_t 10 20 [5; 17; 33] [0; 0] _ _ _ _ _);
      simpl; rewrite ?two32_eq; lia.
Defined.

Lemma usm_in_place_completes {A} (g : A -> option A) body n p
    (m : gmap nat A) :
  (forall id s, body id s = pointwise (usm_cells A p) g id s) ->
  (forall x, is_Some (g x)) ->
  int64_count n ->
  is_Some (parallel_for n body m)
  <-> forall i, below n i -> is_Some (m !! (p + i)%nat).
Proof.
  intros Hbody Hg Hn. rewrite (parallel_for_ext body _ n m Hbody).
  unfold parallel_for.
  rewrite (run_pointwise_is_Some (fun _ => True) (fun _ => True)
             (usm_cells A p) (usm_cells_ok _ A _ p) g (fun _ _ _ => I)
             (range1 n) m (NoDup_range1 n)) by done.
  simpl. unfold usm_load. split.
  - intros H i Hi. now apply H, (elem_of_range1 n i Hn).
  - intros H i Hi%(elem_of_range1 n i Hn).
    destruct (H i Hi) as [x Hx]. rewrite Hx. split; [eauto|apply Hg].
Qed.

Lemma usm_int_completes T (g : Z -> option Z) body n in_ out
    (m : gmap nat Z) :
  (forall id s, body id s = pointwise (usm_int_cells T in_ out) g id s) ->
  (forall x v, g x = Some v -> in_range T v) ->
  (forall x, is_Some (g x)) ->
  int64_count n ->
  no_cross_alias (below n) in_ out ->
  is_Some (parallel_for n body m)
  <-> forall i, below n i ->
        is_Some (m !! (in_ + i)%nat) /\ is_Some (m !! (out + i)%nat).
Proof.
  intros Hbody Hval Hg Hn Hal. rewrite (parallel_for_ext body _ n m Hbody).
  unfold parallel_for.
  rewrite (run_pointwise_is_Some (below n) (in_range T)
             (usm_int_cells T in_ out) (usm_int_cells_ok _ T in_ out Hal) g
             Hval (range1 n) m (NoDup_range1 n))
    by (intros j Hj; now apply (elem_of_range1 n j Hn)).
  simpl. unfold usm_load_int, usm_load. split.
  - intros H i Hi. destruct (H i (proj2 (elem_of_range1 n i Hn) Hi))
      as [Ho Hi']. split; [|now apply fmap_is_Some in Ho].
    destruct (m !! (in_ + i)%nat); [eauto|now destruct Hi'].
  - intros H i Hi%(elem_of_range1 n i Hn). destruct (H i Hi) as [[x Hx] Ho].
    split; [now apply fmap_is_Some|]. rewrite Hx. apply Hg.
Qed.

Lemma usm_pair_completes T (g : spec_float -> option Z) body n in_ out
    (mf : gmap nat spec_float) (mi : gmap nat Z) :
  (forall id s, body id s = pointwise (usm_pair_cells T in_ out) g id s) ->
  (forall x v, g x = Some v -> in_range T v) ->
  (forall x, is_Some (g x)) ->
  int64_count n ->
  is_Some (parallel_for n body (mf, mi))
  <-> forall i, below n i ->
        is_Some (mf !! (in_ + i)%nat) /\ is_Some (mi !! (out + i)%nat).
Proof.
  intros Hbody Hval Hg Hn. rewrite (parallel_for_ext body _ n _ Hbody).
  unfold parallel_for.
  rewrite (run_pointwise_is_Some (fun _ => True) (in_range T)
             (usm_pair_cells T in_ out) (usm_pair_cells_ok _ T in_ out) g
             Hval (range1 n) (mf, mi) (NoDup_range1 n)) by done.
  simpl. unfold usm_load_int, usm_load. split.
  - intros H i Hi. destruct (H i (proj2 (elem_of_range1 n i Hn) Hi))
      as [Ho Hi']. split; [|now apply fmap_is_Some in Ho].
    destruct (mf !! (in_ + i)%nat); [eauto|now destruct Hi'].
  - intros H i Hi%(elem_of_range1 n i Hn). destruct (H i Hi) as [[x Hx] Ho].
    split; [now apply fmap_is_Some|]. rewrite Hx. apply Hg.
Qed.

(** X7. For a count [n >= 0], each USM API kernel completes exactly when
    every cell its work-items touch is allocated: the cells [r[0..n)] for
    the floating-point transforms, [in[0..n)] and [out[0..n)] for the
    integer transform (at distinct bounds, no work-item writing a cell
    another one reads) and for the Bernoulli transform. *)
Theorem usm_kernels_complete_iff_cells_allocated (n : Z) :
  int64_count n ->
  (forall T a b (p : nat) (m : gmap nat spec_float),
     (is_Some (usm_api.range_transform_fp T a b n p m)
      <-> forall i, below n i -> is_Some (m !! (p + i)%nat))
     /\ (is_Some (usm_api.range_transform_fp_accurate T a b n p m)
         <-> forall i, below n i -> is_Some (m !! (p + i)%nat)))
  /\ (forall T a b (in_ out : nat) (m : gmap nat Z),
        in_range T a -> in_range T b -> a <> b ->
        no_cross_alias (below n) in_ out ->
        is_Some (usm_api.range_transform_int T a b n in_ out m)
        <-> forall i, below n i ->
              is_Some (m !! (in_ + i)%nat) /\ is_Some (m !! (out + i)%nat))
  /\ (forall p (in_ out : nat) (mf : gmap nat spec_float) (mi : gmap nat Z),
        is_Some (usm_api.sample_bernoulli_from_uniform p n in_ out mf mi)
        <-> forall i, below n i ->
              is_Some (mf !! (in_ + i)%nat) /\ is_Some (mi !! (out + i)%nat)).
Proof.
  intros Hn. split; [|split].
  - intros T a b p m. split.
    + apply (usm_in_place_completes (fp_elem T a b));
        [apply usm_range_transform_fp_item_pointwise
        |intros; apply fp_elem_is_Some|exact Hn].
    + apply (usm_in_place_completes (fp_accurate_elem T a b));
        [apply usm_range_transform_fp_accurate_item_pointwise
        |intros; apply fp_accurate_elem_is_Some|exact Hn].
  - intros T a b in_ out m Ha Hb Hab Hal.
    apply (usm_int_completes T (range_int_expr T a b));
      [apply usm_range_transform_int_item_pointwise
      |apply range_int_expr_val
      |intros; now apply range_int_expr_is_Some_iff|exact Hn|exact Hal].
  - intros p in_ out mf mi.
    apply (usm_pair_completes uint32_t (bernoulli_elem p));
      [apply usm_sample_bernoulli_item_pointwise
      |apply bernoulli_elem_val
      |intros; apply bernoulli_elem_is_Some|exact Hn].
Qed.

Lemma usm_kernels_complete_iff_cells_allocated_witness :
  is_Some (usm_api.range_transform_fp double (fp_of_Z double 0)
             (fp_of_Z double 10) 2 5
             (<[5%nat := fp_ratio double 1 4]> ∅))
  <-> forall i, below 2 i ->
        is_Some ((<[5%nat := fp_ratio double 1 4]>
                    (∅ : gmap nat spec_float)) !! (5 + i)%nat).
Proof.
  assert (Hn : int64_count 2) by (vm_compute; intuition discriminate).
  exact (proj1 (proj1 (usm_kernels_complete_iff_cells_allocated 2 Hn)
                  double (fp_of_Z double 0) (fp_of_Z double 10) 5%nat
                  (<[5%nat := fp_ratio double 1 4]> ∅))).
Defined.

(** X8. With equal bounds the integer transform has no result: [b - a] is
    zero and the remainder [in[id] % (b - a)] is undefined, so every
    work-item faults. The kernel completes only for an empty index space,
    whatever the buffers or the memory hold. *)
Theorem range_transform_int_equal_bounds (T : int_type) (a n : Z) :
  - 2 ^ 63 <= n < 2 ^ 63 ->
  (forall raw, range_int_expr T a a raw = None)
  /\ (forall in_ out : list Z,
        is_Some (buffer_api.range_transform_int T a a n in_ out) <-> n = 0)
  /\ (forall (in_ out : nat) (m : gmap nat Z),
        is_Some (usm_api.range_transform_int T a a n in_ out m) <-> n = 0).
Proof.
  intros Hn.
  assert (Hexpr : forall raw, range_int_expr T a a raw = None).
  { intros raw. unfold range_int_expr. rewrite Z.sub_diag.
    now destruct T. }
  assert (Hids : n <> 0 -> exists rest, range1 n = 0%nat :: rest).
  { intros H0. unfold range1.
    assert (0 < n mod 2 ^ 64).
    { destruct (Z_lt_le_dec n 0).
      - rewrite <- (Z.mod_add n 1) by lia. rewrite Z.mod_small; lia.
      - rewrite Z.mod_small; lia. }
    destruct (Z.to_nat (n mod 2 ^ 64)) as [|k] eqn:E; [lia|].
    simpl. eauto. }
  split; [exact Hexpr|]. split.
  - intros in_ out. split.
    + intros [s Hs]. destruct (Z.eq_dec n 0) as [|H0]; [assumption|].
      destruct (Hids H0) as [rest E]. exfalso.
      unfold buffer_api.range_transform_int, parallel_for in Hs.
      rewrite E, run_items_cons in Hs.
      unfold buffer_api.range_transform_int_item in Hs.
      unfold acc_read in Hs. destruct (in_ !! 0%nat); simpl in Hs;
        [rewrite Hexpr in Hs|]; discriminate.
    + intros ->. eauto.
  - intros in_ out m. split.
    + intros [s Hs]. destruct (Z.eq_dec n 0) as [|H0]; [assumption|].
      destruct (Hids H0) as [rest E]. exfalso.
      unfold usm_api.range_transform_int, parallel_for in Hs.
      rewrite E, run_items_cons in Hs.
      unfold usm_api.range_transform_int_item in Hs.
      destruct (usm_load_int uint32_t m in_ 0); simpl in Hs;
        [rewrite Hexpr in Hs|]; discriminate.
    + intros ->. eauto.
Qed.

Lemma range_transform_int_equal_bounds_witness :
  is_Some (buffer_api.range_transform_int int32_t 7 7 3 [5; 17; 33] [0; 0; 0])
  <-> 3 = 0.
Proof.
  exact (proj1 (proj2 (range_transform_int_equal_bounds int32_t 7 3
                         ltac:(lia)))
           [5; 17; 33] [0; 0; 0]).
Defined.

(** X3. The integer and the Bernoulli transform write the first [n] cells
    of their output and nothing else: the output buffer keeps its length
    and its elements from index [n] on, and USM memory keeps every cell
    outside [out[0..n)]. *)
Theorem outputs_beyond_count_untouched (n : Z) :
  int64_count n ->
  (forall T a b (in_ out : list Z),
     in_range T a -> in_range T b -> a < b ->
     n <= Z.of_nat (length in_) -> n <= Z.of_nat (length out) ->
     exists out',
       buffer_api.range_transform_int T a b n in_ out = Some (in_, out')
       /\ length out' = length out
       /\ forall i, ~ below n i -> out' !! i = out !! i)
  /\ (forall p (in_ : list spec_float) (out : list Z),
        n <= Z.of_nat (length in_) -> n <= Z.of_nat (length out) ->
        exists out',
          buffer_api.sample_bernoulli_from_uniform p n in_ out
          = Some (in_, out')
          /\ length out' = length out
          /\ forall i, ~ below n i -> out' !! i = out !! i)
  /\ (forall T a b (in_ out : nat) (m : gmap nat Z),
        in_range T a -> in_range T b -> a < b ->
        no_cross_alias (below n) in_ out ->
        (forall i, below n i ->
           is_Some (m !! (in_ + i)%nat) /\ is_Some (m !! (out + i)%nat)) ->
        exists m',
          usm_api.range_transform_int T a b n in_ out m = Some m'
          /\ forall k, (forall i, below n i -> k <> (out + i)%nat) ->
               m' !! k = m !! k)
  /\ (forall p (in_ out : nat) (mf : gmap nat spec_float) (mi : gmap nat Z),
        (forall i, below n i ->
           is_Some (mf !! (in_ + i)%nat) /\ is_Some (mi !! (out + i)%nat)) ->
        exists mi',
          usm_api.sample_bernoulli_from_uniform p n in_ out mf mi
          = Some (mf, mi')
          /\ forall k, (forall i, below n i -> k <> (out + i)%nat) ->
               mi' !! k = mi !! k).
Proof.
  intros Hn. split; [|split; [|split]].
  - intros T a b in_ out Ha Hb Hab Hlin Hlout.
    destruct (buffer_pair_run (range_int_expr T a b)
                (buffer_api.range_transform_int_item T a b) n in_ out)
      as (out' & Hrun & Hl & _ & Hout);
      [apply buf_range_transform_int_item_pointwise|assumption..| |].
    { intros i x _ _. now apply range_int_expr_is_Some. }
    exists out'. split; [exact Hrun|]. split; assumption.
  - intros p in_ out Hlin Hlout.
    destruct (buffer_pair_run (bernoulli_elem p)
                (buffer_api.sample_bernoulli_from_uniform_item p) n in_ out)
      as (out' & Hrun & Hl & _ & Hout);
      [apply buf_sample_bernoulli_item_pointwise|assumption..| |].
    { intros i x _ _. apply bernoulli_elem_is_Some. }
    exists out'. split; [exact Hrun|]. split; assumption.
  - intros T a b in_ out m Ha Hb Hab Hal Hcells.
    destruct (usm_int_run T (range_int_expr T a b)
                (usm_api.range_transform_int_item T a b in_ out) n in_ out m)
      as (m' & Hrun & _ & Hout);
      [apply usm_range_transform_int_item_pointwise|apply range_int_expr_val
      |assumption..| |].
    { intros i Hi. destruct (Hcells i Hi) as [[c Hc] Ho]. split; [exact Ho|].
      exists (to_uint32 c). unfold usm_load_int, usm_load. rewrite Hc.
      split; [reflexivity|]. now apply range_int_expr_is_Some. }
    exists m'. split; assumption.
  - intros p in_ out mf mi Hcells.
    destruct (usm_pair_run uint32_t (bernoulli_elem p)
                (usm_api.sample_bernoulli_from_uniform_item p in_ out)
                n in_ out mf mi)
      as (mi' & Hrun & _ & Hout);
      [apply usm_sample_bernoulli_item_pointwise|apply bernoulli_elem_val
      |assumption| |].
    { intros i Hi. destruct (Hcells i Hi) as [[x Hx] Ho]. split; [exact Ho|].
      exists x. split; [exact Hx|apply bernoulli_elem_is_Some]. }
    exists mi'. split; assumption.
Qed.

Lemma outputs_beyond_count_untouched_witness :
  exists out',
    buffer_api.range_transform_int uint32_t 10 20 2 [5; 17; 33] [7; 7; 7]
    = Some ([5; 17; 33], out')
    /\ length out' = 3%nat
    /\ forall i, ~ below 2 i -> out' !! i = [7; 7; 7] !! i.
Proof.
  assert (Hn : int64_count 2) by (vm_compute; intuition discriminate).
  refine (proj1 (outputs_beyond_count_untouched 2 Hn)
            uint32_t 10 20 [5; 17; 33] [7; 7; 7] _ _ _ _ _);
    simpl; rewrite ?two32_eq; lia.
Defined.

(* ===================================================================== *)
(** * The integer transform, value by value *)
(* ===================================================================== *)

Lemma raw_count_bounds a b v :
  a < b -> b - a <= two32 -> a <= v < b ->
  (two32 - (b - a)) / (b - a) + 1 <= raw_count a b v
  /\ raw_count a b v <= (two32 - 1) / (b - a) + 1.
Proof.
  intros Hab Hd Hv. unfold raw_count. split.
  - apply Z.add_le_mono_r, Z.div_le_mono; lia.
  - apply Z.add_le_mono_r, Z.div_le_mono; lia.
Qed.

Lemma raw_count_spread a b :
  a < b -> (two32 - 1) / (b - a) <= (two32 - (b - a)) / (b - a) + 1.
Proof.
  intros Hab.
  replace (two32 - 1) with ((two32 - (b - a) - 1) + 1 * (b - a)) by lia.
  rewrite Z.div_add by lia.
  apply Z.add_le_mono_r, Z.div_le_mono; lia.
Qed.

Lemma in_range_width T a b :
  in_range T a -> in_range T b -> a < b -> b - a < two32.
Proof.
  destruct T; simpl; rewrite two32_eq, ?two31_eq; lia.
Qed.

(** X9. The integer transform reaches every value of [[a, b)], and tells
    how often: for bounds [a < b] of [T], a raw 32-bit value is sent to
    [v] exactly when [v] is in [[a, b)] and the raw value is one of
    [v - a + q * (b - a)] for [0 <= q < raw_count a b v]. Every count is
    at least one, and the counts of two values differ by at most one (the
    bias of the remainder). The Buffer API kernel sends the raw value
    [v - a] to [v]. *)
Theorem range_transform_int_preimages (T : int_type) (a b : Z) :
  in_range T a -> in_range T b -> a < b ->
  (forall raw v, 0 <= raw < two32 ->
     range_int_expr T a b raw = Some v
     <-> a <= v < b
         /\ exists q, 0 <= q < raw_count a b v
                      /\ raw = v - a + q * (b - a))
  /\ (forall v, a <= v < b -> 1 <= raw_count a b v)
  /\ (forall v v', a <= v < b -> a <= v' < b ->
        Z.abs (raw_count a b v - raw_count a b v') <= 1)
  /\ (forall v o, a <= v < b ->
        buffer_api.range_transform_int T a b 1 [v - a] [o]
        = Some ([v - a], [v])).
Proof.
  intros Ha Hb Hab.
  pose proof (in_range_width T a b Ha Hb Hab) as Hw.
  split; [|split; [|split]].
  - intros raw v Hraw. rewrite (range_int_expr_spec T a b raw Ha Hb Hab).
    pose proof (Z.mod_pos_bound raw (b - a) ltac:(lia)) as Hm.
    pose proof (Z.div_mod raw (b - a) ltac:(lia)) as Hdm.
    split.
    + intros [= <-]. split; [lia|]. exists (raw / (b - a)).
      split; [|lia]. split; [apply Z.div_pos; lia|].
      unfold raw_count.
      apply Z.lt_succ_r, Z.div_le_lower_bound; [lia|]. nia.
    + intros (Hv & q & [Hq0 Hq1] & ->). clear Hm Hdm. f_equal.
      rewrite Z.mod_add by lia. rewrite Z.mod_small by lia. lia.
  - intros v Hv. unfold raw_count.
    pose proof (Z.div_pos (two32 - 1 - (v - a)) (b - a)). lia.
  - intros v v' Hv Hv'.
    pose proof (raw_count_bounds a b v Hab ltac:(lia) Hv).
    pose proof (raw_count_bounds a b v' Hab ltac:(lia) Hv').
    pose proof (raw_count_spread a b Hab). lia.
  - intros v o Hv.
    unfold buffer_api.range_transform_int, parallel_for.
    change (range1 1) with [0%nat]. cbn -[range_int_expr].
    rewrite (range_int_expr_spec T a b (v - a) Ha Hb Hab). cbn.
    rewrite Z.mod_small by lia. replace (a + (v - a)) with v by lia.
    reflexivity.
Qed.

Lemma range_transform_int_preimages_witness :
  (range_int_expr uint32_t 10 20 33 = Some 13
   <-> 10 <= 13 < 20
       /\ exists q, 0 <= q < raw_count 10 20 13 /\ 33 = 13 - 10 + q * (20 - 10))
  /\ 1 <= raw_count 10 20 13
  /\ Z.abs (raw_count 10 20 13 - raw_count 10 20 19) <= 1.
Proof.
  pose proof (range_transform_int_preimages uint32_t 10 20
                ltac:(simpl; rewrite two32_eq; lia)
                ltac:(simpl; rewrite two32_eq; lia) ltac:(lia))
    as (H1 & H2 & H3 & _).
  split; [apply H1; rewrite two32_eq; lia|].
  split; [apply H2; lia|apply H3; lia].
Defined.

(* ===================================================================== *)
(** * Status names identify the status *)
(* ===================================================================== *)

(** A list of pairs whose second components are pairwise distinct is
    injective from right to left. *)
Lemma NoDup_snd_inj {A B} (l : list (A * B)) x y n :
  NoDup (l.*2) -> (x, n) ∈ l -> (y, n) ∈ l -> x = y.
Proof.
  induction l as [|[z k] l IH]; intros Hnd Hx Hy.
  - now apply elem_of_nil in Hx.
  - cbn in Hnd. apply NoDup_cons in Hnd as [Hk Hnd].
    apply elem_of_cons in Hx as [Ex|Hx];
      apply elem_of_cons in Hy as [Ey|Hy]; simplify_eq; try reflexivity.
    + exfalso. apply Hk. apply list_elem_of_fmap. now exists (y, k).
    + exfalso. apply Hk. apply list_elem_of_fmap. now exists (x, k).
    + now apply IH.
Qed.

Lemma string_app_inv_head (m s1 s2 : string) :
  (m ++ s1 = m ++ s2)%string -> s1 = s2.
Proof.
  induction m as [|ch m IH]; simpl; [exact id|]. intros [= H]. now apply IH.
Qed.

Lemma curand_error_map_names E c name :
  NoDup (curand_labels E) ->
  (c, name) ∈ curand_names E -> curand_error.curand_error_map E c = name.
Proof.
  intros HE H. pose proof (curand_error_map_labels E HE) as LE.
  unfold curand_names in H.
  repeat (apply elem_of_cons in H as [[= -> ->]|H]; [tauto|]).
  now apply elem_of_nil in H.
Qed.

Lemma cuda_error_map_names C c name :
  NoDup (cuda_labels C) ->
  (c, name) ∈ cuda_names C -> cuda_error.cuda_error_map C c = name.
Proof.
  intros HC H. pose proof (cuda_error_map_labels C HC) as LC.
  unfold cuda_names in H.
  repeat (apply elem_of_cons in H as [[= -> ->]|H]; [tauto|]).
  now apply elem_of_nil in H.
Qed.

(** The documented names are pairwise distinct, and none is the
    fallback. *)
Lemma curand_names_distinct E :
  NoDup ((curand_names E).*2) /\ unknown_name ∉ (curand_names E).*2.
Proof. cbn. split; by_decide. Qed.

Lemma cuda_names_distinct C :
  NoDup ((cuda_names C).*2) /\ unknown_name ∉ (cuda_names C).*2.
Proof. cbn. split; by_decide. Qed.

Lemma names_identify {l : list (Z * string)} (f : Z -> string) :
  NoDup (l.*2) -> unknown_name ∉ l.*2 ->
  (forall c name, (c, name) ∈ l -> f c = name) ->
  (forall e, e ∉ l.*1 -> f e = unknown_name) ->
  forall e e', f e = f e' -> e = e' \/ (e ∉ l.*1 /\ e' ∉ l.*1).
Proof.
  intros Hnd Hunk Hin Hout e e' Heq.
  assert (Hcase : forall x, (x, f x) ∈ l \/ x ∉ l.*1).
  { intros x. destruct (decide (x ∈ l.*1)) as [Hx|Hx]; [left|now right].
    apply list_elem_of_fmap in Hx as ([x' name] & -> & Hx). simpl.
    now rewrite (Hin _ _ Hx). }
  assert (Hno : forall x y, (x, f x) ∈ l -> y ∉ l.*1 -> f x <> f y).
  { intros x y Hx Hy E. apply Hunk. rewrite <- (Hout y Hy), <- E.
    apply list_elem_of_fmap. now exists (x, f x). }
  destruct (Hcase e) as [He|He], (Hcase e') as [He'|He'].
  - left. rewrite <- Heq in He'. exact (NoDup_snd_inj l e e' _ Hnd He He').
  - now destruct (Hno e e' He He').
  - now destruct (Hno e' e He' He).
  - now right.
Qed.

(** X10. The name identifies the status. For pairwise distinct case
    labels, two status values that [curand_error_map] (or
    [cuda_error_map]) sends to the same name are the same status, or are
    both outside the case labels; hence two exceptions constructed with the
    same message have the same [what()] only then. *)
Theorem error_names_identify_statuses
    (E : curandStatus_t) (C : cudaError_t) :
  NoDup (curand_labels E) -> NoDup (cuda_labels C) ->
  (forall e e',
     curand_error.curand_error_map E e = curand_error.curand_error_map E e' ->
     e = e' \/ (e ∉ curand_labels E /\ e' ∉ curand_labels E))
  /\ (forall e e',
        cuda_error.cuda_error_map C e = cuda_error.cuda_error_map C e' ->
        e = e' \/ (e ∉ cuda_labels C /\ e' ∉ cuda_labels C))
  /\ (forall message e e',
        curand_error.what (curand_error.make E message e)
        = curand_error.what (curand_error.make E message e') ->
        e = e' \/ (e ∉ curand_labels E /\ e' ∉ curand_labels E))
  /\ (forall message e e',
        cuda_error.what (cuda_error.make C message e)
        = cuda_error.what (cuda_error.make C message e') ->
        e = e' \/ (e ∉ cuda_labels C /\ e' ∉ cuda_labels C)).
Proof.
  intros HE HC.
  destruct (curand_names_distinct E) as [N1 U1].
  destruct (cuda_names_distinct C) as [N2 U2].
  assert (H1 : forall e e',
             curand_error.curand_error_map E e
             = curand_error.curand_error_map E e' ->
             e = e' \/ (e ∉ curand_labels E /\ e' ∉ curand_labels E)).
  { apply (names_identify (l := curand_names E) _ N1 U1).
    - intros c name. now apply curand_error_map_names.
    - intros e. now apply curand_error_map_default. }
  assert (H2 : forall e e',
             cuda_error.cuda_error_map C e = cuda_error.cuda_error_map C e' ->
             e = e' \/ (e ∉ cuda_labels C /\ e' ∉ cuda_labels C)).
  { apply (names_identify (l := cuda_names C) _ N2 U2).
    - intros c name. now apply cuda_error_map_names.
    - intros e. now apply cuda_error_map_default. }
  split; [exact H1|]. split; [exact H2|]. split.
  - intros message e e' H. apply H1. cbn in H.
    exact (string_app_inv_head _ _ _ H).
  - intros message e e' H. apply H2. cbn in H.
    exact (string_app_inv_head _ _ _ H).
Qed.

Lemma error_names_identify_statuses_witness :
  NoDup (curand_labels curand_h) /\ NoDup (cuda_labels cuda_h)
  /\ (curand_error.curand_error_map curand_h 77
      = curand_error.curand_error_map curand_h 78 ->
      77 = 78
      \/ (77 ∉ curand_labels curand_h /\ 78 ∉ curand_labels curand_h)).
Proof.
  split; [exact curand_h_distinct|]. split; [exact cuda_h_distinct|].
  exact (proj1 (error_names_identify_statuses curand_h cuda_h
                  curand_h_distinct cuda_h_distinct) 77 78).
Defined.

(* ===================================================================== *)
(** * The order of the comparisons *)
(* ===================================================================== *)

Lemma SFcompare_rank x y :
  fp_is_nan x = false -> fp_is_nan y = false ->
  SFcompare x y = Some (lex3 (sf_rank x) (sf_rank y)).
Proof.
  destruct x as [sx|sx| |sx mx ex], y as [sy|sy| |sy my ey];
    try discriminate; intros _ _;
    try (destruct sx; reflexivity); try (destruct sy; reflexivity);
    try (destruct sx, sy; reflexivity).
  destruct sx, sy; try reflexivity; unfold lex3; simpl.
  rewrite Z.compare_opp, (Z.compare_antisym ex ey).
  destruct (ex ?= ey); reflexivity.
Qed.

Lemma lex3_Lt p q :
  lex3 p q = Lt
  <-> p.1.1 < q.1.1
      \/ (p.1.1 = q.1.1
          /\ (p.1.2 < q.1.2 \/ (p.1.2 = q.1.2 /\ p.2 < q.2))).
Proof.
  unfold lex3.
  destruct (Z.compare_spec p.1.1 q.1.1);
    [|split; [lia|reflexivity]|split; [discriminate|lia]].
  destruct (Z.compare_spec p.1.2 q.1.2);
    [|split; [lia|reflexivity]|split; [discriminate|lia]].
  rewrite Z.compare_lt_iff. lia.
Qed.

Lemma lex3_Eq p q :
  lex3 p q = Eq <-> p.1.1 = q.1.1 /\ p.1.2 = q.1.2 /\ p.2 = q.2.
Proof.
  unfold lex3.
  destruct (Z.compare_spec p.1.1 q.1.1); [|split; [discriminate|lia]..].
  destruct (Z.compare_spec p.1.2 q.1.2); [|split; [discriminate|lia]..].
  rewrite Z.compare_eq_iff. lia.
Qed.

(** The comparisons in terms of the rank. *)
Lemma fp_lt_rank x y :
  fp_lt x y = true
  <-> fp_is_nan x = false /\ fp_is_nan y = false
      /\ lex3 (sf_rank x) (sf_rank y) = Lt.
Proof.
  unfold fp_lt, SFltb. split.
  - intros H. destruct (fp_is_nan x) eqn:Ex;
      [now rewrite SFcompare_nan_l in H|].
    destruct (fp_is_nan y) eqn:Ey; [now rewrite SFcompare_nan_r in H|].
    rewrite (SFcompare_rank x y Ex Ey) in H.
    now destruct (lex3 (sf_rank x) (sf_rank y)).
  - intros (Ex & Ey & H). now rewrite (SFcompare_rank x y Ex Ey), H.
Qed.

Lemma fp_le_rank x y :
  fp_le x y = true
  <-> fp_is_nan x = false /\ fp_is_nan y = false
      /\ lex3 (sf_rank x) (sf_rank y) <> Gt.
Proof.
  unfold fp_le, SFleb. split.
  - intros H. destruct (fp_is_nan x) eqn:Ex;
      [now rewrite SFcompare_nan_l in H|].
    destruct (fp_is_nan y) eqn:Ey; [now rewrite SFcompare_nan_r in H|].
    rewrite (SFcompare_rank x y Ex Ey) in H.
    now destruct (lex3 (sf_rank x) (sf_rank y)).
  - intros (Ex & Ey & H). rewrite (SFcompare_rank x y Ex Ey).
    now destruct (lex3 (sf_rank x) (sf_rank y)).
Qed.

Lemma lex3_not_Gt p q :
  lex3 p q <> Gt <-> lex3 p q = Lt \/ lex3 p q = Eq.
Proof. destruct (lex3 p q); intuition discriminate. Qed.

Lemma fp_lt_le_trans x y z :
  fp_lt x y = true -> fp_le y z = true -> fp_lt x z = true.
Proof.
  rewrite !fp_lt_rank, fp_le_rank, lex3_not_Gt, !lex3_Lt, lex3_Eq.
  intros (Hx & _ & H1) (_ & Hz & H2). split; [exact Hx|]. split; [exact Hz|].
  lia.
Qed.

Lemma fp_le_lt_trans x y z :
  fp_le x y = true -> fp_lt y z = true -> fp_lt x z = true.
Proof.
  rewrite !fp_lt_rank, fp_le_rank, lex3_not_Gt, !lex3_Lt, lex3_Eq.
  intros (Hx & _ & H1) (_ & Hz & H2). split; [exact Hx|]. split; [exact Hz|].
  lia.
Qed.

Lemma fp_le_trans x y z :
  fp_le x y = true -> fp_le y z = true -> fp_le x z = true.
Proof.
  rewrite !fp_le_rank, !lex3_not_Gt, !lex3_Lt, !lex3_Eq.
  intros (Hx & _ & H1) (_ & Hz & H2). split; [exact Hx|]. split; [exact Hz|].
  lia.
Qed.

Lemma fp_lt_nan_r x p : fp_is_nan p = true -> fp_lt x p = false.
Proof. intros H. unfold fp_lt, SFltb. now rewrite SFcompare_nan_r. Qed.

(* ===================================================================== *)
(** * The Bernoulli transform as a function of [p] *)
(* ===================================================================== *)

(** What one work-item writes, as a function of [p]. *)
Lemma bernoulli_monotone x p p' :
  fp_le p p' = true -> of_bool (fp_lt x p) <= of_bool (fp_lt x p').
Proof.
  intros Hp. destruct (fp_lt x p) eqn:E; [|destruct (fp_lt x p'); simpl; lia].
  now rewrite (fp_lt_le_trans x p p' E Hp).
Qed.

Lemma bernoulli_never x p :
  unit_sample float x -> fp_le p fp_zero = true -> fp_lt x p = false.
Proof.
  intros (_ & H0 & _) Hp. destruct (fp_lt x p) eqn:E; [|reflexivity].
  pose proof (fp_lt_le_trans x p fp_zero E Hp) as H1.
  pose proof (fp_le_lt_trans fp_zero x fp_zero H0 H1) as H2.
  now rewrite fp_lt_irrefl in H2.
Qed.

Lemma bernoulli_always x p :
  unit_sample float x -> fp_le (fp_one float) p = true -> fp_lt x p = true.
Proof. intros (_ & _ & H1) Hp. exact (fp_lt_le_trans x _ p H1 Hp). Qed.

(** X11. The Bernoulli transform is monotone in [p]: on the same input,
    raising [p] never turns a 1 into a 0. Buffer and USM variants. *)
Theorem sample_bernoulli_monotone_in_p (p p' : spec_float) (n : Z) :
  fp_le p p' = true -> int64_count n ->
  (forall (in_ : list spec_float) (out : list Z),
     n <= Z.of_nat (length in_) -> n <= Z.of_nat (length out) ->
     exists out1 out2,
       buffer_api.sample_bernoulli_from_uniform p n in_ out
       = Some (in_, out1)
       /\ buffer_api.sample_bernoulli_from_uniform p' n in_ out
          = Some (in_, out2)
       /\ forall i, below n i ->
            exists o1 o2, out1 !! i = Some o1 /\ out2 !! i = Some o2
                          /\ o1 <= o2)
  /\ (forall (T : int_type) (in_ out : nat)
             (mf : gmap nat spec_float) (mi : gmap nat Z),
        (forall i, below n i ->
           is_Some (mf !! (in_ + i)%nat) /\ is_Some (mi !! (out + i)%nat)) ->
        exists mi1 mi2,
          usm_api.sample_bernoulli_from_uniform p n in_ out mf mi
          = Some (mf, mi1)
          /\ usm_api.sample_bernoulli_from_uniform p' n in_ out mf mi
             = Some (mf, mi2)
          /\ forall i, below n i ->
               exists o1 o2,
                 usm_load_int T mi1 out i = Some o1
                 /\ usm_load_int T mi2 out i = Some o2 /\ o1 <= o2).
Proof.
  intros Hp Hn. split.
  - intros in_ out Hlin Hlout.
    destruct (buffer_pair_run (bernoulli_elem p)
                (buffer_api.sample_bernoulli_from_uniform_item p) n in_ out)
      as (out1 & Hrun1 & _ & Hin1 & _);
      [apply buf_sample_bernoulli_item_pointwise|assumption..| |].
    { intros i x _ _. apply bernoulli_elem_is_Some. }
    destruct (buffer_pair_run (bernoulli_elem p')
                (buffer_api.sample_bernoulli_from_uniform_item p') n in_ out)
      as (out2 & Hrun2 & _ & Hin2 & _);
      [apply buf_sample_bernoulli_item_pointwise|assumption..| |].
    { intros i x _ _. apply bernoulli_elem_is_Some. }
    exists out1, out2. split; [exact Hrun1|]. split; [exact Hrun2|].
    intros i Hi.
    destruct (lookup_lt_is_Some_2 in_ i) as [x Hx]; [unfold below in Hi; lia|].
    exists (of_bool (fp_lt x p)), (of_bool (fp_lt x p')).
    split; [exact (Hin1 i x Hi Hx)|]. split; [exact (Hin2 i x Hi Hx)|].
    now apply bernoulli_monotone.
  - intros T in_ out mf mi Hcells.
    assert (Hc : forall q i, below n i ->
              is_Some (mi !! (out + i)%nat)
              /\ exists x, mf !! (in_ + i)%nat = Some x
                           /\ is_Some (bernoulli_elem q x)).
    { intros q i Hi. destruct (Hcells i Hi) as [[x Hx] Ho]. split; [exact Ho|].
      exists x. split; [exact Hx|apply bernoulli_elem_is_Some]. }
    destruct (usm_pair_run T (bernoulli_elem p)
                (usm_api.sample_bernoulli_from_uniform_item p in_ out)
                n in_ out mf mi)
      as (mi1 & Hrun1 & Hin1 & _);
      [apply usm_sample_bernoulli_item_pointwise|apply bernoulli_elem_val
      |assumption|apply Hc|].
    destruct (usm_pair_run T (bernoulli_elem p')
                (usm_api.sample_bernoulli_from_uniform_item p' in_ out)
                n in_ out mf mi)
      as (mi2 & Hrun2 & Hin2 & _);
      [apply usm_sample_bernoulli_item_pointwise|apply bernoulli_elem_val
      |assumption|apply Hc|].
    exists mi1, mi2. split; [exact Hrun1|]. split; [exact Hrun2|].
    intros i Hi. destruct (Hcells i Hi) as [[x Hx] _].
    exists (of_bool (fp_lt x p)), (of_bool (fp_lt x p')).
    split; [exact (Hin1 i x Hi Hx)|]. split; [exact (Hin2 i x Hi Hx)|].
    now apply bernoulli_monotone.
Qed.

Lemma sample_bernoulli_monotone_in_p_witness :
  exists out1 out2,
    buffer_api.sample_bernoulli_from_uniform (fp_ratio float 3 10) 2
      [fp_ratio float 1 10; fp_ratio float 1 2] [7; 7] 
    = Some ([fp_ratio float 1 10; fp_ratio float 1 2], out1)
    /\ buffer_api.sample_bernoulli_from_uniform (fp_ratio float 3 4) 2
         [fp_ratio float 1 10; fp_ratio float 1 2] [7; 7]
       = Some ([fp_ratio float 1 10; fp_ratio float 1 2], out2)
    /\ forall i, below 2 i ->
         exists o1 o2, out1 !! i = Some o1 /\ out2 !! i = Some o2 /\ o1 <= o2.
Proof.
  assert (Hn : int64_count 2) by (vm_compute; intuition discriminate).
  exact (proj1 (sample_bernoulli_monotone_in_p
                  (fp_ratio float 3 10) (fp_ratio float 3 4) 2 eq_refl Hn)
           [fp_ratio float 1 10; fp_ratio float 1 2] [7; 7]
           ltac:(vm_compute; discriminate) ltac:(vm_compute; discriminate)).
Defined.

(** X12. The extremes of [p], on samples of [0, 1): with [p <= 0] every
    output is 0, with [p >= 1] every output is 1; and a NaN [p] gives 0
    whatever the input. Buffer variant; the same element function is
    stored by the USM variant. *)
Theorem sample_bernoulli_extreme_p (p : spec_float) (n : Z) :
  int64_count n ->
  forall (in_ : list spec_float) (out : list Z),
    n <= Z.of_nat (length in_) -> n <= Z.of_nat (length out) ->
    exists out',
      buffer_api.sample_bernoulli_from_uniform p n in_ out = Some (in_, out')
      /\ (fp_is_nan p = true ->
          forall i, below n i -> out' !! i = Some 0)
      /\ (fp_le p fp_zero = true ->
          forall i x, below n i -> in_ !! i = Some x ->
            unit_sample float x -> out' !! i = Some 0)
      /\ (fp_le (fp_one float) p = true ->
          forall i x, below n i -> in_ !! i = Some x ->
            unit_sample float x -> out' !! i = Some 1).
Proof.
  intros Hn in_ out Hlin Hlout.
  destruct (buffer_pair_run (bernoulli_elem p)
              (buffer_api.sample_bernoulli_from_uniform_item p) n in_ out)
    as (out' & Hrun & _ & Hin & _);
    [apply buf_sample_bernoulli_item_pointwise|assumption..| |].
  { intros i x _ _. apply bernoulli_elem_is_Some. }
  exists out'. split; [exact Hrun|]. split; [|split].
  - intros Hp i Hi.
    destruct (lookup_lt_is_Some_2 in_ i) as [x Hx]; [unfold below in Hi; lia|].
    rewrite (Hin i x Hi Hx). unfold bernoulli_elem.
    now rewrite fp_lt_nan_r.
  - intros Hp i x Hi Hx Ux. rewrite (Hin i x Hi Hx). unfold bernoulli_elem.
    now rewrite (bernoulli_never x p Ux Hp).
  - intros Hp i x Hi Hx Ux. rewrite (Hin i x Hi Hx). unfold bernoulli_elem.
    now rewrite (bernoulli_always x p Ux Hp).
Qed.

Lemma sample_bernoulli_extreme_p_witness :
  exists out',
    buffer_api.sample_bernoulli_from_uniform (fp_one float) 2
      [fp_ratio float 1 10; fp_ratio float 1 2] [7; 7]
    = Some ([fp_ratio float 1 10; fp_ratio float 1 2], out')
    /\ (fp_le (fp_one float) (fp_one float) = true ->
        forall i x, below 2 i ->
          [fp_ratio float 1 10; fp_ratio float 1 2] !! i = Some x ->
          unit_sample float x -> out' !! i = Some 1).
Proof.
  assert (Hn : int64_count 2) by (vm_compute; intuition discriminate).
  destruct (sample_bernoulli_extreme_p (fp_one float) 2 Hn
              [fp_ratio float 1 10; fp_ratio float 1 2] [7; 7]
              ltac:(vm_compute; discriminate) ltac:(vm_compute; discriminate))
    as (out' & Hrun & _ & _ & H1).
  exists out'. split; [exact Hrun|exact H1].
Defined.

(* ===================================================================== *)
(** * The accurate transform at bounds that are not ordered *)
(* ===================================================================== *)

(** With [b < a] the two tests of the clamp leave nothing but the bounds:
    a value below [a] becomes [a], any other value is above [b] and becomes
    [b]. *)
Lemma clamp_reversed a b y :
  fp_lt b a = true -> fp_is_nan y = false ->
  (fp_lt y a = true /\ clamp a b y = a)
  \/ (fp_lt y a = false /\ clamp a b y = b).
Proof.
  intros Hba Hy. destruct (fp_lt_not_nan b a Hba) as [Hb Ha].
  unfold clamp. destruct (fp_lt y a) eqn:E; [now left|right].
  split; [reflexivity|].
  pose proof (fp_not_lt_le y a Hy Ha E) as Hle.
  unfold fp_gt. change (SFltb b y) with (fp_lt b y).
  now rewrite (fp_lt_le_trans b a y Hba Hle).
Qed.

(** X13. With reversed bounds [b < a] the accurate transform stores
    nothing but [a], [b] or a NaN: each of the first [n] elements becomes
    [a] when its scaled value compares below [a], [b] when it does not,
    and stays the scaled value when that is a NaN. Buffer and USM
    variants. *)
Theorem range_transform_fp_accurate_reversed_bounds
    (T : fp_type) (a b : spec_float) (n : Z) :
  fp_lt b a = true -> int64_count n ->
  (forall r : list spec_float,
     n <= Z.of_nat (length r) ->
     exists r',
       buffer_api.range_transform_fp_accurate T a b n r = Some r'
       /\ forall i x, below n i -> r !! i = Some x ->
            (fp_is_nan (scale T a b x) = true
             /\ r' !! i = Some (scale T a b x))
            \/ (fp_lt (scale T a b x) a = true /\ r' !! i = Some a)
            \/ (fp_is_nan (scale T a b x) = false
                /\ fp_lt (scale T a b x) a = false /\ r' !! i = Some b))
  /\ (forall (p : nat) (m : gmap nat spec_float),
        (forall i, below n i -> is_Some (m !! (p + i)%nat)) ->
        exists m',
          usm_api.range_transform_fp_accurate T a b n p m = Some m'
          /\ forall i x, below n i -> m !! (p + i)%nat = Some x ->
               (fp_is_nan (scale T a b x) = true
                /\ m' !! (p + i)%nat = Some (scale T a b x))
               \/ (fp_lt (scale T a b x) a = true
                   /\ m' !! (p + i)%nat = Some a)
               \/ (fp_is_nan (scale T a b x) = false
                   /\ fp_lt (scale T a b x) a = false
                   /\ m' !! (p + i)%nat = Some b)).
Proof.
  intros Hba Hn.
  assert (Hel : forall x,
            (fp_is_nan (scale T a b x) = true
             /\ clamp a b (scale T a b x) = scale T a b x)
            \/ (fp_lt (scale T a b x) a = true
                /\ clamp a b (scale T a b x) = a)
            \/ (fp_is_nan (scale T a b x) = false
                /\ fp_lt (scale T a b x) a = false
                /\ clamp a b (scale T a b x) = b)).
  { intros x. destruct (fp_is_nan (scale T a b x)) eqn:E.
    - left. split; [reflexivity|now apply clamp_nan].
    - right. destruct (clamp_reversed a b _ Hba E) as [[H1 H2]|[H1 H2]];
        [left|right]; auto. }
  split.
  - intros r Hlen.
    destruct (buffer_in_place_run (fp_accurate_elem T a b)
                (buffer_api.range_transform_fp_accurate_item T a b) n r)
      as (r' & Hrun & _ & Hin & _);
      [apply buf_range_transform_fp_accurate_item_pointwise|assumption..| |].
    { intros. apply fp_accurate_elem_is_Some. }
    exists r'. split; [exact Hrun|]. intros i x Hi Hx.
    rewrite (Hin i x Hi Hx). unfold fp_accurate_elem.
    destruct (Hel x) as [[H1 ->]|[[H1 ->]|(H1 & H2 & ->)]]; auto.
  - intros p m Hcells.
    destruct (usm_in_place_run (fp_accurate_elem T a b)
                (usm_api.range_transform_fp_accurate_item T a b p) n p m)
      as (m' & Hrun & Hin & _);
      [apply usm_range_transform_fp_accurate_item_pointwise|assumption| |].
    { intros i Hi. destruct (Hcells i Hi) as [x Hx]. exists x.
      split; [exact Hx|apply fp_accurate_elem_is_Some]. }
    exists m'. split; [exact Hrun|]. intros i x Hi Hx.
    rewrite (Hin i x Hi Hx). unfold fp_accurate_elem.
    destruct (Hel x) as [[H1 ->]|[[H1 ->]|(H1 & H2 & ->)]]; auto.
Qed.

Lemma range_transform_fp_accurate_reversed_bounds_witness :
  exists r',
    buffer_api.range_transform_fp_accurate double
      (fp_of_Z double 10) (fp_of_Z double 0) 2
      [fp_ratio double 1 4; fp_ratio double 99 100] = Some r'
    /\ forall i x, below 2 i ->
         [fp_ratio double 1 4; fp_ratio double 99 100] !! i = Some x ->
         (fp_is_nan (scale double (fp_of_Z double 10) (fp_of_Z double 0) x)
          = true
          /\ r' !! i
             = Some (scale double (fp_of_Z double 10) (fp_of_Z double 0) x))
         \/ (fp_lt (scale double (fp_of_Z double 10) (fp_of_Z double 0) x)
               (fp_of_Z double 10) = true
             /\ r' !! i = Some (fp_of_Z double 10))
         \/ (fp_is_nan (scale double (fp_of_Z double 10) (fp_of_Z double 0) x)
             = false
             /\ fp_lt (scale double (fp_of_Z double 10) (fp_of_Z double 0) x)
                  (fp_of_Z double 10) = false
             /\ r' !! i = Some (fp_of_Z double 0)).
Proof.
  assert (Hn : int64_count 2) by (vm_compute; intuition discriminate).
  exact (proj1 (range_transform_fp_accurate_reversed_bounds double
                  (fp_of_Z double 10) (fp_of_Z double 0) 2 eq_refl Hn)
           [fp_ratio double 1 4; fp_ratio double 99 100]
           ltac:(vm_compute; discriminate)).
Defined.

(* ===================================================================== *)
(** * The floating-point transforms as functions of the sample *)
(* ===================================================================== *)

Lemma unit_sample_sf_finite T x :
  unit_sample T x -> sf_finite (fp_prec T) (fp_emax T) x.
Proof.
  intros Hx. apply fp_valid_finite; [apply Hx|].
  now apply (unit_sample_finite T).
Qed.

(** The scaled values of two ordered samples are ordered. *)
Lemma scale_preserves_order T a b x x' :
  fp_valid T a = true -> fp_valid T b = true -> fp_lt a b = true ->
  fp_is_finite (fp_sub T b a) = true ->
  unit_sample T x -> unit_sample T x' -> fp_le x x' = true ->
  fp_le (scale T a b x) (scale T a b x') = true.
Proof.
  intros Va Vb Hab Hd Hx Hx' Hxx.
  destruct (fp_format T) as [P1 P2].
  destruct (fp_sub_finite_operands T a b Hd) as [Fa Fb].
  exact (scale_monotone (fp_prec T) (fp_emax T) P1 P2 a b x x'
           (fp_valid_finite T a Va Fa) (fp_valid_finite T b Vb Fb)
           (unit_sample_sf_finite T x Hx) (unit_sample_sf_finite T x' Hx')
           Hab (proj1 (proj2 Hx)) Hxx (proj2 (proj2 Hx')) Hd).
Qed.

(** X14. The plain transform preserves the order of the samples: for
    bounds [a < b] of the format whose difference does not overflow, if
    two of the first [n] elements are samples of [0, 1) with
    [r[i] <= r[j]] before the transform, then [r[i] <= r[j]] after it.
    Buffer and USM variants. *)
Theorem range_transform_fp_preserves_order
    (T : fp_type) (a b : spec_float) (n : Z) :
  fp_valid T a = true -> fp_valid T b = true -> fp_lt a b = true ->
  fp_is_finite (fp_sub T b a) = true ->
  int64_count n ->
  (forall r : list spec_float,
     n <= Z.of_nat (length r) ->
     exists r',
       buffer_api.range_transform_fp T a b n r = Some r'
       /\ forall i j x x', below n i -> below n j ->
            r !! i = Some x -> r !! j = Some x' ->
            unit_sample T x -> unit_sample T x' -> fp_le x x' = true ->
            exists y y', r' !! i = Some y /\ r' !! j = Some y'
                         /\ fp_le y y' = true)
  /\ (forall (p : nat) (m : gmap nat spec_float),
        (forall i, below n i -> is_Some (m !! (p + i)%nat)) ->
        exists m',
          usm_api.range_transform_fp T a b n p m = Some m'
          /\ forall i j x x', below n i -> below n j ->
               m !! (p + i)%nat = Some x -> m !! (p + j)%nat = Some x' ->
               unit_sample T x -> unit_sample T x' -> fp_le x x' = true ->
               exists y y', m' !! (p + i)%nat = Some y
                            /\ m' !! (p + j)%nat = Some y'
                            /\ fp_le y y' = true).
Proof.
  intros Va Vb Hab Hd Hn.
  destruct (range_transform_fp_in_place T a b n Hn) as [Hbuf Husm]. split.
  - intros r Hlen. destruct (Hbuf r Hlen) as (r' & Hrun & _ & Hin & _).
    exists r'. split; [exact Hrun|].
    intros i j x x' Hi Hj Hx Hx' Ux Ux' Hxx.
    exists (scale T a b x), (scale T a b x').
    split; [exact (Hin i x Hi Hx)|]. split; [exact (Hin j x' Hj Hx')|].
    now apply scale_preserves_order.
  - intros p m Hcells. destruct (Husm p m Hcells) as (m' & Hrun & Hin & _).
    exists m'. split; [exact Hrun|].
    intros i j x x' Hi Hj Hx Hx' Ux Ux' Hxx.
    exists (scale T a b x), (scale T a b x').
    split; [exact (Hin i x Hi Hx)|]. split; [exact (Hin j x' Hj Hx')|].
    now apply scale_preserves_order.
Qed.

Lemma range_transform_fp_preserves_order_witness :
  exists r',
    buffer_api.range_transform_fp double (fp_of_Z double 0)
      (fp_of_Z double 10) 2
      [fp_ratio double 1 4; fp_ratio double 99 100] = Some r'
    /\ forall i j x x', below 2 i -> below 2 j ->
         [fp_ratio double 1 4; fp_ratio double 99 100] !! i = Some x ->
         [fp_ratio double 1 4; fp_ratio double 99 100] !! j = Some x' ->
         unit_sample double x -> unit_sample double x' ->
         fp_le x x' = true ->
         exists y y', r' !! i = Some y /\ r' !! j = Some y'
                      /\ fp_le y y' = true.
Proof.
  assert (Hn : int64_count 2) by (vm_compute; intuition discriminate).
  exact (proj1 (range_transform_fp_preserves_order double
                  (fp_of_Z double 0) (fp_of_Z double 10) 2
                  eq_refl eq_refl eq_refl eq_refl Hn)
           [fp_ratio double 1 4; fp_ratio double 99 100]
           ltac:(vm_compute; discriminate)).
Defined.

(** The scaling to the unit interval is the identity, the negative zero
    apart. *)
Lemma scale_unit_interval_id T x :
  fp_valid T x = true -> fp_is_finite x = true -> x <> S754_zero true ->
  scale T fp_zero (fp_one T) x = x.
Proof.
  intros Vx Fx Hx. destruct (fp_format T) as [P1 P2].
  destruct x as [s|s| |s m e]; try discriminate.
  - destruct s; [contradiction|].
    exact (scale_unit_interval_zero (fp_prec T) (fp_emax T) P1 P2).
  - exact (scale_unit_interval (fp_prec T) (fp_emax T) P1 P2 s m e Vx).
Qed.

(** X15. With [a = 0] and [b = 1] the plain transform leaves the buffer as
    it is: every finite element other than the negative zero is stored
    back unchanged ([x * 1 + 0] is exact). Buffer and USM variants. *)
Theorem range_transform_fp_unit_interval_is_identity (T : fp_type) (n : Z) :
  int64_count n ->
  (forall r : list spec_float,
     n <= Z.of_nat (length r) ->
     (forall i x, below n i -> r !! i = Some x ->
        fp_valid T x = true /\ fp_is_finite x = true
        /\ x <> S754_zero true) ->
     buffer_api.range_transform_fp T fp_zero (fp_one T) n r = Some r)
  /\ (forall (p : nat) (m : gmap nat spec_float),
        (forall i, below n i ->
           exists x, m !! (p + i)%nat = Some x
                     /\ fp_valid T x = true /\ fp_is_finite x = true
                     /\ x <> S754_zero true) ->
        usm_api.range_transform_fp T fp_zero (fp_one T) n p m = Some m).
Proof.
  intros Hn.
  destruct (range_transform_fp_in_place T fp_zero (fp_one T) n Hn)
    as [Hbuf Husm]. split.
  - intros r Hlen Hr. destruct (Hbuf r Hlen) as (r' & -> & Hl & Hin & Hout).
    f_equal. apply list_eq. intros i.
    destruct (decide (Z.of_nat i < n)) as [Hi|Hi].
    + destruct (lookup_lt_is_Some_2 r i) as [x Hx]; [lia|].
      destruct (Hr i x Hi Hx) as (Vx & Fx & Nx).
      rewrite (Hin i x Hi Hx), Hx. f_equal.
      now apply scale_unit_interval_id.
    + exact (Hout i Hi).
  - intros p m Hm. destruct (Husm p m) as (m' & -> & Hin & Hout).
    { intros i Hi. destruct (Hm i Hi) as (x & Hx & _). eauto. }
    f_equal. apply map_eq. intros k.
    destruct (decide (p <= k)%nat) as [Hpk|Hpk];
      [destruct (decide (Z.of_nat (k - p) < n)) as [Hi|Hi]|].
    + replace k with (p + (k - p))%nat by lia.
      destruct (Hm (k - p)%nat Hi) as (x & Hx & Vx & Fx & Nx).
      rewrite (Hin _ x Hi Hx), Hx. f_equal.
      now apply scale_unit_interval_id.
    + apply Hout. intros i Hi' ->. apply Hi. unfold below in Hi'.
      now replace (p + i - p)%nat with i by lia.
    + apply Hout. intros i Hi' ->. lia.
Qed.

Lemma range_transform_fp_unit_interval_is_identity_witness :
  buffer_api.range_transform_fp double fp_zero (fp_one double) 2
    [fp_ratio double 1 4; fp_ratio double 99 100]
  = Some [fp_ratio double 1 4; fp_ratio double 99 100].
Proof.
  assert (Hn : int64_count 2) by (vm_compute; intuition discriminate).
  refine (proj1 (range_transform_fp_unit_interval_is_identity double 2 Hn)
            _ _ _).
  - vm_compute. discriminate.
  - intros i x [-> | ->]%below_2_cases [= <-];
      (split; [reflexivity|split; [reflexivity|discriminate]]).
Defined.

(** Equal bounds: the scaled value compares equal to the bound, and is the
    bound unless that is a zero. *)
Lemma scale_equal_bounds_fp T a x :
  fp_valid T a = true -> fp_is_finite a = true ->
  fp_valid T x = true -> fp_is_finite x = true ->
  fp_le a (scale T a a x) = true /\ fp_le (scale T a a x) a = true
  /\ ((forall s, a <> S754_zero s) -> scale T a a x = a).
Proof.
  intros Va Fa Vx Fx. destruct (fp_format T) as [P1 P2].
  exact (scale_equal_bounds_cmp (fp_prec T) (fp_emax T) P1 P2 a x
           (fp_valid_finite T a Va Fa) (fp_valid_finite T x Vx Fx)).
Qed.

Lemma clamp_equal a y :
  fp_le a y = true -> fp_le y a = true -> clamp a a y = y.
Proof.
  intros H1 H2. unfold clamp. rewrite (fp_le_not_gt _ _ H1).
  change (fp_gt y a) with (fp_lt a y). now rewrite (fp_le_not_gt _ _ H2).
Qed.

(** X16. With equal finite bounds [a = b] both floating-point transforms
    turn every finite element among the first [n] into a value that
    compares equal to [a], and into [a] itself when [a] is not a zero:
    [b - a] is zero, and so is its product with the element. Buffer
    variants of the plain and of the accurate transform. *)
Theorem range_transform_fp_equal_bounds
    (T : fp_type) (a : spec_float) (n : Z) :
  fp_valid T a = true -> fp_is_finite a = true -> int64_count n ->
  forall r : list spec_float,
    n <= Z.of_nat (length r) ->
    exists r' r'',
      buffer_api.range_transform_fp T a a n r = Some r'
      /\ buffer_api.range_transform_fp_accurate T a a n r = Some r''
      /\ forall i x, below n i -> r !! i = Some x ->
           fp_valid T x = true -> fp_is_finite x = true ->
           exists y,
             r' !! i = Some y /\ r'' !! i = Some y
             /\ fp_le a y = true /\ fp_le y a = true
             /\ ((forall s, a <> S754_zero s) -> y = a).
Proof.
  intros Va Fa Hn r Hlen.
  destruct (proj1 (range_transform_fp_in_place T a a n Hn) r Hlen)
    as (r' & Hrun & _ & Hin & _).
  destruct (buffer_in_place_run (fp_accurate_elem T a a)
              (buffer_api.range_transform_fp_accurate_item T a a) n r)
    as (r'' & Hrun' & _ & Hin' & _);
    [apply buf_range_transform_fp_accurate_item_pointwise|assumption..| |].
  { intros. apply fp_accurate_elem_is_Some. }
  exists r', r''. split; [exact Hrun|]. split; [exact Hrun'|].
  intros i x Hi Hx Vx Fx.
  destruct (scale_equal_bounds_fp T a x Va Fa Vx Fx) as (H1 & H2 & H3).
  exists (scale T a a x). split; [exact (Hin i x Hi Hx)|]. split.
  - rewrite (Hin' i x Hi Hx). unfold fp_accurate_elem. f_equal.
    now apply clamp_equal.
  - auto.
Qed.

Lemma range_transform_fp_equal_bounds_witness :
  exists r' r'',
    buffer_api.range_transform_fp double (fp_of_Z double 3)
      (fp_of_Z double 3) 1 [fp_ratio double 1 4] = Some r'
    /\ buffer_api.range_transform_fp_accurate double (fp_of_Z double 3)
         (fp_of_Z double 3) 1 [fp_ratio double 1 4] = Some r''
    /\ forall i x, below 1 i -> [fp_ratio double 1 4] !! i = Some x ->
         fp_valid double x = true -> fp_is_finite x = true ->
         exists y,
           r' !! i = Some y /\ r'' !! i = Some y
           /\ fp_le (fp_of_Z double 3) y = true
           /\ fp_le y (fp_of_Z double 3) = true
           /\ ((forall s, fp_of_Z double 3 <> S754_zero s) ->
               y = fp_of_Z double 3).
Proof.
  assert (Hn : int64_count 1) by (vm_compute; intuition discriminate).
  exact (range_transform_fp_equal_bounds double (fp_of_Z double 3) 1
           eq_refl eq_refl Hn [fp_ratio double 1 4]
           ltac:(vm_compute; discriminate)).
Defined.

(** The scaled sample when the difference of the bounds overflows, and
    what the clamp makes of it. *)
Lemma scale_overflow_fp T a b x :
  fp_valid T a = true -> fp_valid T b = true ->
  fp_is_finite a = true -> fp_is_finite b = true ->
  fp_lt a b = true ->
  fp_is_finite (fp_sub T b a) = false ->
  unit_sample T x ->
  ((exists s, x = S754_zero s) ->
   scale T a b x = S754_nan /\ clamp a b (scale T a b x) = S754_nan)
  /\ ((forall s, x <> S754_zero s) ->
      scale T a b x = S754_infinity false
      /\ clamp a b (scale T a b x) = b).
Proof.
  intros Va Vb Fa Fb Hab Hd Hx. destruct (fp_format T) as [P1 P2].
  destruct (scale_overflow (fp_prec T) (fp_emax T) P1 P2 a b x
              (fp_valid_finite T a Va Fa) (fp_valid_finite T b Vb Fb)
              (unit_sample_sf_finite T x Hx) Hab (proj1 (proj2 Hx)) Hd)
    as [H0 H1].
  split.
  - intros Hz. unfold scale, fp_add, fp_mul, fp_sub. rewrite (H0 Hz).
    split; [reflexivity|now apply clamp_nan].
  - intros Hnz. unfold scale, fp_add, fp_mul, fp_sub. rewrite (H1 Hnz).
    split; [reflexivity|]. unfold clamp, fp_lt, fp_gt.
    destruct a as [sa|sa| |sa ma ea]; try discriminate;
      destruct b as [sb|sb| |sb mb eb]; try discriminate; reflexivity.
Qed.

(** X6. The condition on [b - a] is needed. For finite bounds [a < b]
    whose difference overflows (as for [a = -max], [b = max]) the plain
    transform turns the sample zero into a NaN ([0 * inf]) and every other
    sample of [0, 1) into the positive infinity; the accurate transform
    lets the NaN through and clamps the infinity to [b]. Buffer
    variants. *)
Theorem range_transform_fp_overflow_gives_nan
    (T : fp_type) (a b : spec_float) (n : Z) :
  fp_valid T a = true -> fp_valid T b = true ->
  fp_is_finite a = true -> fp_is_finite b = true ->
  fp_lt a b = true ->
  fp_is_finite (fp_sub T b a) = false ->
  int64_count n ->
  forall r : list spec_float,
    n <= Z.of_nat (length r) ->
    exists r' r'',
      buffer_api.range_transform_fp T a b n r = Some r'
      /\ buffer_api.range_transform_fp_accurate T a b n r = Some r''
      /\ forall i x, below n i -> r !! i = Some x -> unit_sample T x ->
           ((exists s, x = S754_zero s) ->
            r' !! i = Some S754_nan /\ r'' !! i = Some S754_nan)
           /\ ((forall s, x <> S754_zero s) ->
               r' !! i = Some (S754_infinity false) /\ r'' !! i = Some b).
Proof.
  intros Va Vb Fa Fb Hab Hd Hn r Hlen.
  destruct (proj1 (range_transform_fp_in_place T a b n Hn) r Hlen)
    as (r' & Hrun & _ & Hin & _).
  destruct (buffer_in_place_run (fp_accurate_elem T a b)
              (buffer_api.range_transform_fp_accurate_item T a b) n r)
    as (r'' & Hrun' & _ & Hin' & _);
    [apply buf_range_transform_fp_accurate_item_pointwise|assumption..| |].
  { intros. apply fp_accurate_elem_is_Some. }
  exists r', r''. split; [exact Hrun|]. split; [exact Hrun'|].
  intros i x Hi Hx Ux.
  destruct (scale_overflow_fp T a b x Va Vb Fa Fb Hab Hd Ux) as [H0 H1].
  rewrite (Hin i x Hi Hx), (Hin' i x Hi Hx). unfold fp_accurate_elem.
  split.
  - intros Hz. destruct (H0 Hz) as [-> ->]. auto.
  - intros Hnz. destruct (H1 Hnz) as [E1 E2]. rewrite E2, E1. auto.
Qed.

Lemma range_transform_fp_overflow_gives_nan_witness :
  exists r' r'',
    buffer_api.range_transform_fp double (SFopp (fp_max double))
      (fp_max double) 2 [fp_zero; fp_ratio double 1 2] = Some r'
    /\ buffer_api.range_transform_fp_accurate double (SFopp (fp_max double))
         (fp_max double) 2 [fp_zero; fp_ratio double 1 2] = Some r''
    /\ forall i x, below 2 i ->
         [fp_zero; fp_ratio double 1 2] !! i = Some x ->
         unit_sample double x ->
         ((exists s, x = S754_zero s) ->
          r' !! i = Some S754_nan /\ r'' !! i = Some S754_nan)
         /\ ((forall s, x <> S754_zero s) ->
             r' !! i = Some (S754_infinity false)
             /\ r'' !! i = Some (fp_max double)).
Proof.
  assert (Hn : int64_count 2) by (vm_compute; intuition discriminate).
  exact (range_transform_fp_overflow_gives_nan double
           (SFopp (fp_max double)) (fp_max double) 2
           eq_refl eq_refl eq_refl eq_refl eq_refl eq_refl Hn
           [fp_zero; fp_ratio double 1 2] ltac:(vm_compute; discriminate)).
Defined.

(** X17. The lower bound is attained: for finite bounds of the format
    whose difference does not overflow, the plain transform turns an
    element zero among the first [n] into a value that compares equal to
    [a], and into [a] itself when [a] is not a zero. Buffer and USM
    variants. *)
Theorem range_transform_fp_zero_to_lower_bound
    (T : fp_type) (a b : spec_float) (n : Z) :
  fp_valid T a = true -> fp_valid T b = true ->
  fp_is_finite (fp_sub T b a) = true ->
  int64_count n ->
  (forall r : list spec_float,
     n <= Z.of_nat (length r) ->
     exists r',
       buffer_api.range_transform_fp T a b n r = Some r'
       /\ forall i s, below n i -> r !! i = Some (S754_zero s) ->
            exists y, r' !! i = Some y
                      /\ fp_le a y = true /\ fp_le y a = true
                      /\ ((forall s', a <> S754_zero s') -> y = a))
  /\ (forall (p : nat) (m : gmap nat spec_float),
        (forall i, below n i -> is_Some (m !! (p + i)%nat)) ->
        exists m',
          usm_api.range_transform_fp T a b n p m = Some m'
          /\ forall i s, below n i ->
               m !! (p + i)%nat = Some (S754_zero s) ->
               exists y, m' !! (p + i)%nat = Some y
                         /\ fp_le a y = true /\ fp_le y a = true
                         /\ ((forall s', a <> S754_zero s') -> y = a)).
Proof.
  intros Va Vb Hd Hn. destruct (fp_format T) as [P1 P2].
  destruct (fp_sub_finite_operands T a b Hd) as [Fa Fb].
  assert (Hel : forall s,
            fp_le a (scale T a b (S754_zero s)) = true
            /\ fp_le (scale T a b (S754_zero s)) a = true
            /\ ((forall s', a <> S754_zero s') ->
                scale T a b (S754_zero s) = a)).
  { intros s.
    exact (scale_zero_sample (fp_prec T) (fp_emax T) P1 P2 a b s
             (fp_valid_finite T a Va Fa) (fp_valid_finite T b Vb Fb) Hd). }
  destruct (range_transform_fp_in_place T a b n Hn) as [Hbuf Husm]. split.
  - intros r Hlen. destruct (Hbuf r Hlen) as (r' & Hrun & _ & Hin & _).
    exists r'. split; [exact Hrun|]. intros i s Hi Hx.
    exists (scale T a b (S754_zero s)). split; [exact (Hin i _ Hi Hx)|].
    apply Hel.
  - intros p m Hcells. destruct (Husm p m Hcells) as (m' & Hrun & Hin & _).
    exists m'. split; [exact Hrun|]. intros i s Hi Hx.
    exists (scale T a b (S754_zero s)). split; [exact (Hin i _ Hi Hx)|].
    apply Hel.
Qed.

Lemma range_transform_fp_zero_to_lower_bound_witness :
  exists r',
    buffer_api.range_transform_fp double (fp_of_Z double 3)
      (fp_of_Z double 10) 1 [fp_zero] = Some r'
    /\ forall i s, below 1 i -> [fp_zero] !! i = Some (S754_zero s) ->
         exists y, r' !! i = Some y
                   /\ fp_le (fp_of_Z double 3) y = true
                   /\ fp_le y (fp_of_Z double 3) = true
                   /\ ((forall s', fp_of_Z double 3 <> S754_zero s') ->
                       y = fp_of_Z double 3).
Proof.
  assert (Hn : int64_count 1) by (vm_compute; intuition discriminate).
  exact (proj1 (range_transform_fp_zero_to_lower_bound double
                  (fp_of_Z double 3) (fp_of_Z double 10) 1
                  eq_refl eq_refl eq_refl Hn)
           [fp_zero] ltac:(vm_compute; discriminate)).
Defined.

(* ===================================================================== *)
(** * The integer transform at reversed bounds *)
(* ===================================================================== *)

(** The range expression at any two distinct bounds: [a] plus the
    remainder by the difference taken modulo [2^32], converted to [T]. *)
Lemma range_int_expr_cyclic T a b raw :
  in_range T a -> in_range T b -> a <> b ->
  range_int_expr T a b raw
  = Some (wrap T (a + raw mod ((b - a) mod two32)))
  /\ 0 <= raw mod ((b - a) mod two32) < (b - a) mod two32.
Proof.
  intros Ha Hb Hab. unfold range_int_expr.
  assert (Hd : to_uint32 (wrap T (b - a)) = (b - a) mod two32).
  { unfold to_uint32. apply wrap_mod. }
  rewrite Hd.
  assert (Hpos : 0 < (b - a) mod two32).
  { pose proof (Z.mod_pos_bound (b - a) two32 ltac:(rewrite two32_eq; lia)).
    destruct (Z.eq_dec ((b - a) mod two32) 0) as [E|]; [|lia].
    apply Z.mod_divide in E; [|rewrite two32_eq; lia]. destruct E as [k Hk].
    destruct T; simpl in Ha, Hb; rewrite two32_eq, ?two31_eq in *; lia. }
  destruct (Z.eqb_spec ((b - a) mod two32) 0) as [E|_]; [lia|].
  split; [|apply Z.mod_pos_bound; lia].
  f_equal. rewrite wrap_to_uint32. apply wrap_congr.
  unfold to_uint32. rewrite Zplus_mod_idemp_l. reflexivity.
Qed.

(** X18. With reversed bounds [b < a] the integer transform wraps around:
    it completes, and every output lies outside [[b, a)], at or above
    [a] or below [b]. Buffer variant, both element types. *)
Theorem range_transform_int_reversed_bounds (T : int_type) (a b n : Z) :
  in_range T a -> in_range T b -> b < a -> int64_count n ->
  forall in_ out : list Z,
    n <= Z.of_nat (length in_) -> n <= Z.of_nat (length out) ->
    exists out',
      buffer_api.range_transform_int T a b n in_ out = Some (in_, out')
      /\ forall i, below n i ->
           exists v, out' !! i = Some v /\ in_range T v /\ (a <= v \/ v < b).
Proof.
  intros Ha Hb Hba Hn in_ out Hlin Hlout.
  assert (Hg : forall raw, exists v,
             range_int_expr T a b raw = Some v
             /\ in_range T v /\ (a <= v \/ v < b)).
  { intros raw.
    destruct (range_int_expr_cyclic T a b raw Ha Hb ltac:(lia)) as [E Hk].
    exists (wrap T (a + raw mod ((b - a) mod two32))).
    split; [exact E|]. split; [apply wrap_in_range|].
    assert (Hd : (b - a) mod two32 = b - a + two32).
    { symmetry. apply (Z.mod_unique (b - a) two32 (-1)); [|lia].
      destruct T; simpl in Ha, Hb; rewrite two32_eq, ?two31_eq in *; lia. }
    rewrite Hd in *. set (k := raw mod (b - a + two32)) in *.
    destruct T; simpl in *; rewrite two32_eq, ?two31_eq in *.
    - unfold to_int32. rewrite two32_eq, two31_eq.
      destruct (Z_lt_le_dec (a + k) 2147483648).
      + rewrite Z.mod_small by lia. lia.
      + rewrite <- (Z.mod_add _ (-1)) by lia. rewrite Z.mod_small by lia.
        lia.
    - unfold to_uint32. rewrite two32_eq.
      destruct (Z_lt_le_dec (a + k) 4294967296).
      + rewrite Z.mod_small by lia. lia.
      + rewrite <- (Z.mod_add _ (-1)) by lia. rewrite Z.mod_small by lia.
        lia. }
  destruct (buffer_pair_run (range_int_expr T a b)
              (buffer_api.range_transform_int_item T a b) n in_ out)
    as (out' & Hrun & _ & Hin & _);
    [apply buf_range_transform_int_item_pointwise|assumption..| |].
  { intros i x _ _. destruct (Hg x) as (v & -> & _). eauto. }
  exists out'. split; [exact Hrun|]. intros i Hi.
  destruct (lookup_lt_is_Some_2 in_ i) as [raw Hraw];
    [unfold below in Hi; lia|].
  destruct (Hg raw) as (v & E & Hv). exists v.
  split; [|exact Hv]. now rewrite (Hin i raw Hi Hraw).
Qed.

Lemma range_transform_int_reversed_bounds_witness :
  exists out',
    buffer_api.range_transform_int uint32_t 20 10 3 [5; 17; 4294967295]
      [0; 0; 0]
    = Some ([5; 17; 4294967295], out')
    /\ forall i, below 3 i ->
         exists v, out' !! i = Some v /\ in_range uint32_t v
                   /\ (20 <= v \/ v < 10).
Proof.
  assert (Hn : int64_count 3) by (vm_compute; intuition discriminate).
  refine (range_transform_int_reversed_bounds uint32_t 20 10 3 _ _ _ Hn
            [5; 17; 4294967295] [0; 0; 0] _ _);
    simpl; rewrite ?two32_eq; lia.
Defined.
